(** * jsonobj: path-addressed access to a decoded JSON document

    A shallow embedding of [jsonobj.go] (package [jsonobj]): the error
    values, the dynamic value held by [JSON.intf], the path resolver
    [find], the reflection-driven [assign], and the public methods
    [Unmarshal], [Get], [Set], [Len] and [Export].

    Conventions of the embedding.
    - A Go [string] is a sequence of bytes: [string] of the standard
      library.  The platform is a 64-bit one ([int] is 64 bits wide).
    - A [float64] is a [spec_float] read at precision 53 and maximal
      exponent 1024; arithmetic on it is the standard library's
      executable IEEE 754 specification.
    - [interface{}] values produced by [encoding/json] are the inductive
      [Value]; maps are [gmap string Value], slices are lists.
    - Go maps and slices are references: [Set] writes through the
      container that [find] returned.  The document is a tree without
      sharing (the decoder builds fresh containers and [assign] copies),
      so the container is identified by its address in the tree and the
      write is a functional update at that address.
    - A run-time panic is an explicit outcome, never an error value. *)

From Stdlib Require Import ZArith Zpower String Ascii List Bool Lia SpecFloat.
From stdpp Require Import gmap strings list.

#[local] Set Warnings "-register-all".
#[local] Arguments String.append !s1 s2 : simpl nomatch.
#[local] Open Scope string_scope.
#[local] Open Scope Z_scope.

(** ** Errors of the package *)

(** The package-level [*ErrJSON] variables. *)
Inductive ErrJSON : Type :=
| ErrInvalidIn
| ErrInvalidOut
| ErrInvalidPath
| ErrNotFound
| ErrOutOfRange
| ErrTruncate
| ErrTypeMissmatch.

Definition ErrorString (e : ErrJSON) : string :=
  match e with
  | ErrInvalidIn => "invalid in value"
  | ErrInvalidOut => "invalid out type"
  | ErrInvalidPath => "invalid path"
  | ErrNotFound => "element not found"
  | ErrOutOfRange => "index out of range"
  | ErrTruncate => "json value truncated or overflowed in output"
  | ErrTypeMissmatch => "in out type missmatch"
  end.

(** ** The strings and strconv functions used by [find] *)

Module GoStrings.

(** [strings.Split(s, sep)] for a one-byte separator: always at least one
    piece, [n+1] pieces for [n] occurrences of the separator. *)
Fixpoint Split (s : string) (sep : ascii) : list string :=
  match s with
  | EmptyString => [EmptyString]
  | String c s' =>
      if Ascii.eqb c sep then EmptyString :: Split s' sep
      else match Split s' sep with
           | piece :: pieces => String c piece :: pieces
           | [] => [String c EmptyString]
           end
  end.

(** [strings.LastIndex(s, sep)] for a one-byte separator: the byte index
    of the last occurrence, or -1. *)
Fixpoint LastIndex (s : string) (sep : ascii) : Z :=
  match s with
  | EmptyString => -1
  | String c s' =>
      let r := LastIndex s' sep in
      if 0 <=? r then r + 1
      else if Ascii.eqb c sep then 0 else -1
  end.

(** The slice expression [s[lo:hi]] for [0 <= lo <= hi <= len(s)]. *)
Definition slice (s : string) (lo hi : Z) : string :=
  String.substring (Z.to_nat lo) (Z.to_nat (hi - lo)) s.

Definition len (s : string) : Z := Z.of_nat (String.length s).

(** ASCII case folding, as [strings.EqualFold] does on ASCII text. *)
Definition lower (c : ascii) : ascii :=
  let n := nat_of_ascii c in
  if ((65 <=? n) && (n <=? 90))%nat then ascii_of_nat (n + 32) else c.

Fixpoint EqualFold (s t : string) : bool :=
  match s, t with
  | EmptyString, EmptyString => true
  | String a s', String b t' => Ascii.eqb (lower a) (lower b) && EqualFold s' t'
  | _, _ => false
  end.

End GoStrings.

Module Strconv.

Definition maxInt : Z := 9223372036854775807.
Definition minInt : Z := -9223372036854775808.

Definition digit (c : ascii) : option Z :=
  let n := Z.of_nat (nat_of_ascii c) in
  if (48 <=? n) && (n <=? 57) then Some (n - 48) else None.

(** Value of a run of decimal digits, most significant first. *)
Fixpoint digits (s : string) (acc : Z) : option Z :=
  match s with
  | EmptyString => Some acc
  | String c s' =>
      match digit c with
      | Some d => digits s' (10 * acc + d)
      | None => None
      end
  end.

(** [strconv.Atoi]: an optional sign, then at least one decimal digit;
    [None] stands for a non-nil error (syntax or range). *)
Definition Atoi (s : string) : option Z :=
  let '(neg, body) :=
    match s with
    | String c r =>
        if Ascii.eqb c "+" then (false, r)
        else if Ascii.eqb c "-" then (true, r)
        else (false, s)
    | EmptyString => (false, s)
    end in
  match body with
  | EmptyString => None
  | _ =>
      match digits body 0 with
      | None => None
      | Some n =>
          let v := if neg then - n else n in
          if (minInt <=? v) && (v <=? maxInt) then Some v else None
      end
  end.

End Strconv.

(** ** The dynamic value *)

(** What [json.Unmarshal] stores into an [interface{}]: [nil], [bool],
    [float64], [string], [[]interface{}] or [map[string]interface{}]. *)
Inductive Value : Type :=
| Null
| Bool (b : bool)
| Number (f : spec_float)
| Str (s : string)
| Array (l : list Value)
| Object (m : gmap string Value).

(** [type JSON struct { intf interface{} }]. *)
Record JSON : Type := { intf : Value }.

(** ** Path resolution *)

(** [parentKey]: [reflect.ValueOf(nil)], of a map key or of an index. *)
Inductive Key : Type :=
| KeyNone
| KeyField (k : string)
| KeyIndex (i : Z).

(** One descent from a container into one of its children. *)
Inductive Hop : Type :=
| ByField (k : string)
| ByIndex (i : nat).

(** The loop variable [result] of [find], with the address in the
    document of the value it refers to. *)
Record Cursor : Type := { result : Value; address : list Hop }.

Definition FindResult : Type := (ErrJSON + Key * Cursor)%type.

(** The index part of one path segment (lines 114-126): the segment's
    field portion and [i].  The loop resets [i] to -1 at the end of every
    iteration, so [i] is -1 when the segment has no bracket.  [None] is
    the return of ErrInvalidPath. *)
Definition parse_key (keyv : string) : option (string * Z) :=
  let a := GoStrings.LastIndex keyv "[" in
  let b := GoStrings.LastIndex keyv "]" in
  if 0 <=? a then
    if b <=? a then None
    else
      match Strconv.Atoi (GoStrings.slice keyv (a + 1) b) with
      | None => None
      | Some i => Some (GoStrings.slice keyv 0 a, i)
      end
  else Some (keyv, -1).

(** The rest of one iteration of the loop (lines 128-174).  [last] is
    [keyi == kl-1]; the [break]s are taken on the last iteration only. *)
Definition walk_key (parent last : bool) (cur : Cursor) (keyv : string) (i : Z)
  : FindResult :=
  if String.eqb keyv "" then
    match result cur with
    | Array si =>
        if (i <? 0) || (Z.of_nat (length si) <=? i) then inl ErrOutOfRange
        else if parent && last then inr (KeyIndex i, cur)
        else
          match si !! Z.to_nat i with
          | Some x =>
              inr (KeyNone,
                   {| result := x; address := (address cur ++ [ByIndex (Z.to_nat i)])%list |})
          | None => inl ErrOutOfRange
          end
    | _ => inl ErrNotFound
    end
  else
    match result cur with
    | Object mi =>
        if (i <? 0) && parent && last then inr (KeyField keyv, cur)
        else
          match mi !! keyv with
          | None => inl ErrNotFound
          | Some iv =>
              let here := (address cur ++ [ByField keyv])%list in
              if -1 <? i then
                match iv with
                | Array sv =>
                    if Z.of_nat (length sv) <=? i then inl ErrOutOfRange
                    else if parent && last then
                      inr (KeyIndex i, {| result := iv; address := here |})
                    else
                      match sv !! Z.to_nat i with
                      | Some x =>
                          inr (KeyNone,
                               {| result := x;
                                  address := (here ++ [ByIndex (Z.to_nat i)])%list |})
                      | None => inl ErrOutOfRange
                      end
                | _ => inl ErrNotFound
                end
              else inr (KeyNone, {| result := iv; address := here |})
          end
    | _ => inl ErrNotFound
    end.

(** One iteration of the loop. *)
Definition find_step (parent last : bool) (cur : Cursor) (keyv : string)
  : FindResult :=
  match parse_key keyv with
  | None => inl ErrInvalidPath
  | Some (field, i) => walk_key parent last cur field i
  end.

(** The loop over [keys] (lines 112-175). *)
Fixpoint find_loop (parent : bool) (keys : list string) (cur : Cursor)
  : FindResult :=
  match keys with
  | [] => inr (KeyNone, cur)
  | keyv :: rest =>
      let last := match rest with [] => true | _ => false end in
      match find_step parent last cur keyv with
      | inl e => inl e
      | inr (key, cur') =>
          if last then inr (key, cur') else find_loop parent rest cur'
      end
  end.

(** [func (j *JSON) find(path string, parent bool)]. *)
Definition find (j : JSON) (path : string) (parent : bool) : FindResult :=
  let keys := GoStrings.Split path "." in
  if (length keys =? 0)%nat then inl ErrInvalidPath
  else if existsb (fun v => String.eqb v "") keys then inl ErrInvalidPath
  else find_loop parent keys {| result := intf j; address := [] |}.

(** ** float64 and the numeric conversions of [assign] *)

Module F64.

Definition prec : Z := 53.
Definition emax : Z := 1024.

(** The operand [0] of [!= 0] and the test itself: NaN and the
    infinities differ from zero, both zeros do not. *)
Definition ne0 (x : spec_float) : bool :=
  match x with
  | S754_zero _ => false
  | _ => true
  end.

Definition sub (x y : spec_float) : spec_float := SFsub prec emax x y.

(** [float64(n)] for an integer [n]: rounding to nearest, ties to even. *)
Definition of_int (n : Z) : spec_float := binary_normalize prec emax n 0 false.

(** [float32(v)]: rounding to binary32 (precision 24, maximal exponent
    128); a magnitude beyond the binary32 range becomes an infinity. *)
Definition to_float32 (v : spec_float) : spec_float :=
  match v with
  | S754_finite s m e => binary_round 24 128 s m e
  | _ => v
  end.

(** [float64(w)] for a binary32 value [w]: exact. *)
Definition of_float32 (w : spec_float) : spec_float :=
  match w with
  | S754_finite s m e => binary_round prec emax s m e
  | _ => w
  end.

(** The integer part of a finite value, rounding toward zero. *)
Definition trunc (v : spec_float) : option Z :=
  match v with
  | S754_zero _ => Some 0
  | S754_finite s m e => Some (cond_Zopp s (Z.shiftl (Zpos m) e))
  | _ => None
  end.

(** A value as the product of an integer and a power of two. *)
Definition dyadic (v : spec_float) : option (Z * Z) :=
  match v with
  | S754_zero _ => Some (0, 0)
  | S754_finite s m e => Some (cond_Zopp s (Zpos m), e)
  | _ => None
  end.

(** [x] and [y] are the same number: both finite and of equal value. *)
Definition same_number (x y : spec_float) : bool :=
  match dyadic x, dyadic y with
  | Some (mx, ex), Some (my, ey) =>
      let ez := Z.min ex ey in
      mx * 2 ^ (ex - ez) =? my * 2 ^ (ey - ez)
  | _, _ => false
  end.

(** The numbers a document holds: finite, in canonical form. *)
Definition finite (v : spec_float) : bool :=
  match v with
  | S754_zero _ => true
  | S754_finite _ _ _ => valid_binary prec emax v
  | _ => false
  end.

End F64.

(** The integer kinds of [reflect.Kind] that [assign] has a case for. *)
Inductive IntKind : Type :=
| Int | Int8 | Int16 | Int32 | Int64
| Uint | Uint8 | Uint16 | Uint32 | Uint64.

Definition int_signed (k : IntKind) : bool :=
  match k with
  | Int | Int8 | Int16 | Int32 | Int64 => true
  | _ => false
  end.

Definition int_bits (k : IntKind) : Z :=
  match k with
  | Int8 | Uint8 => 8
  | Int16 | Uint16 => 16
  | Int32 | Uint32 => 32
  | Int | Int64 | Uint | Uint64 => 64
  end.

Definition int_min (k : IntKind) : Z :=
  if int_signed k then - 2 ^ (int_bits k - 1) else 0.

Definition int_max (k : IntKind) : Z :=
  if int_signed k then 2 ^ (int_bits k - 1) - 1 else 2 ^ int_bits k - 1.

Definition int_fits (k : IntKind) (n : Z) : bool :=
  (int_min k <=? n) && (n <=? int_max k).

(** Reduction of an integer into the range of kind [k], modulo [2^bits]. *)
Definition int_wrap (k : IntKind) (n : Z) : Z :=
  (n - int_min k) mod 2 ^ int_bits k + int_min k.

(** ** Typed destinations *)

(** The kinds with a scalar case in [assign]. *)
Inductive Kind : Type :=
| KBool
| KString
| KFloat64
| KFloat32
| KInteger (k : IntKind).

(** A struct field as [assign] sees it: [Name] is [fld.Name], [Tag] is
    [fld.Tag.Get("json")] (empty without a json tag) and [Exported]
    tells whether [Field(i).CanSet()] holds in an addressable struct. *)
Record FieldInfo : Type := { Name : string; Tag : string; Exported : bool }.

(** Go types as far as [assign] tells them apart.  [TBasic k defined]
    is a type of kind [k]: the predeclared one ([bool], [int8], ...) when
    [defined] is [false], a defined type over it ([type Age int8]) when
    it is [true].  [TInterface] is [interface{}]; [TOther] is any type of
    another kind (pointer, map, array, channel, function, complex,
    uintptr). *)
Inductive GoType : Type :=
| TBasic (k : Kind) (defined : bool)
| TSlice (elem : GoType)
| TStruct (fields : list (FieldInfo * GoType))
| TInterface
| TOther.

(** Values of those types.  A slice is [None] when nil; [VNil] is the nil
    interface value; [VOpaque id] is a value of a [TOther] type, told
    apart from the others by [id] ([0] is the zero value). *)
Inductive GoVal : Type :=
| VBool (b : bool)
| VString (s : string)
| VFloat64 (f : spec_float)
| VFloat32 (f : spec_float)
| VInt (n : Z)
| VSlice (els : option (list GoVal))
| VStruct (fields : list GoVal)
| VNil
| VOpaque (id : N).

(** The zero value of a type. *)
Fixpoint zero (t : GoType) : GoVal :=
  match t with
  | TBasic KBool _ => VBool false
  | TBasic KString _ => VString ""
  | TBasic KFloat64 _ => VFloat64 (S754_zero false)
  | TBasic KFloat32 _ => VFloat32 (S754_zero false)
  | TBasic (KInteger _) _ => VInt 0
  | TSlice _ => VSlice None
  | TStruct fields => VStruct (map (fun f => zero (snd f)) fields)
  | TInterface => VNil
  | TOther => VOpaque 0
  end.

(** ** reflect.Value as [assign] reads it *)

(** The [in] argument of [assign]: the zero Value ([reflect.ValueOf(nil)]),
    a Value of a concrete dynamic type (obtained by [reflect.ValueOf]), a
    Value of kind Interface (an element of a [[]interface{}] or of a
    [map[string]interface{}], obtained by [Index] or [MapIndex]: it may
    hold nil), or a Value of kind Uint8 (a byte of a string, by [Index]). *)
Inductive RValue : Type :=
| RZero
| RConcrete (v : Value)
| RIface (v : Value)
| RByte (c : ascii).

Definition ValueOf (ifc : Value) : RValue :=
  match ifc with
  | Null => RZero
  | _ => RConcrete ifc
  end.

Definition IsValid (v : RValue) : bool :=
  match v with
  | RZero => false
  | _ => true
  end.

(** [v.Len()]: [None] where reflect panics (a kind other than Array,
    Chan, Map, Slice or String). *)
Definition Len_of (v : RValue) : option nat :=
  match v with
  | RConcrete (Str s) => Some (String.length s)
  | RConcrete (Array l) => Some (length l)
  | RConcrete (Object m) => Some (size m)
  | _ => None
  end.

(** [v.Index(i)] for [i < v.Len()]: [None] where reflect panics (a kind
    other than Array, Slice or String). *)
Definition Index (v : RValue) (i : nat) : option RValue :=
  match v with
  | RConcrete (Array l) => RIface <$> l !! i
  | RConcrete (Str s) => RByte <$> String.get i s
  | _ => None
  end.

(** [v.MapKeys()]: [None] where reflect panics (a kind other than Map).
    The order of the keys is unspecified in Go; they are distinct. *)
Definition MapKeys (v : RValue) : option (list string) :=
  match v with
  | RConcrete (Object m) => Some (map_to_list m).*1
  | _ => None
  end.

(** [v.MapIndex(key)] on a Value of kind Map. *)
Definition MapIndex (v : RValue) (key : string) : RValue :=
  match v with
  | RConcrete (Object m) =>
      match m !! key with
      | Some x => RIface x
      | None => RZero
      end
  | _ => RZero
  end.

(** [v.Interface()]: the dynamic value held, for the type assertions. *)
Definition Interface (v : RValue) : option Value :=
  match v with
  | RConcrete x | RIface x => Some x
  | _ => None
  end.

Definition as_bool (v : RValue) : option bool :=
  match Interface v with
  | Some (Bool b) => Some b
  | _ => None
  end.

Definition as_string (v : RValue) : option string :=
  match Interface v with
  | Some (Str s) => Some s
  | _ => None
  end.

Definition as_float64 (v : RValue) : option spec_float :=
  match Interface v with
  | Some (Number f) => Some f
  | _ => None
  end.

(** How a call ends: [return nil], [return err], or a panic. *)
Inductive Status (E : Type) : Type :=
| Ok
| Failed (err : E)
| Panicked (reason : string).

Arguments Ok {E}.
Arguments Failed {E} err.
Arguments Panicked {E} reason.

(** ** assign *)

Section Assign.

(** The Go specification leaves the result of converting a floating-point
    value to an integer type that cannot represent it to the
    implementation: the conversion succeeds with a value of the type,
    [unrepresentable k v] reduced into the range of [k]. *)
Variable unrepresentable : IntKind -> spec_float -> Z.

(** The conversion [T(v)] of a [float64] to the integer type of kind [k]. *)
Definition to_int (k : IntKind) (v : spec_float) : Z :=
  match F64.trunc v with
  | Some n => if int_fits k n then n else int_wrap k (unrepresentable k v)
  | None => int_wrap k (unrepresentable k v)
  end.

(** [out.Set(reflect.ValueOf(x))] where [x] has a predeclared type:
    reflect panics unless that type is assignable to the type of [out],
    which a defined type of the same kind is not. *)
Definition Set_basic (defined : bool) (out x : GoVal) : Status ErrJSON * GoVal :=
  if defined then
    (Panicked "reflect.Set: value is not assignable to the type of out", out)
  else (Ok, x).

(** The inner loop over [keys] (lines 209-223): the first key matching
    the field, by [tags[0]] when [tags] is not empty and by
    [strings.EqualFold] with the field name otherwise. *)
Fixpoint match_key (keys tags : list string) (name : string) : option string :=
  match keys with
  | [] => None
  | key :: keys' =>
      let matched :=
        match tags with
        | tag0 :: _ => String.eqb key tag0
        | [] => GoStrings.EqualFold key name
        end in
      if matched then Some key else match_key keys' tags name
  end.

(** [func (j *JSON) assign(in, out reflect.Value) error], for [out] an
    addressable, settable Value of type [t] that holds [out]: the status
    and what [out] holds afterwards.  A struct is written field by
    field, so an error leaves the fields assigned before it; a slice is
    built aside and stored at the end.  Only one key can equal
    [tags[0]], so the order of [MapKeys] does not show in the result. *)
Fixpoint assign (t : GoType) (inv : RValue) (out : GoVal) {struct t}
  : Status ErrJSON * GoVal :=
  if negb (IsValid inv) then (Ok, out)
  else
    match t with
    | TSlice elem =>
        match Len_of inv with
        | None => (Panicked "reflect: call of reflect.Value.Len", out)
        | Some n =>
            let fix elems (i : nat) (todo : nat) (sl : list GoVal)
              : Status ErrJSON * list GoVal :=
              match todo with
              | O => (Ok, sl)
              | S todo' =>
                  match Index inv i with
                  | None => (Panicked "reflect: call of reflect.Value.Index", sl)
                  | Some x =>
                      match assign elem x (zero elem) with
                      | (Ok, y) => elems (S i) todo' (sl ++ [y])%list
                      | (bad, _) => (bad, sl)
                      end
                  end
              end in
            match elems O n [] with
            | (Ok, sl) => (Ok, VSlice (Some sl))
            | (bad, _) => (bad, out)
            end
        end
    | TStruct fields =>
        match MapKeys inv with
        | None => (Panicked "reflect: call of reflect.Value.MapKeys", out)
        | Some keys =>
            let fix each (fs : list (FieldInfo * GoType)) (vals : list GoVal)
              : Status ErrJSON * list GoVal :=
              match fs, vals with
              | (fld, ft) :: fs', val :: vals' =>
                  if negb (Exported fld) then
                    let '(st, rest) := each fs' vals' in (st, val :: rest)
                  else
                    let tags := GoStrings.Split (Tag fld) "," in
                    match match_key keys tags (Name fld) with
                    | None =>
                        let '(st, rest) := each fs' vals' in (st, val :: rest)
                    | Some key =>
                        match assign ft (MapIndex inv key) val with
                        | (Ok, val') =>
                            let '(st, rest) := each fs' vals' in
                            (st, val' :: rest)
                        | (bad, val') => (bad, val' :: vals')
                        end
                    end
              | _, _ => (Ok, vals)
              end in
            match out with
            | VStruct vals =>
                let '(st, vals') := each fields vals in (st, VStruct vals')
            | _ => (Ok, out)
            end
        end
    | TBasic KBool defined =>
        match as_bool inv with
        | None => (Failed ErrInvalidOut, out)
        | Some v => Set_basic defined out (VBool v)
        end
    | TBasic KString defined =>
        match as_string inv with
        | None => (Failed ErrInvalidOut, out)
        | Some v => Set_basic defined out (VString v)
        end
    | TBasic KFloat64 defined =>
        match as_float64 inv with
        | None => (Failed ErrInvalidOut, out)
        | Some v => Set_basic defined out (VFloat64 v)
        end
    | TBasic KFloat32 defined =>
        match as_float64 inv with
        | None => (Failed ErrInvalidOut, out)
        | Some v =>
            if F64.ne0 (F64.sub v (F64.of_float32 (F64.to_float32 v)))
            then (Failed ErrTruncate, out)
            else Set_basic defined out (VFloat32 (F64.to_float32 v))
        end
    | TBasic (KInteger k) defined =>
        match as_float64 inv with
        | None => (Failed ErrInvalidOut, out)
        | Some v =>
            if F64.ne0 (F64.sub v (F64.of_int (to_int k v)))
            then (Failed ErrTruncate, out)
            else Set_basic defined out (VInt (to_int k v))
        end
    | TInterface | TOther => (Ok, out)
    end.

End Assign.

(** ** Writing through the container returned by [find] *)

(** The document with the value at [addr] replaced by [new]. *)
Fixpoint write_at (addr : list Hop) (new : Value) (root : Value) : Value :=
  match addr with
  | [] => new
  | ByField k :: addr' =>
      match root with
      | Object m =>
          match m !! k with
          | Some child => Object (<[k := write_at addr' new child]> m)
          | None => root
          end
      | _ => root
      end
  | ByIndex i :: addr' =>
      match root with
      | Array l =>
          match l !! i with
          | Some child => Array (<[i := write_at addr' new child]> l)
          | None => root
          end
      | _ => root
      end
  end.

(** The value at [addr], if the address exists in the document. *)
Fixpoint read_at (addr : list Hop) (root : Value) : option Value :=
  match addr with
  | [] => Some root
  | ByField k :: addr' =>
      match root with
      | Object m => m !! k ≫= read_at addr'
      | _ => None
      end
  | ByIndex i :: addr' =>
      match root with
      | Array l => l !! i ≫= read_at addr'
      | _ => None
      end
  end.

(** [tgtval.SetMapIndex(key, elem)]: a zero [elem] deletes the key. *)
Definition SetMapIndex (m : gmap string Value) (key : string) (elem : RValue)
  : gmap string Value :=
  match Interface elem with
  | Some x => <[key := x]> m
  | None => delete key m
  end.

(** ** The public methods *)

Section Facade.

Variable unrepresentable : IntKind -> spec_float -> Z.

(** The encoder and decoder of [encoding/json], used as they are: the
    errors they return, [json.Unmarshal] into an [interface{}],
    [Encoder.Encode] of a typed value into a buffer, [json.Marshal] and
    [json.MarshalIndent] with an empty prefix. *)
Variable CodecError : Type.
Variable json_Unmarshal : string -> CodecError + Value.
Variable json_Encode : GoType -> GoVal -> CodecError + string.
Variable json_Marshal : Value -> CodecError + string.
Variable json_MarshalIndent : Value -> string -> CodecError + string.

(** An error returned by a method: one of the package or one of the codec. *)
Inductive Error : Type :=
| OfPackage (e : ErrJSON)
| OfCodec (e : CodecError).

(** [func Unmarshal(b []byte)], returning a [*JSON] and an error. *)
Definition Unmarshal (b : string) : CodecError + JSON :=
  match json_Unmarshal b with
  | inl err => inl err
  | inr v => inr {| intf := v |}
  end.

(** The [out interface{}] argument of [Get]: nil, a value that is not a
    pointer, a nil pointer to type [t], or a pointer to a variable of
    type [t] that holds [x]. *)
Inductive OutArg : Type :=
| OutNil
| OutValue (t : GoType) (x : GoVal)
| OutNilPointer (t : GoType)
| OutPointer (t : GoType) (x : GoVal).

(** [func (j *JSON) Get(path string, out interface{}) error]: the status
    and [out] afterwards.  For a nil pointer [outv.Elem()] is the zero
    Value, whose kind has no case in [assign]. *)
Definition Get (j : JSON) (path : string) (out : OutArg) : Status ErrJSON * OutArg :=
  match out with
  | OutNil | OutValue _ _ => (Failed ErrInvalidOut, out)
  | OutNilPointer _ =>
      match find j path false with
      | inl err => (Failed err, out)
      | inr _ => (Ok, out)
      end
  | OutPointer t x =>
      match find j path false with
      | inl err => (Failed err, out)
      | inr (_, cur) =>
          let '(st, x') := assign unrepresentable t (ValueOf (result cur)) x in
          (st, OutPointer t x')
      end
  end.

(** The [in interface{}] argument of [Set]: nil, or a value of type [t]. *)
Inductive InArg : Type :=
| InNil
| InValue (t : GoType) (x : GoVal).

(** Passing a variable of type [t] that holds [x] as [in]: an
    [interface{}] variable holding nil makes [in] nil. *)
Definition pass (t : GoType) (x : GoVal) : InArg :=
  match t, x with
  | TInterface, VNil => InNil
  | _, _ => InValue t x
  end.

(** [func (j *JSON) Set(path string, in interface{}) error]: the status
    and the document afterwards. *)
Definition Set_ (j : JSON) (path : string) (in_ : InArg) : Status Error * JSON :=
  match in_ with
  | InNil => (Failed (OfPackage ErrInvalidIn), j)
  | InValue t x =>
      match find j path true with
      | inl err => (Failed (OfPackage err), j)
      | inr (key, tgt) =>
          match json_Encode t x with
          | inl err => (Failed (OfCodec err), j)
          | inr buff =>
              match json_Unmarshal buff with
              | inl err => (Failed (OfCodec err), j)
              | inr ifc =>
                  match result tgt, key with
                  | Object m, KeyField k =>
                      (Ok, {| intf := write_at (address tgt)
                                        (Object (SetMapIndex m k (ValueOf ifc)))
                                        (intf j) |})
                  | Array l, KeyIndex i =>
                      if IsValid (ValueOf ifc) then
                        (Ok, {| intf := write_at (address tgt)
                                          (Array (<[Z.to_nat i := ifc]> l))
                                          (intf j) |})
                      else
                        (Panicked "reflect: call of reflect.Value.Set on zero Value", j)
                  | Object _, _ | Array _, _ =>
                      (Panicked "reflect: key of the wrong kind", j)
                  | _, _ =>
                      (Panicked "this shouldn't happen: parent value not map or slice", j)
                  end
              end
          end
      end
  end.

(** [func (j *JSON) Len(path string) (int, error)]. *)
Definition Len (j : JSON) (path : string) : Z * option ErrJSON :=
  match find j path false with
  | inl err => (-1, Some err)
  | inr (_, cur) =>
      match result cur with
      | Array slcv => (Z.of_nat (length slcv), None)
      | _ => (-1, Some ErrInvalidPath)
      end
  end.

(** [func (j *JSON) Export(indent string) ([]byte, error)]. *)
Definition Export (j : JSON) (indent : string) : CodecError + string :=
  if negb (String.eqb indent "") then json_MarshalIndent (intf j) indent
  else json_Marshal (intf j).

End Facade.

Arguments OfPackage {CodecError} e.
Arguments OfCodec {CodecError} e.

(** * Notions used in the statements *)

(** The byte [c] occurs in [s]. *)
Fixpoint occurs (c : ascii) (s : string) : bool :=
  match s with
  | EmptyString => false
  | String d s' => Ascii.eqb d c || occurs c s'
  end.

(** The path made of the segments [keys], separated by dots. *)
Definition join (keys : list string) : string := String.concat "." keys.

(** What a read of the prefix [pre] of a path arrives at; the empty
    prefix is the root of the document. *)
Definition reach (j : JSON) (pre : list string) : option Cursor :=
  match pre with
  | [] => Some {| result := intf j; address := [] |}
  | _ =>
      match find j (join pre) false with
      | inr (_, cur) => Some cur
      | inl _ => None
      end
  end.

(** The keys that the segments [l] contribute to a path. *)
Definition keys_of (l : list string) : list string :=
  match l with
  | [] => []
  | _ => GoStrings.Split (join l) "."
  end.

(** [out] passes the guard of [Get]: it is a pointer, nil or not. *)
Definition is_pointer (out : OutArg) : bool :=
  match out with
  | OutNilPointer _ | OutPointer _ _ => true
  | _ => false
  end.

Definition is_panic {E : Type} (st : Status E) : bool :=
  match st with
  | Panicked _ => true
  | _ => false
  end.

(** The cursor of [find] carries the address of the value it holds. *)
Definition well_addressed (root : Value) (cur : Cursor) : Prop :=
  read_at (address cur) root = Some (result cur).

(** [tgt] is a container and [key] names, in it, the value of [cur]. *)
Definition locates (tgt : Cursor) (key : Key) (cur : Cursor) : Prop :=
  match result tgt, key with
  | Object mi, KeyField k => mi !! k = Some (result cur)
  | Array si, KeyIndex i => 0 <= i /\ si !! Z.to_nat i = Some (result cur)
  | _, _ => False
  end.

Definition scalar (v : Value) : bool :=
  match v with
  | Null | Bool _ | Number _ | Str _ => true
  | _ => false
  end.

(** The Go type that [encoding/json] gives a decoded scalar, and the
    scalar as a value of that type. *)
Definition natural_type (v : Value) : GoType :=
  match v with
  | Bool _ => TBasic KBool false
  | Number _ => TBasic KFloat64 false
  | Str _ => TBasic KString false
  | _ => TInterface
  end.

Definition natural_value (v : Value) : GoVal :=
  match v with
  | Bool b => VBool b
  | Number f => VFloat64 f
  | Str s => VString s
  | _ => VNil
  end.

(** The codec gives [v] back: encoding it at its natural type and
    decoding the text yields [v]. *)
Definition round_trips (CodecError : Type)
  (json_Unmarshal : string -> CodecError + Value)
  (json_Encode : GoType -> GoVal -> CodecError + string)
  (v : Value) : Prop :=
  exists buff,
    json_Encode (natural_type v) (natural_value v) = inr buff
    /\ json_Unmarshal buff = inr v.

(** The exponent of a finite value is at least [lo]. *)
Definition grounded (lo : Z) (x : spec_float) : Prop :=
  match x with
  | S754_finite _ _ e => lo <= e
  | _ => True
  end.

(** The least exponent of a finite [float64]. *)
Definition emin64 : Z := emin F64.prec F64.emax.

(** The kinds narrower than [float64]. *)
Definition narrower (k : Kind) : bool :=
  match k with
  | KFloat32 | KInteger _ => true
  | _ => false
  end.

(** [v] cast to the type of kind [k], and that cast back to [float64]. *)
Definition cast (unrepresentable : IntKind -> spec_float -> Z)
  (k : Kind) (v : spec_float) : GoVal :=
  match k with
  | KBool => VBool false
  | KString => VString ""
  | KFloat64 => VFloat64 v
  | KFloat32 => VFloat32 (F64.to_float32 v)
  | KInteger ik => VInt (to_int unrepresentable ik v)
  end.

Definition cast_back (unrepresentable : IntKind -> spec_float -> Z)
  (k : Kind) (v : spec_float) : spec_float :=
  match k with
  | KFloat32 => F64.of_float32 (F64.to_float32 v)
  | KInteger ik => F64.of_int (to_int unrepresentable ik v)
  | _ => v
  end.

(** The numbers 3.5 and 3. *)
Definition three_and_a_half : spec_float := binary_normalize F64.prec F64.emax 7 (-1) false.
Definition three : spec_float := F64.of_int 3.

(** [v] is the integer [n]. *)
Definition whole (v : spec_float) (n : Z) : bool :=
  match F64.dyadic v with
  | Some (m, e) => if 0 <=? e then m * 2 ^ e =? n else m =? n * 2 ^ (- e)
  | None => false
  end.

(** [w] is a number of the binary32 format: a zero, or a mantissa below
    [2^24] at an exponent from -149 to 104. *)
Definition binary32 (w : spec_float) : bool :=
  match w with
  | S754_zero _ => true
  | S754_finite _ m e => (Zpos m <? 2 ^ 24) && (-149 <=? e) && (e <=? 104)
  | _ => false
  end.

(** The outcome [r] of [assign] is that of storing [x] in [out]: nil
    with [x] stored when the type of [out] is the predeclared type of
    its kind, a panic of reflect that leaves [out] when it is a defined
    type. *)
Definition commits (defined : bool) (out x : GoVal) (r : Status ErrJSON * GoVal) : Prop :=
  if defined then is_panic (fst r) = true /\ snd r = out else r = (Ok, x).

(** A result of [find] with [a] put before the address of its cursor. *)
Definition relocate (a : list Hop) (r : FindResult) : FindResult :=
  match r with
  | inl e => inl e
  | inr (key, c) => inr (key, {| result := result c; address := (a ++ address c)%list |})
  end.

(** ** Notions of the further properties *)

(** A read of the child that [key] names in the container [c], which
    lies at address [a]. *)
Definition peek (c : Value) (key : Key) (a : list Hop) : FindResult :=
  match c, key with
  | Object m, KeyField f =>
      match m !! f with
      | Some v => inr (KeyNone, {| result := v; address := (a ++ [ByField f])%list |})
      | None => inl ErrNotFound
      end
  | Array l, KeyIndex i =>
      match l !! Z.to_nat i with
      | Some v =>
          inr (KeyNone, {| result := v; address := (a ++ [ByIndex (Z.to_nat i)])%list |})
      | None => inl ErrOutOfRange
      end
  | _, _ => inl ErrNotFound
  end.

(** The loop of the Slice case of [assign] (lines 191-195), with the
    recursive call as a parameter: [rec x] assigns [x] to a zero element. *)
Definition elems_loop (rec : RValue -> Status ErrJSON * GoVal) (inv : RValue)
  : nat -> nat -> list GoVal -> Status ErrJSON * list GoVal :=
  fix elems (i : nat) (todo : nat) (sl : list GoVal) : Status ErrJSON * list GoVal :=
    match todo with
    | O => (Ok, sl)
    | S todo' =>
        match Index inv i with
        | None => (Panicked "reflect: call of reflect.Value.Index", sl)
        | Some x =>
            match rec x with
            | (Ok, y) => elems (S i) todo' (sl ++ [y])%list
            | (bad, _) => (bad, sl)
            end
        end
    end.

(** The loop of the Struct case of [assign] (lines 201-224), with the
    recursive call as a parameter. *)
Definition fields_loop (rec : GoType -> RValue -> GoVal -> Status ErrJSON * GoVal)
  (keys : list string) (inv : RValue)
  : list (FieldInfo * GoType) -> list GoVal -> Status ErrJSON * list GoVal :=
  fix each (fs : list (FieldInfo * GoType)) (vals : list GoVal)
    : Status ErrJSON * list GoVal :=
    match fs, vals with
    | (fld, ft) :: fs', val :: vals' =>
        if negb (Exported fld) then
          let '(st, rest) := each fs' vals' in (st, val :: rest)
        else
          let tags := GoStrings.Split (Tag fld) "," in
          match match_key keys tags (Name fld) with
          | None =>
              let '(st, rest) := each fs' vals' in (st, val :: rest)
          | Some key =>
              match rec ft (MapIndex inv key) val with
              | (Ok, val') =>
                  let '(st, rest) := each fs' vals' in
                  (st, val' :: rest)
              | (bad, val') => (bad, val' :: vals')
              end
          end
    | _, _ => (Ok, vals)
    end.

(** The errors of the package that a call may return, as lists. *)
Definition errors_of_find : list ErrJSON := [ErrInvalidPath; ErrNotFound; ErrOutOfRange].
Definition errors_of_Get : list ErrJSON :=
  [ErrInvalidOut; ErrInvalidPath; ErrNotFound; ErrOutOfRange; ErrTruncate].
Definition errors_of_Set : list ErrJSON :=
  [ErrInvalidIn; ErrInvalidPath; ErrNotFound; ErrOutOfRange].

Definition ErrJSON_eqb (e1 e2 : ErrJSON) : bool :=
  match e1, e2 with
  | ErrInvalidIn, ErrInvalidIn | ErrInvalidOut, ErrInvalidOut
  | ErrInvalidPath, ErrInvalidPath | ErrNotFound, ErrNotFound
  | ErrOutOfRange, ErrOutOfRange | ErrTruncate, ErrTruncate
  | ErrTypeMissmatch, ErrTypeMissmatch => true
  | _, _ => false
  end.

(** The error of the package that a status carries is one of [allowed]. *)
Definition fails_within (allowed : list ErrJSON) (st : Status ErrJSON) : bool :=
  match st with
  | Failed e => existsb (ErrJSON_eqb e) allowed
  | _ => true
  end.

(** The Go value of kind [k] that holds the document value [v], when
    [v] is of the JSON type that goes with [k]. *)
Definition element (k : Kind) (v : Value) : option GoVal :=
  match k, v with
  | KBool, Bool b => Some (VBool b)
  | KString, Str s => Some (VString s)
  | KFloat64, Number f => Some (VFloat64 f)
  | _, _ => None
  end.

(** The kinds that [assign] stores without a conversion. *)
Definition direct (k : Kind) : bool :=
  match k with
  | KBool | KString | KFloat64 => true
  | _ => false
  end.


(** The key of the object that the field [fld] is matched with: the
    text of its tag before the first comma. *)
Definition key_of_field (fld : FieldInfo) : string :=
  hd "" (GoStrings.Split (Tag fld) ",").

(** [new] is a container as [c] is: an object for an object, an array
    of the same length for an array. *)
Definition alike (c new : Value) : Prop :=
  match c, new with
  | Object _, Object _ => True
  | Array l, Array l' => length l' = length l
  | _, _ => False
  end.

(** The types of a kind that [assign] has no case for. *)
Definition unassigned (t : GoType) : bool :=
  match t with
  | TInterface | TOther => true
  | _ => false
  end.

(** * Sample documents, destinations and codec *)

(** An encoder and a decoder that agree with [encoding/json] on null,
    on the booleans and on plain ASCII strings (no quote, backslash,
    control byte, or byte that the encoder escapes), and that reject
    everything else. *)
Module SampleCodec.

Definition plain (c : ascii) : bool :=
  let n := nat_of_ascii c in
  ((32 <=? n) && (n <? 127) && negb (n =? 34) && negb (n =? 92)
   && negb (n =? 60) && negb (n =? 62) && negb (n =? 38))%nat.

Fixpoint all_plain (s : string) : bool :=
  match s with
  | EmptyString => true
  | String c s' => plain c && all_plain s'
  end.

Definition newline : string := String (ascii_of_nat 10) "".
Definition quote : string := String (ascii_of_nat 34) "".

Definition Encode (t : GoType) (x : GoVal) : string + string :=
  match x with
  | VBool true => inr ("true" ++ newline)
  | VBool false => inr ("false" ++ newline)
  | VSlice None => inr ("null" ++ newline)
  | VString s =>
      if all_plain s then inr (quote ++ s ++ quote ++ newline)
      else inl "unsupported string"
  | _ => inl "unsupported value"
  end.

(** The text between the quotes of a quoted plain string. *)
Fixpoint unquote (s : string) : option string :=
  match s with
  | EmptyString => None
  | String c s' =>
      if String.eqb s (quote ++ newline) then Some ""
      else if plain c then String c <$> unquote s' else None
  end.

Definition Unmarshal (b : string) : string + Value :=
  if String.eqb b ("null" ++ newline) then inr Null
  else if String.eqb b ("true" ++ newline) then inr (Bool true)
  else if String.eqb b ("false" ++ newline) then inr (Bool false)
  else
    match b with
    | String c b' =>
        if Ascii.eqb c (ascii_of_nat 34) then
          match unquote b' with
          | Some s => inr (Str s)
          | None => inl "invalid character"
          end
        else inl "invalid character"
    | EmptyString => inl "unexpected end of JSON input"
    end.

Definition Marshal (v : Value) : string + string :=
  match v with
  | Null => inr "null"
  | Bool true => inr "true"
  | Bool false => inr "false"
  | Str s =>
      if all_plain s then inr (quote ++ s ++ quote) else inl "unsupported string"
  | _ => inl "unsupported value"
  end.

Definition MarshalIndent (v : Value) (indent : string) : string + string :=
  Marshal v.

(** x86-64 yields the most negative integer where the value cannot be
    represented. *)
Definition unrepresentable (k : IntKind) (v : spec_float) : Z := Strconv.minInt.

End SampleCodec.

(** The documents [{"a": [null, null], "b": true}] and
    [{"p": {"a": [null, null], "b": true}}]. *)
Definition sample_inner : gmap string Value :=
  <["a" := Array [Null; Null]]> (<["b" := Bool true]> ∅).

Definition sample_nested : JSON :=
  {| intf := Object (<["p" := Object sample_inner]> ∅) |}.

(** The document [{"a": true}]. *)
Definition sample_flag : JSON := {| intf := Object (<["a" := Bool true]> ∅) |}.

(** The document [{"p": {"name": "X", "extra": "Y"}}]. *)
Definition sample_person : JSON :=
  {| intf := Object (<["p" := Object (<["name" := Str "X"]> (<["extra" := Str "Y"]> ∅))]> ∅) |}.

(** The documents [{"a": 1}], [{"a": [[1]]}] and [{"a": {"b": {"c": true}}}]. *)
Definition sample_number : JSON :=
  {| intf := Object (<["a" := Number (F64.of_int 1)]> ∅) |}.

Definition sample_rows : JSON :=
  {| intf := Object (<["a" := Array [Array [Number (F64.of_int 1)]]]> ∅) |}.

Definition sample_deep : JSON :=
  {| intf := Object (<["a" := Object (<["b" := Object (<["c" := Bool true]> ∅)]> ∅)]> ∅) |}.

(** [{"planets": [{"name": "Saturn", "moons": 62},
                  {"name": "Uranus", "moons": 27}]}]. *)
Definition planets : JSON :=
  {| intf := Object (<["planets" :=
       Array [Object (<["name" := Str "Saturn"]> (<["moons" := Number (F64.of_int 62)]> ∅));
              Object (<["name" := Str "Uranus"]> (<["moons" := Number (F64.of_int 27)]> ∅))]]> ∅) |}.

(** The struct types [struct{ Name string }] and
    [struct{ Name string `json:"name"` }]. *)
Definition person : GoType :=
  TStruct [({| Name := "Name"; Tag := ""; Exported := true |}, TBasic KString false)].

Definition tagged_person : GoType :=
  TStruct [({| Name := "Name"; Tag := "name"; Exported := true |}, TBasic KString false)].

Definition float64s : GoType := TSlice (TBasic KFloat64 false).

Definition outer_struct : GoType :=
  TStruct [({| Name := "B"; Tag := "b"; Exported := true |},
            TStruct [({| Name := "C"; Tag := "c"; Exported := true |},
                      TBasic KBool false)])].

(** The struct type
    [struct{ Name string `json:"name"`; Age int `json:"age"` }]. *)
Definition named_person : GoType :=
  TStruct [({| Name := "Name"; Tag := "name"; Exported := true |}, TBasic KString false);
           ({| Name := "Age"; Tag := "age"; Exported := true |},
            TBasic (KInteger Int) false)].

(** * Properties *)

(** ** Strings *)

Lemma occurs_app c s t : occurs c (s ++ t) = occurs c s || occurs c t.
Proof.
  induction s as [|d s IH]; simpl; [reflexivity|].
  rewrite IH. apply orb_assoc.
Qed.

Lemma append_assoc s t u : (s ++ t) ++ u = s ++ t ++ u.
Proof. induction s; simpl; congruence. Qed.

Lemma length_app s t : String.length (s ++ t) = (String.length s + String.length t)%nat.
Proof. induction s; simpl; congruence. Qed.

Lemma Split_nonempty s sep : GoStrings.Split s sep <> [].
Proof.
  induction s as [|c s IH]; simpl; [discriminate|].
  destruct (Ascii.eqb c sep); [discriminate|].
  destruct (GoStrings.Split s sep); discriminate.
Qed.

Lemma Split_absent s sep : occurs sep s = false -> GoStrings.Split s sep = [s].
Proof.
  induction s as [|c s IH]; simpl; [reflexivity|].
  intros H. apply orb_false_iff in H as [Hc Hs].
  rewrite Hc, (IH Hs). reflexivity.
Qed.

Lemma Split_app s t sep :
  GoStrings.Split (s ++ String sep t) sep
  = (GoStrings.Split s sep ++ GoStrings.Split t sep)%list.
Proof.
  induction s as [|c s IH]; simpl.
  - rewrite Ascii.eqb_refl. reflexivity.
  - destruct (Ascii.eqb c sep); rewrite IH; [reflexivity|].
    pose proof (Split_nonempty s sep) as Hne.
    destruct (GoStrings.Split s sep); [contradiction|reflexivity].
Qed.

Lemma LastIndex_lower s c : -1 <= GoStrings.LastIndex s c.
Proof.
  induction s as [|d s IH]; simpl; [lia|].
  destruct (0 <=? GoStrings.LastIndex s c) eqn:E.
  - apply Z.leb_le in E. lia.
  - destruct (Ascii.eqb d c); lia.
Qed.

Lemma LastIndex_upper s c : GoStrings.LastIndex s c < GoStrings.len s.
Proof.
  unfold GoStrings.len.
  induction s as [|d s IH]; simpl String.length; simpl GoStrings.LastIndex; [lia|].
  destruct (0 <=? GoStrings.LastIndex s c) eqn:E.
  - lia.
  - destruct (Ascii.eqb d c); lia.
Qed.

Lemma LastIndex_absent s c : occurs c s = false -> GoStrings.LastIndex s c = -1.
Proof.
  induction s as [|d s IH]; simpl; [reflexivity|].
  intros H. apply orb_false_iff in H as [Hd Hs].
  rewrite (IH Hs), Hd. reflexivity.
Qed.

Lemma LastIndex_present s c : occurs c s = true -> 0 <= GoStrings.LastIndex s c.
Proof.
  induction s as [|d s IH]; simpl; [discriminate|].
  intros H. destruct (0 <=? GoStrings.LastIndex s c) eqn:E.
  - apply Z.leb_le in E. lia.
  - destruct (Ascii.eqb d c); [lia|].
    simpl in H. apply IH in H. apply Z.leb_gt in E. lia.
Qed.

Lemma LastIndex_app s t c :
  GoStrings.LastIndex (s ++ t) c
  = if 0 <=? GoStrings.LastIndex t c
    then GoStrings.len s + GoStrings.LastIndex t c
    else GoStrings.LastIndex s c.
Proof.
  unfold GoStrings.len.
  induction s as [|d s IH].
  - simpl. destruct (0 <=? GoStrings.LastIndex t c) eqn:E; [reflexivity|].
    apply Z.leb_gt in E. pose proof (LastIndex_lower t c). lia.
  - change (String d s ++ t) with (String d (s ++ t)).
    simpl GoStrings.LastIndex. rewrite IH.
    destruct (0 <=? GoStrings.LastIndex t c) eqn:E.
    + apply Z.leb_le in E.
      replace (0 <=? Z.of_nat (String.length s) + GoStrings.LastIndex t c) with true
        by (symmetry; apply Z.leb_le; lia).
      simpl String.length. lia.
    + reflexivity.
Qed.

Lemma slice_prefix s t : GoStrings.slice (s ++ t) 0 (GoStrings.len s) = s.
Proof.
  unfold GoStrings.slice, GoStrings.len.
  rewrite Z.sub_0_r, Nat2Z.id. change (Z.to_nat 0) with O.
  induction s as [|d s IH]; simpl.
  - destruct t; reflexivity.
  - rewrite IH. reflexivity.
Qed.

Lemma slice_middle s t u :
  GoStrings.slice (s ++ t ++ u) (GoStrings.len s) (GoStrings.len s + GoStrings.len t) = t.
Proof.
  unfold GoStrings.slice, GoStrings.len.
  replace (Z.of_nat (String.length s) + Z.of_nat (String.length t) - Z.of_nat (String.length s))
    with (Z.of_nat (String.length t)) by lia.
  rewrite !Nat2Z.id.
  induction s as [|d s IH]; simpl.
  - clear. induction t as [|d t IH]; simpl.
    + destruct u; reflexivity.
    + rewrite IH. reflexivity.
  - exact IH.
Qed.

Lemma digits_bytes s : forall acc r c,
  Strconv.digits s acc = Some r -> Strconv.digit c = None -> occurs c s = false.
Proof.
  induction s as [|d s IH]; intros acc r c H Hc; simpl; [reflexivity|].
  simpl in H. destruct (Strconv.digit d) as [v|] eqn:Hd; [|discriminate].
  rewrite (IH _ _ _ H Hc), orb_false_r.
  apply Ascii.eqb_neq. intros ->. congruence.
Qed.

(** The text that [strconv.Atoi] accepts consists of signs and digits. *)
Lemma Atoi_bytes s i c :
  Strconv.Atoi s = Some i ->
  Strconv.digit c = None -> c <> "+"%char -> c <> "-"%char ->
  occurs c s = false.
Proof.
  unfold Strconv.Atoi. intros H Hc Hplus Hminus.
  assert (Hbody : forall neg body,
    match body with
    | EmptyString => None
    | _ => match Strconv.digits body 0 with
           | None => None
           | Some n =>
               let v := if neg : bool then - n else n in
               if (Strconv.minInt <=? v) && (v <=? Strconv.maxInt) then Some v else None
           end
    end = Some i -> occurs c body = false).
  { intros neg body Hb. destruct body as [|d body]; [reflexivity|].
    destruct (Strconv.digits (String d body) 0) as [n|] eqn:Hn; [|discriminate].
    exact (digits_bytes _ _ _ _ Hn Hc). }
  destruct s as [|d s]; [discriminate|].
  destruct (Ascii.eqb d "+") eqn:E1.
  - apply Ascii.eqb_eq in E1. subst d. cbn [occurs].
    rewrite (Hbody false _ H), orb_false_r. apply Ascii.eqb_neq. congruence.
  - destruct (Ascii.eqb d "-") eqn:E2.
    + apply Ascii.eqb_eq in E2. subst d. cbn [occurs].
      rewrite (Hbody true _ H), orb_false_r. apply Ascii.eqb_neq. congruence.
    + exact (Hbody false (String d s) H).
Qed.

Lemma LastIndex_head t c : occurs c t = false -> GoStrings.LastIndex (String c t) c = 0.
Proof.
  intros H. cbn [GoStrings.LastIndex]. rewrite (LastIndex_absent t c H).
  rewrite Ascii.eqb_refl. reflexivity.
Qed.

(** ** Parsing one segment *)

(** A segment [f[n]junk]: the bracket text is what lies between the last
    [[] and the last []], the field is what precedes the last [[]. *)
Lemma parse_key_bracket f n junk :
  occurs "[" n = false ->
  occurs "[" junk = false -> occurs "]" junk = false ->
  parse_key (f ++ "[" ++ n ++ "]" ++ junk)
  = match Strconv.Atoi n with
    | Some i => Some (f, i)
    | None => None
    end.
Proof.
  intros Hn Hj1 Hj2. unfold parse_key.
  assert (Ha : GoStrings.LastIndex (f ++ "[" ++ n ++ "]" ++ junk) "[" = GoStrings.len f).
  { rewrite LastIndex_app.
    change ("[" ++ n ++ "]" ++ junk) with (String "[" (n ++ "]" ++ junk)).
    rewrite LastIndex_head.
    - simpl. lia.
    - rewrite !occurs_app, Hn, Hj1. reflexivity. }
  assert (Hb : GoStrings.LastIndex (f ++ "[" ++ n ++ "]" ++ junk) "]"
               = GoStrings.len f + 1 + GoStrings.len n).
  { replace (f ++ "[" ++ n ++ "]" ++ junk) with ((f ++ "[" ++ n) ++ "]" ++ junk)
      by (rewrite !append_assoc; reflexivity).
    rewrite LastIndex_app.
    change ("]" ++ junk) with (String "]" junk).
    rewrite (LastIndex_head junk "]" Hj2). simpl.
    unfold GoStrings.len. rewrite !length_app. simpl String.length. lia. }
  rewrite Ha, Hb.
  replace (0 <=? GoStrings.len f) with true
    by (symmetry; apply Z.leb_le; unfold GoStrings.len; lia).
  replace (GoStrings.len f + 1 + GoStrings.len n <=? GoStrings.len f) with false
    by (symmetry; apply Z.leb_gt; unfold GoStrings.len; lia).
  rewrite slice_prefix.
  replace (f ++ "[" ++ n ++ "]" ++ junk) with ((f ++ "[") ++ n ++ "]" ++ junk)
    by (rewrite !append_assoc; reflexivity).
  replace (GoStrings.len f + 1) with (GoStrings.len (f ++ "["))
    by (unfold GoStrings.len; rewrite length_app; simpl String.length; lia).
  rewrite slice_middle. reflexivity.
Qed.

(** A segment without [[] is a field name, brackets or not. *)
Lemma parse_key_plain keyv :
  occurs "[" keyv = false -> parse_key keyv = Some (keyv, -1).
Proof.
  intros H. unfold parse_key. rewrite (LastIndex_absent _ _ H). reflexivity.
Qed.

(** ** Paths as lists of segments *)

Lemma join_app l1 l2 :
  l1 <> [] -> l2 <> [] -> join (l1 ++ l2) = join l1 ++ "." ++ join l2.
Proof.
  intros H1 H2. induction l1 as [|x l1 IH]; [contradiction|].
  destruct l1 as [|y l1].
  - destruct l2; [contradiction|reflexivity].
  - change (join ((x :: y :: l1) ++ l2)) with (x ++ "." ++ join ((y :: l1) ++ l2)).
    rewrite IH by discriminate.
    change (join (x :: y :: l1)) with (x ++ "." ++ join (y :: l1)).
    rewrite !append_assoc. reflexivity.
Qed.

Lemma keys_of_app l1 l2 : keys_of (l1 ++ l2) = (keys_of l1 ++ keys_of l2)%list.
Proof.
  destruct l1 as [|x l1]; [reflexivity|].
  destruct l2 as [|y l2].
  - rewrite !app_nil_r. reflexivity.
  - unfold keys_of at 1. simpl app.
    change (x :: (l1 ++ y :: l2))%list with ((x :: l1) ++ (y :: l2))%list.
    rewrite join_app by discriminate.
    change ("." ++ join (y :: l2)) with (String "." (join (y :: l2))).
    rewrite Split_app. reflexivity.
Qed.

Lemma keys_of_single s : occurs "." s = false -> keys_of [s] = [s].
Proof. intros H. exact (Split_absent s "." H). Qed.

Lemma not_empty_eqb s : s <> "" -> String.eqb s "" = false.
Proof. intros H. apply String.eqb_neq. exact H. Qed.

(** ** The loop of [find] *)

(** Before the last key, write mode and read mode take the same step. *)
Lemma walk_key_inner parent last cur keyv i :
  walk_key parent false cur keyv i = walk_key false last cur keyv i.
Proof. unfold walk_key. rewrite !andb_false_r. reflexivity. Qed.

Lemma find_step_inner parent last cur keyv :
  find_step parent false cur keyv = find_step false last cur keyv.
Proof.
  unfold find_step. destruct (parse_key keyv) as [[f i]|]; [|reflexivity].
  apply walk_key_inner.
Qed.

Lemma find_loop_single parent keyv cur :
  find_loop parent [keyv] cur = find_step parent true cur keyv.
Proof.
  simpl. destruct (find_step parent true cur keyv) as [e|[k c]]; reflexivity.
Qed.

(** The keys before the last one are walked as a read walks them. *)
Lemma find_loop_app parent ks keyv rest cur :
  find_loop parent (ks ++ keyv :: rest) cur
  = match find_loop false ks cur with
    | inl e => inl e
    | inr (_, cur') => find_loop parent (keyv :: rest) cur'
    end.
Proof.
  revert cur. induction ks as [|k ks IH]; intros cur; [reflexivity|].
  change ((k :: ks) ++ keyv :: rest)%list with (k :: (ks ++ keyv :: rest))%list.
  cbn [find_loop].
  replace (match (ks ++ keyv :: rest)%list with [] => true | _ :: _ => false end)
    with false by (destruct ks; reflexivity).
  rewrite (find_step_inner parent (match ks with [] => true | _ :: _ => false end)).
  destruct (find_step false _ cur k) as [e|[key cur']]; [reflexivity|].
  destruct ks as [|k' ks]; [reflexivity|].
  apply IH.
Qed.

(** [find] depends on a segment through [parse_key] only. *)
Lemma find_loop_parse parent ks s s' rest cur :
  parse_key s = parse_key s' ->
  find_loop parent (ks ++ s :: rest) cur = find_loop parent (ks ++ s' :: rest) cur.
Proof.
  intros H. rewrite !find_loop_app.
  destruct (find_loop false ks cur) as [e|[k cur']]; [reflexivity|].
  cbn [find_loop]. unfold find_step. rewrite H. reflexivity.
Qed.

Lemma existsb_empty_app (l1 l2 : list string) :
  existsb (fun v => String.eqb v "") (l1 ++ l2)
  = existsb (fun v => String.eqb v "") l1 || existsb (fun v => String.eqb v "") l2.
Proof. apply existsb_app. Qed.

(** Resolving a path whose last segment is [seg]: the last iteration of
    the loop, taken from where the prefix arrives. *)
Lemma find_last j pre seg parent cur :
  reach j pre = Some cur ->
  seg <> "" -> occurs "." seg = false ->
  find j (join (pre ++ [seg])) parent = find_step parent true cur seg.
Proof.
  intros Hreach Hne Hdot.
  assert (Hkeys : GoStrings.Split (join (pre ++ [seg])) "." = (keys_of pre ++ [seg])%list).
  { transitivity (keys_of (pre ++ [seg])); [destruct pre; reflexivity|].
    rewrite keys_of_app, (keys_of_single _ Hdot). reflexivity. }
  unfold find. rewrite Hkeys.
  replace (length (keys_of pre ++ [seg]) =? 0)%nat with false
    by (symmetry; apply Nat.eqb_neq; rewrite List.length_app; simpl; lia).
  rewrite existsb_empty_app. cbn [existsb]. rewrite (not_empty_eqb _ Hne), !orb_false_r.
  destruct pre as [|p pre].
  - cbn [keys_of app existsb]. inversion Hreach; subst cur.
    apply find_loop_single.
  - cbn [reach] in Hreach. unfold find in Hreach.
    cbn [keys_of].
    destruct (length (GoStrings.Split (join (p :: pre)) ".") =? 0)%nat; [discriminate|].
    destruct (existsb (fun v => String.eqb v "") (GoStrings.Split (join (p :: pre)) "."));
      [discriminate|].
    rewrite find_loop_app.
    destruct (find_loop false _ _) as [e|[k c]]; [discriminate|].
    inversion Hreach; subst c. apply find_loop_single.
Qed.

Lemma reach_loop j pre cur :
  reach j pre = Some cur ->
  existsb (fun v => String.eqb v "") (keys_of pre) = false
  /\ exists key, find_loop false (keys_of pre) {| result := intf j; address := [] |}
                 = inr (key, cur).
Proof.
  destruct pre as [|p pre]; cbn [reach keys_of].
  - intros H. inversion H. split; [reflexivity|]. exists KeyNone. reflexivity.
  - unfold find.
    destruct (length _ =? 0)%nat; [discriminate|].
    destruct (existsb _ _); [discriminate|].
    destruct (find_loop false _ _) as [e|[k c]]; [discriminate|].
    intros H. inversion H; subst c. split; [reflexivity|]. exists k. reflexivity.
Qed.

(** Resolving a path through the segment [seg]: the iteration for
    [seg] is taken from where the prefix arrives, and the loop goes on
    with the rest of the path. *)
Lemma find_at j pre seg post parent cur :
  reach j pre = Some cur ->
  seg <> "" -> occurs "." seg = false ->
  existsb (fun v => String.eqb v "") (keys_of post) = false ->
  find j (join (pre ++ seg :: post)) parent
  = find_loop parent (seg :: keys_of post) cur.
Proof.
  intros Hreach Hne Hdot Hpost.
  destruct (reach_loop j pre cur Hreach) as (Hpre & k & Hloop).
  assert (Hkeys : GoStrings.Split (join (pre ++ seg :: post)) "."
                  = (keys_of pre ++ seg :: keys_of post)%list).
  { transitivity (keys_of (pre ++ [seg] ++ post)); [destruct pre; reflexivity|].
    rewrite !keys_of_app, (keys_of_single _ Hdot). reflexivity. }
  unfold find. rewrite Hkeys.
  replace (length (keys_of pre ++ seg :: keys_of post) =? 0)%nat with false
    by (symmetry; apply Nat.eqb_neq; rewrite List.length_app; simpl; lia).
  rewrite existsb_empty_app. cbn [existsb].
  rewrite Hpre, (not_empty_eqb _ Hne), Hpost. cbn [orb].
  rewrite find_loop_app, Hloop. reflexivity.
Qed.

(** An error of the iteration for [seg] is the error of [find]. *)
Lemma find_error_at j pre seg post parent cur e :
  reach j pre = Some cur ->
  seg <> "" -> occurs "." seg = false ->
  existsb (fun v => String.eqb v "") (keys_of post) = false ->
  (forall last, find_step parent last cur seg = inl e) ->
  find j (join (pre ++ seg :: post)) parent = inl e.
Proof.
  intros Hreach Hne Hdot Hpost Hstep.
  rewrite (find_at j pre seg post parent cur Hreach Hne Hdot Hpost).
  cbn [find_loop]. rewrite Hstep. reflexivity.
Qed.

(** ** Relocation *)

(** A walk that starts at address [a] is the walk from the root of the
    value, moved to [a]. *)
Lemma walk_key_relocate parent last v a keyv i :
  walk_key parent last {| result := v; address := a |} keyv i
  = relocate a (walk_key parent last {| result := v; address := [] |} keyv i).
Proof.
  unfold walk_key. cbn [result address].
  destruct (String.eqb keyv "").
  - destruct v as [| | | |si|]; try reflexivity.
    destruct ((i <? 0) || (Z.of_nat (length si) <=? i)); [reflexivity|].
    destruct (parent && last); [cbn; rewrite app_nil_r; reflexivity|].
    destruct (si !! Z.to_nat i); reflexivity.
  - destruct v as [| | | | |mi]; try reflexivity.
    destruct ((i <? 0) && parent && last); [cbn; rewrite app_nil_r; reflexivity|].
    destruct (mi !! keyv) as [iv|]; [|reflexivity].
    destruct (-1 <? i); [|reflexivity].
    destruct iv as [| | | |sv|]; try reflexivity.
    destruct (Z.of_nat (length sv) <=? i); [reflexivity|].
    destruct (parent && last); [reflexivity|].
    destruct (sv !! Z.to_nat i); [|reflexivity].
    cbn. rewrite <- app_assoc. reflexivity.
Qed.

Lemma relocate_relocate a b r : relocate a (relocate b r) = relocate (a ++ b) r.
Proof. destruct r as [e|[k c]]; cbn; [reflexivity|]. rewrite app_assoc. reflexivity. Qed.

Lemma find_loop_relocate parent keys : forall v a,
  find_loop parent keys {| result := v; address := a |}
  = relocate a (find_loop parent keys {| result := v; address := [] |}).
Proof.
  induction keys as [|k keys IH]; intros v a.
  - cbn. rewrite app_nil_r. reflexivity.
  - cbn [find_loop]. unfold find_step.
    destruct (parse_key k) as [[f i]|]; [|reflexivity].
    rewrite walk_key_relocate.
    destruct (walk_key parent _ {| result := v; address := [] |} f i) as [e|[k1 [v1 d1]]];
      [reflexivity|].
    cbn [relocate result address].
    destruct keys as [|k' keys]; [reflexivity|].
    rewrite (IH v1 (a ++ d1)%list), (IH v1 d1), relocate_relocate. reflexivity.
Qed.

(** The keys of a path, by its segments. *)
Lemma Split_join_at pre s post :
  occurs "." s = false ->
  GoStrings.Split (join (pre ++ s :: post)) "."
  = (keys_of pre ++ s :: keys_of post)%list.
Proof.
  intros Hs. transitivity (keys_of (pre ++ [s] ++ post)); [destruct pre; reflexivity|].
  rewrite !keys_of_app, (keys_of_single _ Hs). reflexivity.
Qed.

(** A path without empty segment, resolved from the root. *)
Lemma find_whole j post parent :
  post <> [] ->
  existsb (fun v => String.eqb v "") (keys_of post) = false ->
  find j (join post) parent
  = find_loop parent (keys_of post) {| result := intf j; address := [] |}.
Proof.
  intros Hpost Hne. unfold find.
  assert (Hk : GoStrings.Split (join post) "." = keys_of post)
    by (destruct post; [contradiction|reflexivity]).
  rewrite Hk, Hne.
  pose proof (Split_nonempty (join post) ".") as Hs. rewrite Hk in Hs.
  destruct (keys_of post); [contradiction|reflexivity].
Qed.

(** A step that is not the last one: the rest of the path is resolved
    in the value that the step arrives at. *)
Lemma find_continues j pre seg post parent cur :
  reach j pre = Some cur ->
  seg <> "" -> occurs "." seg = false ->
  post <> [] ->
  existsb (fun v => String.eqb v "") (keys_of post) = false ->
  find j (join (pre ++ seg :: post)) parent
  = match find_step parent false cur seg with
    | inl e => inl e
    | inr (_, nxt) =>
        relocate (address nxt) (find {| intf := result nxt |} (join post) parent)
    end.
Proof.
  intros Hreach Hne Hdot Hpost Hempty.
  rewrite (find_at j pre seg post parent cur Hreach Hne Hdot Hempty).
  assert (Hrest : forall v, find {| intf := v |} (join post) parent
                            = find_loop parent (keys_of post) {| result := v; address := [] |})
    by (intros v; exact (find_whole {| intf := v |} post parent Hpost Hempty)).
  cbn [find_loop].
  pose proof (Split_nonempty (join post) ".") as Hs.
  assert (Hk : GoStrings.Split (join post) "." = keys_of post)
    by (destruct post; [contradiction|reflexivity]).
  rewrite Hk in Hs.
  destruct (keys_of post) as [|q qs]; [contradiction|].
  destruct (find_step parent false cur seg) as [e|[key [v a]]]; [reflexivity|].
  cbn [result address]. rewrite Hrest.
  apply find_loop_relocate.
Qed.

(** ** Segments with brackets *)

(** C10.  In a segment [f[n]junk], where [[] and []] are the last ones of
    the segment, the field is the text [f] before the last [[], the
    index is the text [n] between the brackets and the text [junk]
    after the closing bracket is discarded: in either mode and for
    every document the path resolves as the one with the segment
    [f[n]] does, to the element [n] of the array under [f] (of the
    array itself when [f] is empty) when there is one.  A segment
    without [[] is a field name as it stands, closing brackets
    included, wherever it is in the path: a read looks that field up,
    a write locates it, and the rest of the path is resolved in the
    value of the field. *)
Theorem C10_text_after_bracket_is_discarded
  (j : JSON) (parent : bool) (pre post : list string) (f n junk : string) :
  occurs "[" n = false ->
  occurs "[" junk = false -> occurs "]" junk = false ->
  occurs "." f = false -> occurs "." n = false -> occurs "." junk = false ->
  parse_key (f ++ "[" ++ n ++ "]" ++ junk)
  = match Strconv.Atoi n with
    | Some i => Some (f, i)
    | None => None
    end
  /\ find j (join (pre ++ (f ++ "[" ++ n ++ "]" ++ junk) :: post)) parent
     = find j (join (pre ++ (f ++ "[" ++ n ++ "]") :: post)) parent
  /\ (forall (cur : Cursor) (i : Z) (l : list Value) (x : Value),
        reach j pre = Some cur ->
        Strconv.Atoi n = Some i -> 0 <= i -> l !! Z.to_nat i = Some x ->
        match result cur with
        | Array si => f = "" /\ si = l
        | Object mi => f <> "" /\ mi !! f = Some (Array l)
        | _ => False
        end ->
        let here := (address cur ++ if String.eqb f "" then [] else [ByField f])%list in
        find j (join (pre ++ [f ++ "[" ++ n ++ "]" ++ junk])) false
        = inr (KeyNone, {| result := x;
                           address := (here ++ [ByIndex (Z.to_nat i)])%list |})
        /\ find j (join (pre ++ [f ++ "[" ++ n ++ "]" ++ junk])) true
           = inr (KeyIndex i, {| result := Array l; address := here |})
        /\ (post <> [] ->
            existsb (fun v => String.eqb v "") (keys_of post) = false ->
            find j (join (pre ++ (f ++ "[" ++ n ++ "]" ++ junk) :: post)) parent
            = relocate (here ++ [ByIndex (Z.to_nat i)])
                (find {| intf := x |} (join post) parent)))
  /\ (forall (s : string) (cur : Cursor),
        s <> "" -> occurs "[" s = false -> occurs "." s = false ->
        reach j pre = Some cur ->
        parse_key s = Some (s, -1)
        /\ find j (join (pre ++ [s])) parent
           = match result cur with
             | Object mi =>
                 if parent then inr (KeyField s, cur)
                 else
                   match mi !! s with
                   | Some iv =>
                       inr (KeyNone,
                            {| result := iv;
                               address := (address cur ++ [ByField s])%list |})
                   | None => inl ErrNotFound
                   end
             | _ => inl ErrNotFound
             end
        /\ (post <> [] ->
            existsb (fun v => String.eqb v "") (keys_of post) = false ->
            find j (join (pre ++ s :: post)) parent
            = match result cur with
              | Object mi =>
                  match mi !! s with
                  | Some iv =>
                      relocate (address cur ++ [ByField s])
                        (find {| intf := iv |} (join post) parent)
                  | None => inl ErrNotFound
                  end
              | _ => inl ErrNotFound
              end)).
Proof.
  intros Hn Hj1 Hj2 Hdf Hdn Hdj.
  set (s1 := f ++ "[" ++ n ++ "]" ++ junk).
  assert (Hparse : parse_key s1
                   = match Strconv.Atoi n with Some i => Some (f, i) | None => None end)
    by exact (parse_key_bracket f n junk Hn Hj1 Hj2).
  assert (Hd1 : occurs "." s1 = false).
  { unfold s1. rewrite !occurs_app, Hdf, Hdn, Hdj. reflexivity. }
  assert (Hne1 : s1 <> "") by (unfold s1; destruct f; discriminate).
  split; [exact Hparse|]. split; [|split].
  - set (s2 := f ++ "[" ++ n ++ "]").
    assert (Hparse2 : parse_key s1 = parse_key s2).
    { rewrite Hparse. unfold s2.
      pose proof (parse_key_bracket f n "" Hn eq_refl eq_refl) as H2.
      change (f ++ "[" ++ n ++ "]" ++ "") with (f ++ "[" ++ n ++ "]") in H2.
      rewrite H2. reflexivity. }
    assert (Hd2 : occurs "." s2 = false).
    { unfold s2. rewrite !occurs_app, Hdf, Hdn. reflexivity. }
    assert (Hk : forall s, occurs "." s = false ->
              GoStrings.Split (join (pre ++ s :: post)) "."
              = (keys_of pre ++ s :: keys_of post)%list).
    { intros s Hs. transitivity (keys_of (pre ++ [s] ++ post)).
      - destruct pre; reflexivity.
      - rewrite !keys_of_app, (keys_of_single _ Hs). reflexivity. }
    assert (He : forall s, String.eqb (f ++ "[" ++ s) "" = false).
    { intros s. destruct f; reflexivity. }
    unfold find. rewrite (Hk s1 Hd1), (Hk s2 Hd2).
    rewrite !List.length_app. cbn [length].
    rewrite !existsb_empty_app. cbn [existsb].
    unfold s1 at 1, s2 at 1. rewrite !He.
    rewrite (find_loop_parse parent (keys_of pre) s1 s2 (keys_of post) _ Hparse2).
    reflexivity.
  - intros cur i l x Hreach Hi Hi0 Hx Hres here.
    assert (Hlen : (i <? 0) = false /\ (Z.of_nat (length l) <=? i) = false
                   /\ (-1 <? i) = true).
    { apply lookup_lt_Some in Hx. repeat split.
      - apply Z.ltb_ge. lia.
      - apply Z.leb_gt. lia.
      - apply Z.ltb_lt. lia. }
    destruct Hlen as (H1 & H2 & H3).
    rewrite Hi in Hparse.
    assert (Hstep : forall p last,
              find_step p last cur s1
              = if p && last then inr (KeyIndex i, {| result := Array l; address := here |})
                else inr (KeyNone, {| result := x;
                                      address := (here ++ [ByIndex (Z.to_nat i)])%list |})).
    { intros p last. unfold find_step. rewrite Hparse. unfold walk_key, here.
      destruct cur as [v a]. cbn [result address] in *.
      destruct v as [| | | |si|mi]; try contradiction.
      - destruct Hres as [-> ->]. cbn [String.eqb]. rewrite H1, H2, Hx. cbn [orb].
        rewrite app_nil_r. destruct (p && last); reflexivity.
      - destruct Hres as [Hf Hget]. rewrite (not_empty_eqb f Hf), Hget, H1, H2, H3, Hx.
        cbn [andb]. destruct (p && last); reflexivity. }
    split; [|split].
    + rewrite (find_last j pre s1 false cur Hreach Hne1 Hd1). apply (Hstep false true).
    + rewrite (find_last j pre s1 true cur Hreach Hne1 Hd1). apply (Hstep true true).
    + intros Hpost Hempty.
      rewrite (find_continues j pre s1 post parent cur Hreach Hne1 Hd1 Hpost Hempty).
      rewrite (Hstep parent false), andb_false_r. reflexivity.
  - intros s cur Hne Hb Hd Hreach.
    split; [exact (parse_key_plain s Hb)|]. split.
    + rewrite (find_last j pre s parent cur Hreach Hne Hd).
      unfold find_step. rewrite (parse_key_plain s Hb).
      unfold walk_key. rewrite (not_empty_eqb s Hne).
      destruct (result cur), parent; reflexivity.
    + intros Hpost Hempty.
      rewrite (find_continues j pre s post parent cur Hreach Hne Hd Hpost Hempty).
      unfold find_step. rewrite (parse_key_plain s Hb).
      unfold walk_key. rewrite (not_empty_eqb s Hne), andb_false_r.
      destruct (result cur) as [| | | | |mi]; try reflexivity.
      destruct (mi !! s); reflexivity.
Qed.

(** An instance of C10: the segment [a[1]extra], last and in the middle
    of a path. *)
Lemma C10_witness :
  occurs "[" "1" = false
  /\ find {| intf := Object (<["a" := Array [Null; Object (<["b" := Bool true]> ∅)]]> ∅) |}
          "a[1]extra.b" false
     = find {| intf := Object (<["a" := Array [Null; Object (<["b" := Bool true]> ∅)]]> ∅) |}
          "a[1].b" false
  /\ find {| intf := Object (<["a" := Array [Null; Object (<["b" := Bool true]> ∅)]]> ∅) |}
          "a[1]extra" false
     = inr (KeyNone, {| result := Object (<["b" := Bool true]> ∅);
                        address := [ByField "a"; ByIndex 1] |}).
Proof.
  split; [reflexivity|].
  pose proof (C10_text_after_bracket_is_discarded
    {| intf := Object (<["a" := Array [Null; Object (<["b" := Bool true]> ∅)]]> ∅) |}
    false [] ["b"] "a" "1" "extra"
    eq_refl eq_refl eq_refl eq_refl eq_refl eq_refl) as (_ & Hsame & Hres & _).
  split; [exact Hsame|].
  refine (proj1 (Hres {| result := Object (<["a" := Array [Null; Object (<["b" := Bool true]> ∅)]]> ∅);
                         address := [] |} 1
                   [Null; Object (<["b" := Bool true]> ∅)] (Object (<["b" := Bool true]> ∅))
                   eq_refl eq_refl _ eq_refl _)).
  - lia.
  - split; [discriminate|reflexivity].
Defined.

(** ** Index steps *)

Lemma Atoi_no_bracket n i :
  Strconv.Atoi n = Some i ->
  occurs "[" n = false /\ occurs "]" n = false /\ occurs "." n = false.
Proof.
  intros H. repeat split; apply (Atoi_bytes n i _ H); (reflexivity || discriminate).
Qed.

Lemma parse_key_index f n i :
  Strconv.Atoi n = Some i -> parse_key (f ++ "[" ++ n ++ "]") = Some (f, i).
Proof.
  intros H. destruct (Atoi_no_bracket n i H) as (Hb & _ & _).
  pose proof (parse_key_bracket f n "" Hb eq_refl eq_refl) as Hp.
  change (f ++ "[" ++ n ++ "]" ++ "") with (f ++ "[" ++ n ++ "]") in Hp.
  rewrite Hp, H. reflexivity.
Qed.



(** ** Malformed paths *)

(** A segment that does not parse is ErrInvalidPath wherever the walk
    meets it. *)
Lemma find_unparsed j pre seg post parent cur :
  reach j pre = Some cur ->
  occurs "." seg = false -> parse_key seg = None ->
  find j (join (pre ++ seg :: post)) parent = inl ErrInvalidPath.
Proof.
  intros Hreach Hdot Hparse.
  destruct (reach_loop j pre cur Hreach) as (_ & k & Hloop).
  unfold find. rewrite (Split_join_at pre seg post Hdot).
  destruct (length (keys_of pre ++ seg :: keys_of post) =? 0)%nat; [reflexivity|].
  destruct (existsb (fun v => String.eqb v "") (keys_of pre ++ seg :: keys_of post));
    [reflexivity|].
  rewrite find_loop_app, Hloop. cbn [find_loop]. unfold find_step. rewrite Hparse.
  reflexivity.
Qed.

(** C3.  The empty path, ["."], ["a..b"] and ["a[x]"] are rejected with
    ErrInvalidPath by [Get], [Set] and [Len], and so is, after any
    prefix that resolves, a segment whose last []] does not follow its
    last [[] or whose text between them [strconv.Atoi] refuses; nothing
    is written.  But a signed index and text after the closing bracket
    are accepted: a negative index after a field name is ignored and
    the path resolves to the field, text after []] is discarded and the
    path resolves to the element, [+1] is the index 1, and a negative
    index applied to an array by a segment without field is
    ErrOutOfRange.  So ["a[-1]"] and ["[1]extra"] resolve, and a
    bracket that does not parse behind a field that is missing is
    ErrNotFound. *)
Theorem C3_signed_index_and_trailing_text_are_accepted
  (unrepresentable : IntKind -> spec_float -> Z)
  (CodecError : Type)
  (json_Unmarshal : string -> CodecError + Value)
  (json_Encode : GoType -> GoVal -> CodecError + string)
  (j : JSON) :
  (forall (path : string) (out : OutArg) (t : GoType) (x : GoVal),
     In path [""; "."; "a..b"; "a[x]"] ->
     is_pointer out = true ->
     Get unrepresentable j path out = (Failed ErrInvalidPath, out)
     /\ Set_ CodecError json_Unmarshal json_Encode j path (InValue t x)
        = (Failed (OfPackage ErrInvalidPath), j)
     /\ Len j path = (-1, Some ErrInvalidPath))
  /\ (forall (pre : list string) (cur : Cursor) (seg : string) (post : list string)
            (parent : bool),
        reach j pre = Some cur ->
        occurs "." seg = false ->
        0 <= GoStrings.LastIndex seg "[" ->
        GoStrings.LastIndex seg "]" <= GoStrings.LastIndex seg "["
        \/ Strconv.Atoi (GoStrings.slice seg (GoStrings.LastIndex seg "[" + 1)
                                          (GoStrings.LastIndex seg "]")) = None ->
        find j (join (pre ++ seg :: post)) parent = inl ErrInvalidPath)
  /\ (forall (pre : list string) (cur : Cursor) (mi : gmap string Value)
            (f n : string) (i : Z) (v : Value),
        reach j pre = Some cur ->
        result cur = Object mi -> mi !! f = Some v ->
        f <> "" -> occurs "." f = false ->
        Strconv.Atoi n = Some i -> i < 0 ->
        find j (join (pre ++ [f ++ "[" ++ n ++ "]"])) false
        = inr (KeyNone, {| result := v; address := (address cur ++ [ByField f])%list |})
        /\ find j (join (pre ++ [f ++ "[" ++ n ++ "]"])) true = inr (KeyField f, cur))
  /\ (forall (pre : list string) (cur : Cursor) (l : list Value)
            (n junk : string) (i : Z) (x : Value),
        reach j pre = Some cur ->
        result cur = Array l ->
        Strconv.Atoi n = Some i -> 0 <= i -> l !! Z.to_nat i = Some x ->
        occurs "[" junk = false -> occurs "]" junk = false -> occurs "." junk = false ->
        find j (join (pre ++ ["[" ++ n ++ "]" ++ junk])) false
        = inr (KeyNone, {| result := x;
                           address := (address cur ++ [ByIndex (Z.to_nat i)])%list |}))
  /\ (forall (pre : list string) (cur : Cursor) (l : list Value)
            (n : string) (i : Z) (post : list string) (parent : bool),
        reach j pre = Some cur ->
        result cur = Array l ->
        Strconv.Atoi n = Some i -> i < 0 ->
        existsb (fun v => String.eqb v "") (keys_of post) = false ->
        find j (join (pre ++ ("[" ++ n ++ "]") :: post)) parent = inl ErrOutOfRange)
  /\ Strconv.Atoi "+1" = Some 1
  /\ Strconv.Atoi "-1" = Some (-1)
  /\ Len {| intf := Object sample_inner |} "a[-1]" = (2, None)
  /\ Len {| intf := Array [Null; Array [Null]] |} "[1]extra" = (1, None)
  /\ Len {| intf := Array [Null; Array [Null]] |} "[+1]" = (1, None)
  /\ Get unrepresentable {| intf := Object sample_inner |} "b[-1]"
       (OutPointer (TBasic KBool false) (VBool false))
     = (Ok, OutPointer (TBasic KBool false) (VBool true))
  /\ Len {| intf := Object sample_inner |} "zz.a[x]" = (-1, Some ErrNotFound).
Proof.
  split; [|split; [|split; [|split; [|split; [|repeat split; reflexivity]]]]].
  - intros path out t x Hpath Hout.
    assert (Hfind : forall parent, find j path parent = inl ErrInvalidPath).
    { intros parent. cbn [In] in Hpath.
      destruct Hpath as [<-|[<-|[<-|[<-|[]]]]]; reflexivity. }
    unfold Get, Set_, Len. rewrite !Hfind.
    destruct out; try discriminate; repeat split; reflexivity.
  - intros pre cur seg post parent Hreach Hdot Ha Hbad.
    apply (find_unparsed j pre seg post parent cur Hreach Hdot).
    unfold parse_key.
    replace (0 <=? GoStrings.LastIndex seg "[") with true
      by (symmetry; apply Z.leb_le; exact Ha).
    destruct Hbad as [Hb|Hb].
    + replace (GoStrings.LastIndex seg "]" <=? GoStrings.LastIndex seg "[") with true
        by (symmetry; apply Z.leb_le; exact Hb).
      reflexivity.
    + destruct (GoStrings.LastIndex seg "]" <=? GoStrings.LastIndex seg "["); [reflexivity|].
      rewrite Hb. reflexivity.
  - intros pre cur mi f n i v Hreach Hres Hv Hf Hfd Hn Hi.
    destruct (Atoi_no_bracket n i Hn) as (_ & _ & Hnd).
    assert (Hd : occurs "." (f ++ "[" ++ n ++ "]") = false).
    { rewrite !occurs_app, Hfd, Hnd. reflexivity. }
    assert (He : f ++ "[" ++ n ++ "]" <> "") by (destruct f; discriminate).
    rewrite !(find_last j pre _ _ cur Hreach He Hd).
    unfold find_step. rewrite (parse_key_index f n i Hn).
    unfold walk_key. rewrite (not_empty_eqb f Hf), Hres, Hv.
    replace (i <? 0) with true by (symmetry; apply Z.ltb_lt; lia).
    replace (-1 <? i) with false by (symmetry; apply Z.ltb_ge; lia).
    split; reflexivity.
  - intros pre cur l n junk i x Hreach Hres Hn Hi Hx Hj1 Hj2 Hjd.
    destruct (Atoi_no_bracket n i Hn) as (Hnb & _ & Hnd).
    assert (Hd : occurs "." ("[" ++ n ++ "]" ++ junk) = false).
    { rewrite !occurs_app, Hnd, Hjd. reflexivity. }
    assert (He : "[" ++ n ++ "]" ++ junk <> "") by discriminate.
    rewrite (find_last j pre _ false cur Hreach He Hd).
    unfold find_step.
    rewrite (parse_key_bracket "" n junk Hnb Hj1 Hj2
             : parse_key ("[" ++ n ++ "]" ++ junk) = _), Hn.
    unfold walk_key. cbn [String.eqb andb]. rewrite Hres.
    apply lookup_lt_Some in Hx as Hlt.
    replace (i <? 0) with false by (symmetry; apply Z.ltb_ge; lia).
    replace (Z.of_nat (length l) <=? i) with false by (symmetry; apply Z.leb_gt; lia).
    rewrite Hx. reflexivity.
  - intros pre cur l n i post parent Hreach Hres Hn Hi Hpost.
    destruct (Atoi_no_bracket n i Hn) as (_ & _ & Hnd).
    apply (find_error_at j pre _ post parent cur); try assumption.
    + discriminate.
    + rewrite !occurs_app, Hnd. reflexivity.
    + intros last. unfold find_step.
      rewrite (parse_key_index "" n i Hn : parse_key ("[" ++ n ++ "]") = _).
      unfold walk_key. cbn [String.eqb]. rewrite Hres.
      replace (i <? 0) with true by (symmetry; apply Z.ltb_lt; lia).
      reflexivity.
Qed.

(** An instance of C3: the path [a[-1]] at the object under [p]. *)
Lemma C3_witness :
  reach sample_nested ["p"]
    = Some {| result := Object sample_inner; address := [ByField "p"] |}
  /\ Strconv.Atoi "-1" = Some (-1)
  /\ -1 < 0
  /\ find sample_nested "p.a[-1]" false
     = inr (KeyNone, {| result := Array [Null; Null];
                        address := [ByField "p"; ByField "a"] |}).
Proof.
  split; [reflexivity|]. split; [reflexivity|].
  assert (H : -1 < 0) by lia.
  split; [exact H|].
  refine (proj1 (proj1 (proj2 (proj2
            (C3_signed_index_and_trailing_text_are_accepted
               SampleCodec.unrepresentable string SampleCodec.Unmarshal SampleCodec.Encode
               sample_nested)))
            ["p"] {| result := Object sample_inner; address := [ByField "p"] |}
            sample_inner "a" "-1" (-1) (Array [Null; Null])
            eq_refl eq_refl eq_refl _ eq_refl eq_refl H)).
  discriminate.
Defined.

(** ** The destination of Get *)

(** C7.  A nil [out] and an [out] that is not a pointer are rejected with
    ErrInvalidOut whatever the path; a nil pointer is not: [Get] resolves
    the path and returns nil. *)
Theorem C7_nil_pointer_is_not_rejected
  (unrepresentable : IntKind -> spec_float -> Z) :
  (forall (j : JSON) (path : string),
     Get unrepresentable j path OutNil = (Failed ErrInvalidOut, OutNil))
  /\ (forall (j : JSON) (path : string) (t : GoType) (x : GoVal),
        Get unrepresentable j path (OutValue t x)
        = (Failed ErrInvalidOut, OutValue t x))
  /\ Get unrepresentable sample_flag "a" (OutNilPointer (TBasic KBool false))
     = (Ok, OutNilPointer (TBasic KBool false)).
Proof. repeat split. Qed.

(** ** Struct destinations *)

(** [tags] is never empty, so a field is matched by [tags[0]] alone and
    the comparison with the field name is never made. *)
Lemma match_key_by_tag keys tag name :
  match_key keys (GoStrings.Split tag ",") name
  = List.find (fun key => String.eqb key (hd "" (GoStrings.Split tag ","))) keys.
Proof.
  pose proof (Split_nonempty tag ",") as Hne.
  destruct (GoStrings.Split tag ",") as [|tag0 tags]; [contradiction|].
  induction keys as [|key keys IH]; [reflexivity|].
  cbn [match_key List.find hd]. rewrite IH. reflexivity.
Qed.

(** The key found is [tags[0]] if it is among the keys: the order in
    which [MapKeys] lists the keys does not matter. *)
Lemma match_key_found keys tag name :
  match_key keys (GoStrings.Split tag ",") name
  = if existsb (String.eqb (hd "" (GoStrings.Split tag ","))) keys
    then Some (hd "" (GoStrings.Split tag ","))
    else None.
Proof.
  rewrite match_key_by_tag.
  induction keys as [|key keys IH]; [reflexivity|].
  cbn [List.find existsb]. rewrite IH, (String.eqb_sym key).
  destruct (String.eqb _ key) eqn:E; [|reflexivity].
  apply String.eqb_eq in E. subst key. reflexivity.
Qed.

(** A field without json tag is matched by the empty key only. *)
Lemma match_key_untagged keys name :
  match_key keys (GoStrings.Split "" ",") name
  = List.find (fun key => String.eqb key "") keys.
Proof. apply match_key_by_tag. Qed.

(** C2.  The object [{"name":"X","extra":"Y"}] read into a struct whose
    only field is [Name string]: [Get] returns nil and [Name] is still
    empty, since the field has no json tag; with the tag [json:"name"] the
    field is populated. *)
Theorem C2_untagged_field_is_not_matched
  (unrepresentable : IntKind -> spec_float -> Z) :
  Get unrepresentable sample_person "p" (OutPointer person (zero person))
  = (Ok, OutPointer person (VStruct [VString ""]))
  /\ Get unrepresentable sample_person "p" (OutPointer tagged_person (zero tagged_person))
     = (Ok, OutPointer tagged_person (VStruct [VString "X"])).
Proof. split; vm_compute; reflexivity. Qed.

(** ** Panics *)

(** C1.  [Get] panics, inside reflect, when a number is read into a
    slice, when an array of arrays is read into a slice of slices, when
    an object holding an object is read into a struct holding a struct,
    and when a number is read into a defined integer type; [Set] panics
    when a nil slice is stored into an array. *)
Theorem C1_get_and_set_panic
  (unrepresentable : IntKind -> spec_float -> Z) :
  is_panic (fst (Get unrepresentable sample_number "a"
                   (OutPointer float64s (VSlice None)))) = true
  /\ is_panic (fst (Get unrepresentable sample_rows "a"
                      (OutPointer (TSlice float64s) (VSlice None)))) = true
  /\ is_panic (fst (Get unrepresentable sample_deep "a"
                      (OutPointer outer_struct (zero outer_struct)))) = true
  /\ is_panic (fst (Get unrepresentable sample_number "a"
                      (OutPointer (TBasic (KInteger Int8) true) (VInt 0)))) = true
  /\ is_panic (fst (Set_ string SampleCodec.Unmarshal SampleCodec.Encode
                      sample_rows "a[0]"
                      (InValue (TSlice (TBasic KString false)) (VSlice None)))) = true.
Proof. repeat split; vm_compute; reflexivity. Qed.

(** ** Addresses *)

Lemma read_at_app a b root :
  read_at (a ++ b) root = read_at a root ≫= read_at b.
Proof.
  revert root. induction a as [|h a IH]; intros root; [reflexivity|].
  destruct h as [k|i]; cbn [app read_at];
    destruct root as [| | | |l|m]; try reflexivity.
  - destruct (m !! k) as [c|]; [apply IH|reflexivity].
  - destruct (l !! i) as [c|]; [apply IH|reflexivity].
Qed.

(** Writing back what is there changes nothing. *)
Lemma write_at_same addr v root :
  read_at addr root = Some v -> write_at addr v root = root.
Proof.
  revert root. induction addr as [|h addr IH]; intros root H.
  - cbn in *. congruence.
  - destruct h as [k|i]; cbn [read_at write_at] in *;
      destruct root as [| | | |l|m]; try discriminate.
    + destruct (m !! k) as [c|] eqn:E; [|discriminate].
      cbn in H. rewrite (IH c H). f_equal. apply insert_id. exact E.
    + destruct (l !! i) as [c|] eqn:E; [|discriminate].
      cbn in H. rewrite (IH c H). f_equal. apply list_insert_id. exact E.
Qed.

Lemma walk_key_addressed root parent last cur keyv i key cur' :
  well_addressed root cur ->
  walk_key parent last cur keyv i = inr (key, cur') ->
  well_addressed root cur'.
Proof.
  unfold well_addressed, walk_key. intros Hcur H.
  destruct (String.eqb keyv "").
  - destruct (result cur) as [| | | |si|] eqn:Hres; try discriminate.
    destruct ((i <? 0) || (Z.of_nat (length si) <=? i)); [discriminate|].
    destruct (parent && last); [inversion H; subst; congruence|].
    destruct (si !! Z.to_nat i) as [x|] eqn:Hx; [|discriminate].
    inversion H; subst; cbn [address result].
    rewrite read_at_app, Hcur. cbn. rewrite Hx. reflexivity.
  - destruct (result cur) as [| | | | |mi] eqn:Hres; try discriminate.
    destruct ((i <? 0) && parent && last); [inversion H; subst; congruence|].
    destruct (mi !! keyv) as [iv|] eqn:Hiv; [|discriminate].
    assert (Hhere : read_at (address cur ++ [ByField keyv]) root = Some iv).
    { rewrite read_at_app, Hcur. cbn. rewrite Hiv. reflexivity. }
    destruct (-1 <? i).
    + destruct iv as [| | | |sv|]; try discriminate.
      destruct (Z.of_nat (length sv) <=? i); [discriminate|].
      destruct (parent && last); [inversion H; subst; exact Hhere|].
      destruct (sv !! Z.to_nat i) as [x|] eqn:Hx; [|discriminate].
      inversion H; subst; cbn [address result].
      rewrite read_at_app, Hhere. cbn. rewrite Hx. reflexivity.
    + inversion H; subst. exact Hhere.
Qed.

Lemma find_loop_addressed root parent keys cur key cur' :
  well_addressed root cur ->
  find_loop parent keys cur = inr (key, cur') ->
  well_addressed root cur'.
Proof.
  revert cur. induction keys as [|k keys IH]; intros cur Hcur H.
  - inversion H; subst. exact Hcur.
  - cbn [find_loop] in H. unfold find_step in H.
    destruct (parse_key k) as [[f i]|]; [|discriminate].
    destruct (walk_key parent _ cur f i) as [e|[key1 cur1]] eqn:Hw; [discriminate|].
    pose proof (walk_key_addressed _ _ _ _ _ _ _ _ Hcur Hw) as H1.
    destruct keys as [|k' keys]; [inversion H; subst; exact H1|].
    exact (IH cur1 H1 H).
Qed.

(** On its last key, a write locates what a read returns. *)
Lemma walk_key_locates root cur0 keyv i key cur :
  well_addressed root cur0 ->
  walk_key false true cur0 keyv i = inr (key, cur) ->
  exists key' tgt,
    walk_key true true cur0 keyv i = inr (key', tgt)
    /\ locates tgt key' cur /\ well_addressed root tgt.
Proof.
  unfold walk_key, locates, well_addressed. intros Hcur H. cbn [andb] in *.
  destruct (String.eqb keyv "").
  - destruct (result cur0) as [| | | |si|] eqn:Hres; try discriminate.
    destruct ((i <? 0) || (Z.of_nat (length si) <=? i)) eqn:Hi; [discriminate|].
    destruct (si !! Z.to_nat i) as [x|] eqn:Hx; [|discriminate].
    inversion H; subst. exists (KeyIndex i), cur0. rewrite Hres.
    apply orb_false_iff in Hi as [Hi _]. apply Z.ltb_ge in Hi.
    repeat split; (assumption || congruence).
  - destruct (result cur0) as [| | | | |mi] eqn:Hres; try discriminate.
    rewrite andb_true_r.
    destruct (mi !! keyv) as [iv|] eqn:Hiv; [|destruct (i <? 0); discriminate].
    assert (Hhere : read_at (address cur0 ++ [ByField keyv]) root = Some iv).
    { rewrite read_at_app, Hcur. cbn. rewrite Hiv. reflexivity. }
    destruct (i <? 0) eqn:Hneg.
    + replace (-1 <? i) with false in H
        by (symmetry; apply Z.ltb_ge; apply Z.ltb_lt in Hneg; lia).
      inversion H; subst. exists (KeyField keyv), cur0. rewrite Hres.
      repeat split; (assumption || congruence).
    + replace (-1 <? i) with true in *
        by (symmetry; apply Z.ltb_lt; apply Z.ltb_ge in Hneg; lia).
      destruct iv as [| | | |sv|]; try discriminate.
      destruct (Z.of_nat (length sv) <=? i); [discriminate|].
      destruct (sv !! Z.to_nat i) as [x|] eqn:Hx; [|discriminate].
      inversion H; subst.
      exists (KeyIndex i), {| result := Array sv; address := address cur0 ++ [ByField keyv] |}.
      cbn [result]. apply Z.ltb_ge in Hneg. repeat split; assumption.
Qed.

Lemma find_locates j path key cur :
  find j path false = inr (key, cur) ->
  exists key' tgt,
    find j path true = inr (key', tgt)
    /\ locates tgt key' cur /\ well_addressed (intf j) tgt.
Proof.
  unfold find.
  destruct (length (GoStrings.Split path ".") =? 0)%nat; [discriminate|].
  destruct (existsb _ _); [discriminate|].
  pose proof (Split_nonempty path ".") as Hne.
  destruct (exists_last Hne) as (ks & k & ->).
  change (ks ++ [k])%list with (ks ++ k :: [])%list.
  rewrite !find_loop_app.
  destruct (find_loop false ks _) as [e|[k0 cur0]] eqn:Hpre; [discriminate|].
  assert (H0 : well_addressed (intf j) cur0).
  { apply (find_loop_addressed _ _ _ _ _ _ (eq_refl : well_addressed (intf j)
             {| result := intf j; address := [] |}) Hpre). }
  rewrite !find_loop_single. unfold find_step.
  destruct (parse_key k) as [[f i]|]; [|discriminate].
  apply (walk_key_locates _ _ _ _ _ _ H0).
Qed.

(** ** Set *)

Section SetProperties.

Variable CodecError : Type.
Variable json_Unmarshal : string -> CodecError + Value.
Variable json_Encode : GoType -> GoVal -> CodecError + string.
Variable json_Marshal : Value -> CodecError + string.
Variable json_MarshalIndent : Value -> string -> CodecError + string.

#[local] Abbreviation jset := (Set_ CodecError json_Unmarshal json_Encode).
#[local] Abbreviation jexport := (Export CodecError json_Marshal json_MarshalIndent).

(** C8.  When [Set] returns an error, whichever it is, the document is
    what it was before the call. *)
Theorem C8_failed_set_changes_nothing
  (j : JSON) (path : string) (in_ : InArg) (err : Error CodecError) (j' : JSON) :
  jset j path in_ = (Failed err, j') -> j' = j.
Proof.
  unfold Set_. intros H.
  destruct in_ as [|t x]; [congruence|].
  destruct (find j path true) as [e|[key tgt]]; [congruence|].
  destruct (json_Encode t x) as [e|buff]; [congruence|].
  destruct (json_Unmarshal buff) as [e|ifc]; [congruence|].
  destruct (result tgt), key; try congruence.
  destruct (IsValid (ValueOf ifc)); congruence.
Qed.

(** Storing, where a read of [path] finds [v], a value that the codec
    turns into [v] again leaves the document as it is. *)
Lemma Set_same_value j path key cur t x buff :
  find j path false = inr (key, cur) ->
  result cur <> Null ->
  json_Encode t x = inr buff ->
  json_Unmarshal buff = inr (result cur) ->
  jset j path (InValue t x) = (Ok, j).
Proof.
  intros Hfind Hnn Henc Hdec.
  destruct (find_locates j path key cur Hfind) as (key' & tgt & Hw & Hloc & Haddr).
  unfold Set_. rewrite Hw, Henc, Hdec.
  assert (Hv : ValueOf (result cur) = RConcrete (result cur))
    by (destruct (result cur) eqn:E; first [reflexivity | congruence]).
  unfold locates in Hloc. unfold well_addressed in Haddr.
  destruct j as [root]. cbn [intf] in *.
  destruct (result tgt) as [| | | |si|mi] eqn:Hres; try contradiction;
    destruct key' as [|k|i]; try contradiction.
  - destruct Hloc as [Hi Hx]. rewrite Hv. cbn [IsValid].
    rewrite (list_insert_id _ _ _ Hx), (write_at_same _ _ _ Haddr). reflexivity.
  - rewrite Hv. unfold SetMapIndex. cbn [Interface].
    rewrite (insert_id _ _ _ Hloc), (write_at_same _ _ _ Haddr). reflexivity.
Qed.

(** A value whose encoding decodes to something other than null, set at
    a field of an object, is stored under that field, new or not. *)
Lemma Set_stores_field j pre cur mi k t x buff ifc :
  reach j pre = Some cur ->
  result cur = Object mi ->
  k <> "" -> occurs "." k = false -> occurs "[" k = false ->
  json_Encode t x = inr buff ->
  json_Unmarshal buff = inr ifc -> ifc <> Null ->
  jset j (join (pre ++ [k])) (InValue t x)
  = (Ok, {| intf := write_at (address cur) (Object (<[k := ifc]> mi)) (intf j) |}).
Proof.
  intros Hreach Hres Hne Hdot Hbr Henc Hdec Hnn.
  unfold Set_.
  rewrite (find_last j pre k true cur Hreach Hne Hdot).
  unfold find_step. rewrite (parse_key_plain k Hbr).
  unfold walk_key. rewrite (not_empty_eqb k Hne), Hres. cbn [Z.ltb Z.compare andb].
  rewrite Henc, Hdec, Hres. unfold SetMapIndex.
  destruct ifc; try contradiction; reflexivity.
Qed.

(** A value whose encoding decodes to null, set at a field of an object:
    the field is deleted, or stays absent. *)
Lemma Set_null_deletes_field j pre cur mi k t x buff :
  reach j pre = Some cur ->
  result cur = Object mi ->
  k <> "" -> occurs "." k = false -> occurs "[" k = false ->
  json_Encode t x = inr buff ->
  json_Unmarshal buff = inr Null ->
  jset j (join (pre ++ [k])) (InValue t x)
  = (Ok, {| intf := write_at (address cur) (Object (delete k mi)) (intf j) |}).
Proof.
  intros Hreach Hres Hne Hdot Hbr Henc Hdec.
  unfold Set_.
  rewrite (find_last j pre k true cur Hreach Hne Hdot).
  unfold find_step. rewrite (parse_key_plain k Hbr).
  unfold walk_key. rewrite (not_empty_eqb k Hne), Hres. cbn [Z.ltb Z.compare andb].
  rewrite Henc, Hdec, Hres. reflexivity.
Qed.

(** A value whose encoding decodes to null, set at an index within an
    array: reflect panics. *)
Lemma Set_null_at_index_panics j path key tgt si t x buff :
  find j path true = inr (key, tgt) ->
  result tgt = Array si ->
  json_Encode t x = inr buff ->
  json_Unmarshal buff = inr Null ->
  is_panic (fst (jset j path (InValue t x))) = true.
Proof.
  intros Hfind Hres Henc Hdec. unfold Set_.
  rewrite Hfind, Henc, Hdec, Hres. destruct key; reflexivity.
Qed.

(** ** Round trip *)

(** C9.  Where [path] resolves to a scalar that the codec gives back,
    [Get] into a zero variable of the natural type fills it with the
    scalar, and [Set] of that variable at the same path leaves the
    document, hence what [Export] returns, unchanged.  For null the
    variable is a nil [interface{}], which [Set] refuses. *)
Theorem C9_get_then_set_round_trip
  (unrepresentable : IntKind -> spec_float -> Z)
  (j : JSON) (path : string) (key : Key) (cur : Cursor) (indent : string) :
  find j path false = inr (key, cur) ->
  scalar (result cur) = true ->
  (result cur <> Null -> round_trips CodecError json_Unmarshal json_Encode (result cur)) ->
  let t := natural_type (result cur) in
  let x := natural_value (result cur) in
  Get unrepresentable j path (OutPointer t (zero t)) = (Ok, OutPointer t x)
  /\ jset j path (pass t x)
     = (match result cur with
        | Null => Failed (OfPackage ErrInvalidIn)
        | _ => Ok
        end, j)
  /\ jexport (snd (jset j path (pass t x))) indent = jexport j indent.
Proof.
  intros Hfind Hsc Hrt t x.
  assert (Hset : jset j path (pass t x)
                 = (match result cur with
                    | Null => Failed (OfPackage ErrInvalidIn)
                    | _ => Ok
                    end, j)).
  { subst t x. destruct (result cur) as [|b|f|s|l|m] eqn:Hres; try discriminate.
    - reflexivity.
    - destruct Hrt as (buff & Henc & Hdec); [discriminate|].
      rewrite <- Hres in Hdec.
      apply (Set_same_value j path key cur _ _ buff Hfind); [congruence|exact Henc|exact Hdec].
    - destruct Hrt as (buff & Henc & Hdec); [discriminate|].
      rewrite <- Hres in Hdec.
      apply (Set_same_value j path key cur _ _ buff Hfind); [congruence|exact Henc|exact Hdec].
    - destruct Hrt as (buff & Henc & Hdec); [discriminate|].
      rewrite <- Hres in Hdec.
      apply (Set_same_value j path key cur _ _ buff Hfind); [congruence|exact Henc|exact Hdec]. }
  split; [|split].
  - unfold Get. rewrite Hfind. subst t x.
    destruct (result cur); try discriminate; reflexivity.
  - exact Hset.
  - rewrite Hset. reflexivity.
Qed.

End SetProperties.

Lemma reach_addressed j pre cur :
  reach j pre = Some cur -> well_addressed (intf j) cur.
Proof.
  destruct pre as [|p pre]; cbn [reach].
  - intros H. inversion H. reflexivity.
  - unfold find.
    destruct (length _ =? 0)%nat; [discriminate|].
    destruct (existsb _ _); [discriminate|].
    destruct (find_loop false _ _) as [e|[k c]] eqn:Hloop; [discriminate|].
    intros H. inversion H; subst c.
    exact (find_loop_addressed _ _ _ _ _ _ (eq_refl : well_addressed (intf j)
             {| result := intf j; address := [] |}) Hloop).
Qed.

(** C5.  A terminal field that the object does not have is no error in
    write mode, yet [Set] does not create it when the encoding of the
    value decodes to null (a nil pointer, slice or map): it returns nil,
    the document is unchanged and the field is still not found. *)
Theorem C5_null_value_creates_no_field
  (CodecError : Type)
  (json_Unmarshal : string -> CodecError + Value)
  (json_Encode : GoType -> GoVal -> CodecError + string)
  (j : JSON) (pre : list string) (cur : Cursor) (mi : gmap string Value)
  (k : string) (t : GoType) (x : GoVal) (buff : string) :
  reach j pre = Some cur ->
  result cur = Object mi -> mi !! k = None ->
  k <> "" -> occurs "." k = false -> occurs "[" k = false ->
  json_Encode t x = inr buff ->
  json_Unmarshal buff = inr Null ->
  Set_ CodecError json_Unmarshal json_Encode j (join (pre ++ [k])) (InValue t x)
  = (Ok, j)
  /\ find j (join (pre ++ [k])) false = inl ErrNotFound.
Proof.
  intros Hreach Hres Hnone Hne Hdot Hbr Henc Hdec. split.
  - rewrite (Set_null_deletes_field CodecError json_Unmarshal json_Encode
               j pre cur mi k t x buff Hreach Hres Hne Hdot Hbr Henc Hdec).
    rewrite (delete_id _ _ Hnone).
    pose proof (reach_addressed j pre cur Hreach) as Haddr.
    unfold well_addressed in Haddr. rewrite Hres in Haddr.
    rewrite (write_at_same _ _ _ Haddr). destruct j; reflexivity.
  - rewrite (find_last j pre k false cur Hreach Hne Hdot).
    unfold find_step. rewrite (parse_key_plain k Hbr).
    unfold walk_key. rewrite (not_empty_eqb k Hne), Hres. cbn [andb].
    rewrite andb_false_r, Hnone. reflexivity.
Qed.

(** An instance of C5: a nil slice set at the new field [k] of
    [{"a": true}]. *)
Lemma C5_witness :
  SampleCodec.Encode (TSlice (TBasic KString false)) (VSlice None)
    = inr ("null" ++ SampleCodec.newline)
  /\ SampleCodec.Unmarshal ("null" ++ SampleCodec.newline) = inr Null
  /\ Set_ string SampleCodec.Unmarshal SampleCodec.Encode sample_flag "k"
       (InValue (TSlice (TBasic KString false)) (VSlice None))
     = (Ok, sample_flag)
  /\ find sample_flag "k" false = inl ErrNotFound.
Proof.
  split; [reflexivity|]. split; [reflexivity|].
  refine (C5_null_value_creates_no_field string SampleCodec.Unmarshal SampleCodec.Encode
            sample_flag [] {| result := intf sample_flag; address := [] |}
            (<["a" := Bool true]> ∅) "k"
            (TSlice (TBasic KString false)) (VSlice None)
            ("null" ++ SampleCodec.newline)
            eq_refl eq_refl eq_refl _ eq_refl eq_refl eq_refl eq_refl).
  discriminate.
Defined.

(** An instance of C8: the encoder rejects the value. *)
Lemma C8_witness :
  Set_ string SampleCodec.Unmarshal SampleCodec.Encode sample_flag "a"
    (InValue TOther (VOpaque 1))
  = (Failed (OfCodec "unsupported value"), sample_flag)
  /\ sample_flag = sample_flag.
Proof.
  split; [reflexivity|].
  exact (C8_failed_set_changes_nothing string SampleCodec.Unmarshal SampleCodec.Encode
           sample_flag "a" (InValue TOther (VOpaque 1))
           (OfCodec "unsupported value") sample_flag eq_refl).
Defined.

(** An instance of C9: the boolean at [a] in [{"a": true}]. *)
Lemma C9_witness :
  find sample_flag "a" false
    = inr (KeyNone, {| result := Bool true; address := [ByField "a"] |})
  /\ Get SampleCodec.unrepresentable sample_flag "a"
       (OutPointer (TBasic KBool false) (VBool false))
     = (Ok, OutPointer (TBasic KBool false) (VBool true))
  /\ Set_ string SampleCodec.Unmarshal SampleCodec.Encode sample_flag "a"
       (InValue (TBasic KBool false) (VBool true))
     = (Ok, sample_flag)
  /\ Export string SampleCodec.Marshal SampleCodec.MarshalIndent
       (snd (Set_ string SampleCodec.Unmarshal SampleCodec.Encode sample_flag "a"
               (InValue (TBasic KBool false) (VBool true)))) ""
     = Export string SampleCodec.Marshal SampleCodec.MarshalIndent sample_flag "".
Proof.
  split; [reflexivity|].
  assert (Hrt : Bool true <> Null ->
                round_trips string SampleCodec.Unmarshal SampleCodec.Encode (Bool true)).
  { intros _. exists ("true" ++ SampleCodec.newline). split; reflexivity. }
  exact (C9_get_then_set_round_trip string SampleCodec.Unmarshal SampleCodec.Encode
           SampleCodec.Marshal SampleCodec.MarshalIndent
           SampleCodec.unrepresentable sample_flag "a" KeyNone
           {| result := Bool true; address := [ByField "a"] |} ""
           eq_refl eq_refl Hrt).
Defined.

(** ** Rounding *)

(** Facts about the rounding functions of the floating-point
    specification, at any precision: a finite value whose exponent is at
    least [emin] does not round to zero, and rounding does not lower an
    exponent below [emin]. *)
Section Rounding.
Variables prec emax : Z.
Hypothesis prec_pos : 0 < prec.

Lemma digits2_pos_bounds m :
  2 ^ (Zpos (digits2_pos m) - 1) <= Zpos m < 2 ^ Zpos (digits2_pos m).
Proof.
  induction m as [m IH|m IH|]; cbn [digits2_pos].
  - rewrite Pos2Z.inj_succ.
    replace (Z.succ (Zpos (digits2_pos m)) - 1) with (Z.succ (Zpos (digits2_pos m) - 1)) by lia.
    rewrite !Z.pow_succ_r by lia. lia.
  - rewrite Pos2Z.inj_succ.
    replace (Z.succ (Zpos (digits2_pos m)) - 1) with (Z.succ (Zpos (digits2_pos m) - 1)) by lia.
    rewrite !Z.pow_succ_r by lia. lia.
  - simpl. lia.
Qed.

Lemma shr_1_m r : 0 <= shr_m r -> shr_m (shr_1 r) = shr_m r / 2.
Proof.
  destruct r as [m rb sb]. cbn [shr_m shr_1]. intros Hm.
  destruct m as [|p|p]; [reflexivity| |lia].
  destruct p as [p|p|]; cbn [shr_m].
  - rewrite Pos2Z.inj_xI. apply Z.div_unique with (r := 1); lia.
  - rewrite Pos2Z.inj_xO. apply Z.div_unique with (r := 0); lia.
  - reflexivity.
Qed.

Lemma shr_iter_m p : forall r,
  0 <= shr_m r -> shr_m (SpecFloat.iter_pos shr_1 p r) = shr_m r / 2 ^ Zpos p.
Proof.
  induction p as [p IH|p IH|]; intros r Hr; cbn [SpecFloat.iter_pos].
  - assert (H1 : 0 <= shr_m (shr_1 r)) by (rewrite shr_1_m by assumption; apply Z.div_pos; lia).
    assert (H2 : 0 <= shr_m (SpecFloat.iter_pos shr_1 p (shr_1 r)))
      by (rewrite IH by assumption; apply Z.div_pos; lia).
    rewrite IH, IH, shr_1_m by assumption.
    rewrite !Z.div_div by lia.
    f_equal. replace (Z.pos p~1) with (Z.pos p + Z.pos p + 1) by lia.
    rewrite !Z.pow_add_r by lia. change (2 ^ 1) with 2. ring.
  - assert (H2 : 0 <= shr_m (SpecFloat.iter_pos shr_1 p r))
      by (rewrite IH by assumption; apply Z.div_pos; lia).
    rewrite IH, IH by assumption.
    rewrite !Z.div_div by lia.
    f_equal. replace (Z.pos p~0) with (Z.pos p + Z.pos p) by lia.
    rewrite !Z.pow_add_r by lia. ring.
  - rewrite shr_1_m by assumption. reflexivity.
Qed.

Lemma shr_record_of_loc_m m l : shr_m (shr_record_of_loc m l) = m.
Proof. destruct l as [|[]]; reflexivity. Qed.

Lemma shr_fexp_positive m e l :
  emin prec emax <= e -> 0 < m ->
  0 < shr_m (fst (shr_fexp prec emax m e l))
  /\ e <= snd (shr_fexp prec emax m e l).
Proof.
  intros He Hm. destruct m as [|p|p]; try lia.
  unfold shr_fexp, shr. cbn [Zdigits2].
  pose proof (digits2_pos_bounds p) as [Hlo _].
  assert (Hn : fexp prec emax (Zpos (digits2_pos p) + e) - e <= Zpos (digits2_pos p) - 1)
    by (unfold fexp; lia).
  destruct (fexp prec emax (Zpos (digits2_pos p) + e) - e) as [|q|q] eqn:Hq; cbn [fst snd].
  - rewrite shr_record_of_loc_m. lia.
  - rewrite shr_iter_m by (rewrite shr_record_of_loc_m; lia).
    rewrite shr_record_of_loc_m. split; [|lia].
    apply Z.div_str_pos. split; [apply Z.pow_pos_nonneg; lia|].
    transitivity (2 ^ (Zpos (digits2_pos p) - 1)); [|exact Hlo].
    apply Z.pow_le_mono_r; lia.
  - rewrite shr_record_of_loc_m. lia.
Qed.

Lemma shr_fexp_exponent m e l : e <= snd (shr_fexp prec emax m e l).
Proof.
  unfold shr_fexp, shr.
  destruct (fexp prec emax (Zdigits2 m + e) - e); cbn [snd]; lia.
Qed.

Lemma round_nearest_even_le m l : m <= round_nearest_even m l.
Proof. destruct l as [|[]]; cbn; try lia. destruct (Z.even m); lia. Qed.

Lemma binary_round_aux_grounded s m e l lo :
  lo <= e -> grounded lo (binary_round_aux prec emax s m e l).
Proof.
  intros He. unfold binary_round_aux.
  pose proof (shr_fexp_exponent m e l) as H1.
  destruct (shr_fexp prec emax m e l) as [mrs' e'].
  pose proof (shr_fexp_exponent
                (round_nearest_even (shr_m mrs') (loc_of_shr_record mrs')) e' loc_Exact) as H2.
  destruct (shr_fexp prec emax _ e' loc_Exact) as [mrs'' e''].
  cbn [snd] in *.
  destruct (shr_m mrs''); cbn; try exact I.
  destruct (e'' <=? emax - prec); cbn; [lia|exact I].
Qed.

Lemma binary_round_aux_nonzero s m e l :
  emin prec emax <= e -> 0 < m ->
  F64.ne0 (binary_round_aux prec emax s m e l) = true.
Proof.
  intros He Hm. unfold binary_round_aux.
  pose proof (shr_fexp_positive m e l He Hm) as [H1 H1e].
  destruct (shr_fexp prec emax m e l) as [mrs' e']. cbn [fst snd] in *.
  pose proof (round_nearest_even_le (shr_m mrs') (loc_of_shr_record mrs')) as Hr.
  assert (He' : emin prec emax <= e') by lia.
  assert (Hm' : 0 < round_nearest_even (shr_m mrs') (loc_of_shr_record mrs')) by lia.
  pose proof (shr_fexp_positive _ e' loc_Exact He' Hm') as [H2 _].
  destruct (shr_fexp prec emax _ e' loc_Exact) as [mrs'' e'']. cbn [fst] in *.
  destruct (shr_m mrs''); try lia; try reflexivity.
  destruct (e'' <=? emax - prec); reflexivity.
Qed.

Lemma shl_align_exponent mx ex ex' :
  Z.min ex ex' <= snd (shl_align mx ex ex').
Proof. unfold shl_align. destruct (ex' - ex) eqn:E; cbn [snd]; lia. Qed.

Lemma shl_align_value mx ex ez :
  ez <= ex -> Zpos (fst (shl_align mx ex ez)) = Zpos mx * 2 ^ (ex - ez).
Proof.
  intros H. unfold shl_align. destruct (ez - ex) as [|d|d] eqn:E; cbn [fst].
  - replace (ex - ez) with 0 by lia. lia.
  - lia.
  - replace (ex - ez) with (Zpos d) by lia.
    change (Pos.iter xO mx d) with (shift_pos d mx).
    rewrite shift_pos_correct. change (Z.pow_pos 2 d) with (2 ^ Zpos d). lia.
Qed.

Lemma binary_round_grounded s m e lo :
  lo <= e -> lo <= emin prec emax -> grounded lo (binary_round prec emax s m e).
Proof.
  intros He Hlo. unfold binary_round.
  pose proof (shl_align_exponent m e (fexp prec emax (Zpos (digits2_pos m) + e))) as H.
  destruct (shl_align m e _) as [mz ez]. cbn [snd] in H.
  apply binary_round_aux_grounded. unfold fexp in H. lia.
Qed.

Lemma binary_round_nonzero s m e :
  emin prec emax <= e -> F64.ne0 (binary_round prec emax s m e) = true.
Proof.
  intros He. unfold binary_round.
  pose proof (shl_align_exponent m e (fexp prec emax (Zpos (digits2_pos m) + e))) as H.
  destruct (shl_align m e _) as [mz ez]. cbn [snd] in H.
  apply binary_round_aux_nonzero; [unfold fexp in H; lia|lia].
Qed.

Lemma valid_grounded x :
  valid_binary prec emax x = true -> grounded (emin prec emax) x.
Proof.
  destruct x as [| | |s m e]; cbn; try (intros; exact I).
  unfold bounded, canonical_mantissa, fexp. intros H.
  apply andb_prop in H as [H _]. apply Z.eqb_eq in H. lia.
Qed.

(** The difference of two finite values is zero exactly when the values
    are equal. *)
Lemma SFsub_finite_nonzero sx mx ex sy my ey :
  emin prec emax <= ex -> emin prec emax <= ey ->
  F64.ne0 (SFsub prec emax (S754_finite sx mx ex) (S754_finite sy my ey))
  = negb (cond_Zopp sx (Zpos mx) * 2 ^ (ex - Z.min ex ey)
          =? cond_Zopp sy (Zpos my) * 2 ^ (ey - Z.min ex ey)).
Proof.
  intros Hx Hy. cbn [SFsub].
  rewrite !shl_align_value by lia.
  set (ez := Z.min ex ey).
  assert (Hcx : forall b a c, cond_Zopp b (a * c) = cond_Zopp b a * c)
    by (intros [] a c; cbn; lia).
  rewrite !Hcx.
  set (a := cond_Zopp sx (Zpos mx) * 2 ^ (ex - ez)).
  set (b := cond_Zopp sy (Zpos my) * 2 ^ (ey - ez)).
  destruct (a =? b) eqn:E.
  - apply Z.eqb_eq in E. replace (a - b) with 0 by lia. reflexivity.
  - apply Z.eqb_neq in E. unfold binary_normalize.
    destruct (a - b) as [|p|p] eqn:Ep; [lia| |];
      apply binary_round_nonzero; lia.
Qed.
End Rounding.

(** ** Narrowing conversions *)

Ltac emin_bound := unfold emin64, emin, F64.prec, F64.emax in *; lia.

Lemma finite_grounded v : F64.finite v = true -> grounded emin64 v.
Proof.
  destruct v as [| | |s m e]; cbn; try (intros; exact I).
  intros H. exact (valid_grounded F64.prec F64.emax (S754_finite s m e) H).
Qed.

Lemma of_int_grounded n : grounded emin64 (F64.of_int n).
Proof.
  unfold F64.of_int, binary_normalize.
  destruct n; [exact I| |]; apply binary_round_grounded; emin_bound.
Qed.

Lemma of_float32_grounded v :
  grounded emin64 v -> grounded emin64 (F64.of_float32 (F64.to_float32 v)).
Proof.
  intros Hv. destruct v as [| | |s m e]; try exact I.
  cbn [F64.to_float32 grounded] in *.
  pose proof (binary_round_grounded 24 128 s m e emin64 Hv) as H32.
  destruct (binary_round 24 128 s m e) as [| | |s' m' e']; try exact I.
  cbn [F64.of_float32 grounded] in *.
  apply binary_round_grounded; [|emin_bound].
  apply H32; emin_bound.
Qed.

(** The test [v - w != 0] of [assign] holds exactly when [v] and [w]
    are different numbers. *)
Lemma sub_ne0 v w :
  F64.finite v = true -> grounded emin64 w ->
  F64.ne0 (F64.sub v w) = negb (F64.same_number v w).
Proof.
  intros Hv Hw. pose proof (finite_grounded v Hv) as Hgv.
  assert (Hpow : forall a, 0 <= a -> 0 < 2 ^ a) by (intros; apply Z.pow_pos_nonneg; lia).
  assert (Hopp : forall b p, cond_Zopp b (Zpos p) <> 0) by (intros [] p; cbn; lia).
  destruct v as [sx| | |sx mx ex]; try discriminate;
    destruct w as [sy|sy| |sy my ey]; try reflexivity.
  - destruct sx, sy; reflexivity.
  - unfold F64.same_number. cbn [F64.dyadic F64.sub SFsub F64.ne0].
    symmetry. apply negb_true_iff, Z.eqb_neq.
    rewrite Z.mul_0_l. intros H. symmetry in H.
    apply Z.mul_eq_0 in H as [H|H]; [exact (Hopp _ _ H)|].
    pose proof (Hpow (ey - Z.min 0 ey)). lia.
  - unfold F64.same_number. cbn [F64.dyadic F64.sub SFsub F64.ne0].
    symmetry. apply negb_true_iff, Z.eqb_neq.
    rewrite Z.mul_0_l. intros H.
    apply Z.mul_eq_0 in H as [H|H]; [exact (Hopp _ _ H)|].
    pose proof (Hpow (ex - Z.min ex 0)). lia.
  - unfold F64.sub, F64.same_number. cbn [F64.dyadic].
    apply SFsub_finite_nonzero; [reflexivity|exact Hgv|exact Hw].
Qed.

(** ** Integers that float64 holds exactly *)

Lemma digits2_pos_iter p k :
  digits2_pos (Pos.iter xO p k) = (digits2_pos p + k)%positive.
Proof.
  apply (Pos.iter_ind _ xO p (fun k a => digits2_pos a = (digits2_pos p + k)%positive)).
  - cbn. rewrite Pos.add_1_r. reflexivity.
  - intros q a IH. cbn. rewrite IH, Pos.add_succ_r. reflexivity.
Qed.

(** A mantissa in canonical form is not rounded. *)
Lemma binary_round_aux_exact prec emax s m e :
  canonical_mantissa prec emax m e = true -> e <= emax - prec ->
  binary_round_aux prec emax s (Zpos m) e loc_Exact = S754_finite s m e.
Proof.
  unfold canonical_mantissa. intros Hc He. apply Z.eqb_eq in Hc.
  unfold binary_round_aux, shr_fexp. cbn [Zdigits2].
  rewrite Hc, Z.sub_diag. cbn [shr shr_record_of_loc shr_m loc_of_shr_record
                                 round_nearest_even Zdigits2].
  rewrite Hc, Z.sub_diag. cbn [shr shr_m].
  replace (e <=? emax - prec) with true by (symmetry; apply Z.leb_le; exact He).
  reflexivity.
Qed.

(** [float64(n)] for [|n| < 2^53]: the mantissa is [|n|] shifted to 53
    bits, no bit is lost. *)
Lemma of_int_exact s p :
  Zpos p < 2 ^ 53 ->
  exists m e,
    F64.of_int (cond_Zopp s (Zpos p)) = S754_finite s m e
    /\ -52 <= e <= 0 /\ Zpos m = Zpos p * 2 ^ (- e).
Proof.
  intros Hp.
  pose proof (digits2_pos_bounds p) as Hd.
  assert (Hd53 : Zpos (digits2_pos p) <= 53).
  { destruct (Z_le_gt_dec (Zpos (digits2_pos p)) 53) as [H|H]; [exact H|].
    assert (2 ^ 53 <= 2 ^ (Zpos (digits2_pos p) - 1)) by (apply Z.pow_le_mono_r; lia).
    lia. }
  set (d := digits2_pos p) in *.
  assert (Hround : binary_round F64.prec F64.emax s p 0
                   = S754_finite s (fst (shl_align p 0 (Zpos d - 53))) (Zpos d - 53)).
  { unfold binary_round. fold d.
    replace (fexp F64.prec F64.emax (Zpos d + 0)) with (Zpos d - 53)
      by (unfold fexp, emin, F64.prec, F64.emax; lia).
    assert (Hal : snd (shl_align p 0 (Zpos d - 53)) = Zpos d - 53
                  /\ Zpos (digits2_pos (fst (shl_align p 0 (Zpos d - 53)))) = 53).
    { unfold shl_align. destruct (Zpos d - 53 - 0) as [|q|q] eqn:Hq; cbn [fst snd].
      - fold d. lia.
      - lia.
      - rewrite digits2_pos_iter. fold d. lia. }
    destruct (shl_align p 0 (Zpos d - 53)) as [mz ez]. cbn [fst snd] in *.
    destruct Hal as [-> Hdig].
    apply binary_round_aux_exact.
    - unfold canonical_mantissa, fexp, emin, F64.prec, F64.emax.
      apply Z.eqb_eq. lia.
    - unfold F64.prec, F64.emax. lia. }
  exists (fst (shl_align p 0 (Zpos d - 53))), (Zpos d - 53).
  split; [|split; [lia|]].
  - unfold F64.of_int, binary_normalize. destruct s; exact Hround.
  - rewrite (shl_align_value p 0 (Zpos d - 53)) by lia.
    replace (0 - (Zpos d - 53)) with (- (Zpos d - 53)) by lia. reflexivity.
Qed.

Lemma pow2_pos a : 0 <= a -> 0 < 2 ^ a.
Proof. intros. apply Z.pow_pos_nonneg; lia. Qed.

(** Equality with [float64(n)] is being the integer [n]. *)
Lemma same_number_of_int v n :
  Z.abs n < 2 ^ 53 ->
  F64.same_number v (F64.of_int n) = whole v n.
Proof.
  intros Hn. unfold F64.same_number, whole.
  destruct (F64.dyadic v) as [[m e]|] eqn:Hv; [|reflexivity].
  destruct n as [|p|p].
  - cbn [F64.of_int binary_normalize F64.dyadic].
    rewrite Z.mul_0_l.
    pose proof (pow2_pos (e - Z.min e 0) ltac:(lia)) as H1.
    destruct (0 <=? e) eqn:He.
    + apply Z.leb_le in He. pose proof (pow2_pos e He) as H2.
      destruct (Z.eqb_spec (m * 2 ^ (e - Z.min e 0)) 0) as [H|H];
        destruct (Z.eqb_spec (m * 2 ^ e) 0) as [H'|H']; try reflexivity; nia.
    + destruct (Z.eqb_spec (m * 2 ^ (e - Z.min e 0)) 0) as [H|H];
        destruct (Z.eqb_spec m 0) as [H'|H']; try reflexivity; nia.
  - destruct (of_int_exact false p) as (mz & ez & Hof & Hez & Hmz); [cbn in Hn; lia|].
    cbn [cond_Zopp] in Hof. rewrite Hof. cbn [F64.dyadic cond_Zopp].
    rewrite Hmz. clear Hof Hmz Hv.
    pose proof (pow2_pos (- ez) ltac:(lia)) as H1.
    destruct (0 <=? e) eqn:He.
    + apply Z.leb_le in He.
      replace (Z.min e ez) with ez by lia. rewrite Z.sub_diag, Z.mul_1_r.
      replace (e - ez) with (e + - ez) by lia. rewrite Z.pow_add_r by lia.
      destruct (Z.eqb_spec (m * (2 ^ e * 2 ^ (- ez))) (Z.pos p * 2 ^ (- ez))) as [H|H];
        destruct (Z.eqb_spec (m * 2 ^ e) (Z.pos p)) as [H'|H']; try reflexivity; nia.
    + apply Z.leb_gt in He.
      pose proof (pow2_pos (- e) ltac:(lia)) as H2.
      destruct (Z_le_gt_dec e ez) as [Hle|Hgt].
      * replace (Z.min e ez) with e by lia. rewrite Z.sub_diag, Z.mul_1_r.
        rewrite <- Z.mul_assoc, <- Z.pow_add_r by lia.
        replace (- ez + (ez - e)) with (- e) by lia. reflexivity.
      * replace (Z.min e ez) with ez by lia. rewrite Z.sub_diag, Z.mul_1_r.
        replace (- ez) with (- e + (e - ez)) at 1 by lia.
        rewrite Z.pow_add_r by lia.
        pose proof (pow2_pos (e - ez) ltac:(lia)) as H3.
        destruct (Z.eqb_spec (m * 2 ^ (e - ez)) (Z.pos p * (2 ^ (- e) * 2 ^ (e - ez)))) as [H|H];
          destruct (Z.eqb_spec m (Z.pos p * 2 ^ (- e))) as [H'|H']; try reflexivity; nia.
  - destruct (of_int_exact true p) as (mz & ez & Hof & Hez & Hmz); [cbn in Hn; lia|].
    change (cond_Zopp true (Z.pos p)) with (Z.neg p) in Hof.
    rewrite Hof. cbn [F64.dyadic].
    change (cond_Zopp true (Z.pos mz)) with (- Z.pos mz). rewrite Hmz.
    change (Z.neg p) with (- Z.pos p). clear Hof Hmz Hv.
    pose proof (pow2_pos (- ez) ltac:(lia)) as H1.
    destruct (0 <=? e) eqn:He.
    + apply Z.leb_le in He.
      replace (Z.min e ez) with ez by lia. rewrite Z.sub_diag, Z.mul_1_r.
      replace (e - ez) with (e + - ez) by lia. rewrite Z.pow_add_r by lia.
      destruct (Z.eqb_spec (m * (2 ^ e * 2 ^ (- ez))) (- (Z.pos p * 2 ^ (- ez)))) as [H|H];
        destruct (Z.eqb_spec (m * 2 ^ e) (- Z.pos p)) as [H'|H']; try reflexivity; nia.
    + apply Z.leb_gt in He.
      pose proof (pow2_pos (- e) ltac:(lia)) as H2.
      destruct (Z_le_gt_dec e ez) as [Hle|Hgt].
      * replace (Z.min e ez) with e by lia. rewrite Z.sub_diag, Z.mul_1_r.
        rewrite Z.mul_opp_l, <- Z.mul_assoc, <- Z.pow_add_r by lia.
        replace (- ez + (ez - e)) with (- e) by lia.
        rewrite Z.mul_opp_l. reflexivity.
      * replace (Z.min e ez) with ez by lia. rewrite Z.sub_diag, Z.mul_1_r.
        replace (- ez) with (- e + (e - ez)) at 1 by lia.
        rewrite Z.pow_add_r by lia.
        pose proof (pow2_pos (e - ez) ltac:(lia)) as H3.
        destruct (Z.eqb_spec (m * 2 ^ (e - ez)) (- (Z.pos p * (2 ^ (- e) * 2 ^ (e - ez))))) as [H|H];
          destruct (Z.eqb_spec m (- Z.pos p * 2 ^ (- e))) as [H'|H']; try reflexivity; nia.
Qed.

(** The integer part of an integer is that integer. *)
Lemma whole_trunc v n : whole v n = true -> F64.trunc v = Some n.
Proof.
  unfold whole. destruct v as [s| | |s m e]; cbn [F64.dyadic F64.trunc]; try discriminate.
  - cbn. destruct n; intros H; first [reflexivity | discriminate].
  - assert (Hopp : forall z, cond_Zopp s z = if s then - z else z)
      by (intros z; destruct s; reflexivity).
    destruct (0 <=? e) eqn:He.
    + apply Z.leb_le in He. intros H. apply Z.eqb_eq in H.
      rewrite Z.shiftl_mul_pow2 by lia. f_equal.
      rewrite Hopp in *. destruct s; lia.
    + apply Z.leb_gt in He. intros H. apply Z.eqb_eq in H.
      rewrite Z.shiftl_div_pow2 by lia. f_equal.
      pose proof (pow2_pos (- e) ltac:(lia)) as Hp.
      rewrite Hopp in *. destruct s.
      * replace (Z.pos m) with ((- n) * 2 ^ (- e)) by lia.
        rewrite Z.div_mul by lia. lia.
      * rewrite H, Z.div_mul by lia. reflexivity.
Qed.

Lemma int_wrap_fits k x : int_fits k (int_wrap k x) = true.
Proof.
  unfold int_fits, int_wrap.
  assert (H : 0 < 2 ^ int_bits k) by (destruct k; reflexivity).
  pose proof (Z.mod_pos_bound (x - int_min k) _ H) as Hm.
  apply andb_true_iff. split; apply Z.leb_le; [lia|].
  assert (int_max k = int_min k + 2 ^ int_bits k - 1) by (destruct k; reflexivity).
  lia.
Qed.

Lemma int_fits_narrow k n :
  int_bits k <= 32 -> int_fits k n = true -> Z.abs n < 2 ^ 53.
Proof.
  unfold int_fits. intros Hk H. apply andb_true_iff in H as [H1 H2].
  apply Z.leb_le in H1, H2.
  destruct k; cbn in Hk; try lia; cbn in H1, H2; lia.
Qed.

(** ** The format of a rounded value *)

Section Format.
Variables prec emax : Z.
Hypothesis prec_pos : 0 < prec.

(** The number of binary digits is determined by the bounds. *)
Lemma digits2_pos_unique m d :
  2 ^ (d - 1) <= Zpos m < 2 ^ d -> Zpos (digits2_pos m) = d.
Proof.
  intros [Hlo Hhi]. pose proof (digits2_pos_bounds m) as [Hlo' Hhi'].
  set (d' := Zpos (digits2_pos m)) in *.
  assert (Hd' : 0 < d') by (unfold d'; lia).
  assert (Hd : 0 < d).
  { destruct (Z_lt_le_dec 0 d) as [H|H]; [exact H|].
    assert (2 ^ d <= 1); [|lia].
    destruct (Z.eq_dec d 0) as [->|Hne]; [cbn; lia|].
    rewrite Z.pow_neg_r by lia. lia. }
  destruct (Z_lt_le_dec d d') as [H1|H1].
  - assert (2 ^ d <= 2 ^ (d' - 1)) by (apply Z.pow_le_mono_r; lia). lia.
  - destruct (Z_lt_le_dec d' d) as [H2|H2]; [|lia].
    assert (2 ^ d' <= 2 ^ (d - 1)) by (apply Z.pow_le_mono_r; lia). lia.
Qed.

Lemma digits2_pos_scaled m m' j :
  0 <= j -> Zpos m' = Zpos m * 2 ^ j ->
  Zpos (digits2_pos m') = Zpos (digits2_pos m) + j.
Proof.
  intros Hj Hm. apply digits2_pos_unique.
  pose proof (digits2_pos_bounds m) as [Hlo Hhi].
  assert (Hp : 0 < 2 ^ j) by (apply Z.pow_pos_nonneg; lia).
  rewrite Hm.
  replace (Zpos (digits2_pos m) + j - 1) with ((Zpos (digits2_pos m) - 1) + j) by lia.
  rewrite !Z.pow_add_r by lia. split; nia.
Qed.

(** After [shr_fexp] the mantissa fits the precision and the exponent
    is at least [emin]. *)
Lemma shr_fexp_format m e l :
  0 <= m ->
  0 <= shr_m (fst (shr_fexp prec emax m e l)) < 2 ^ prec
  /\ (0 < m -> emin prec emax <= snd (shr_fexp prec emax m e l))
  /\ (m = 0 -> shr_m (fst (shr_fexp prec emax m e l)) = 0).
Proof.
  intros Hm. assert (Hpp : 0 < 2 ^ prec) by (apply Z.pow_pos_nonneg; lia).
  destruct m as [|p|p]; [| |lia].
  - unfold shr_fexp, shr. cbn [Zdigits2].
    destruct (fexp prec emax (0 + e) - e) as [|q|q]; cbn [fst snd].
    + rewrite shr_record_of_loc_m. repeat split; lia.
    + rewrite shr_iter_m by (rewrite shr_record_of_loc_m; lia).
      rewrite shr_record_of_loc_m, Z.div_0_l by (apply Z.pow_nonzero; lia).
      repeat split; lia.
    + rewrite shr_record_of_loc_m. repeat split; lia.
  - unfold shr_fexp, shr. cbn [Zdigits2].
    pose proof (digits2_pos_bounds p) as [Hlo Hhi].
    set (d := Zpos (digits2_pos p)) in *.
    assert (Hf : d + e - prec <= fexp prec emax (d + e)
                 /\ emin prec emax <= fexp prec emax (d + e)) by (unfold fexp; lia).
    destruct (fexp prec emax (d + e) - e) as [|q|q] eqn:Hq; cbn [fst snd].
    + rewrite shr_record_of_loc_m. split; [|split; [lia|discriminate]]. split; [lia|].
      assert (2 ^ d <= 2 ^ prec) by (apply Z.pow_le_mono_r; lia). lia.
    + rewrite shr_iter_m by (rewrite shr_record_of_loc_m; lia).
      rewrite shr_record_of_loc_m. split; [|split; [lia|discriminate]]. split.
      * apply Z.div_pos; [lia|apply Z.pow_pos_nonneg; lia].
      * apply Z.div_lt_upper_bound; [apply Z.pow_pos_nonneg; lia|].
        rewrite <- Z.pow_add_r by lia.
        assert (2 ^ d <= 2 ^ (Zpos q + prec)) by (apply Z.pow_le_mono_r; lia). lia.
    + rewrite shr_record_of_loc_m. split; [|split; [lia|discriminate]]. split; [lia|].
      assert (2 ^ d <= 2 ^ prec) by (apply Z.pow_le_mono_r; lia). lia.
Qed.

(** A rounded value is a zero, an infinity, or a mantissa that fits the
    precision at an exponent of the format. *)
Lemma binary_round_aux_format s m e l :
  0 < m ->
  match binary_round_aux prec emax s m e l with
  | S754_finite _ m' e' => Zpos m' < 2 ^ prec /\ emin prec emax <= e' <= emax - prec
  | S754_nan => False
  | _ => True
  end.
Proof.
  intros Hm. unfold binary_round_aux.
  pose proof (shr_fexp_format m e l ltac:(lia)) as [[H1 _] _].
  destruct (shr_fexp prec emax m e l) as [mrs' e']. cbn [fst snd] in *.
  pose proof (round_nearest_even_le (shr_m mrs') (loc_of_shr_record mrs')) as Hr.
  pose proof (shr_fexp_format (round_nearest_even (shr_m mrs') (loc_of_shr_record mrs'))
                e' loc_Exact ltac:(lia)) as ([H2 H2'] & H2e & H2z).
  destruct (shr_fexp prec emax _ e' loc_Exact) as [mrs'' e'']. cbn [fst snd] in *.
  destruct (shr_m mrs'') as [|p|p] eqn:Hp; [exact I| |lia].
  destruct (e'' <=? emax - prec) eqn:He; [|exact I].
  apply Z.leb_le in He. split; [lia|]. split; [|lia].
  apply H2e.
  destruct (Z.eq_dec (round_nearest_even (shr_m mrs') (loc_of_shr_record mrs')) 0)
    as [H0|H0]; [|lia].
  specialize (H2z H0). lia.
Qed.

Lemma binary_round_format s m e :
  match binary_round prec emax s m e with
  | S754_finite _ m' e' => Zpos m' < 2 ^ prec /\ emin prec emax <= e' <= emax - prec
  | S754_nan => False
  | _ => True
  end.
Proof.
  unfold binary_round. destruct (shl_align m e _) as [mz ez].
  apply binary_round_aux_format. lia.
Qed.

(** Shifting out zero bits loses nothing. *)
Lemma shr_1_exact q :
  0 <= q ->
  shr_1 {| shr_m := q * 2; shr_r := false; shr_s := false |}
  = {| shr_m := q; shr_r := false; shr_s := false |}.
Proof.
  intros Hq. destruct q as [|a|a]; [reflexivity| |lia].
  replace (Zpos a * 2) with (Zpos a~0) by lia. reflexivity.
Qed.

Lemma shr_iter_exact p : forall q,
  0 <= q ->
  SpecFloat.iter_pos shr_1 p {| shr_m := q * 2 ^ Zpos p; shr_r := false; shr_s := false |}
  = {| shr_m := q; shr_r := false; shr_s := false |}.
Proof.
  induction p as [p IH|p IH|]; intros q Hq; cbn [SpecFloat.iter_pos].
  - assert (Hp : 0 < 2 ^ Zpos p) by (apply Z.pow_pos_nonneg; lia).
    replace (q * 2 ^ Zpos p~1) with (((q * 2 ^ Zpos p) * 2 ^ Zpos p) * 2)
      by (replace (Zpos p~1) with (Zpos p + Zpos p + 1) by lia;
          rewrite !Z.pow_add_r by lia; change (2 ^ 1) with 2; ring).
    rewrite shr_1_exact by nia. rewrite IH by nia. apply IH. exact Hq.
  - assert (Hp : 0 < 2 ^ Zpos p) by (apply Z.pow_pos_nonneg; lia).
    replace (q * 2 ^ Zpos p~0) with ((q * 2 ^ Zpos p) * 2 ^ Zpos p)
      by (replace (Zpos p~0) with (Zpos p + Zpos p) by lia;
          rewrite !Z.pow_add_r by lia; ring).
    rewrite IH by nia. apply IH. exact Hq.
  - change (2 ^ 1) with 2. apply shr_1_exact. exact Hq.
Qed.

(** A mantissa with [k] zero bits at its end, where [k] is the shift
    that the format asks for, is rounded to itself without those bits. *)
Lemma binary_round_aux_shift s m' k e :
  0 < k ->
  fexp prec emax (Zpos (digits2_pos m') + k + e) = e + k ->
  e + k <= emax - prec ->
  forall m, Zpos m = Zpos m' * 2 ^ k ->
  binary_round_aux prec emax s (Zpos m) e loc_Exact = S754_finite s m' (e + k).
Proof.
  intros Hk Hf He m Hm.
  pose proof (digits2_pos_scaled m' m k ltac:(lia) Hm) as Hd.
  unfold binary_round_aux, shr_fexp. cbn [Zdigits2].
  rewrite Hd, Hf. replace (e + k - e) with k by lia.
  destruct k as [|q|q]; try lia.
  cbn [shr shr_record_of_loc]. rewrite Hm, shr_iter_exact by lia.
  cbn [shr_m loc_of_shr_record round_nearest_even Zdigits2].
  replace (Zpos (digits2_pos m') + (e + Zpos q)) with (Zpos (digits2_pos m') + Zpos q + e)
    by lia.
  rewrite Hf, Z.sub_diag. cbn [shr shr_record_of_loc shr_m].
  replace (e + Zpos q <=? emax - prec) with true by (symmetry; apply Z.leb_le; exact He).
  reflexivity.
Qed.

End Format.

(** ** float32 *)

Lemma pow2_split a b : 0 <= a -> 0 <= b -> 2 ^ (a + b) = 2 ^ a * 2 ^ b.
Proof. intros. apply Z.pow_add_r; assumption. Qed.

(** Two finite values are the same number when their mantissas agree
    at any common exponent. *)
Lemma same_number_finite sx mx ex sy my ey lo :
  lo <= ex -> lo <= ey ->
  F64.same_number (S754_finite sx mx ex) (S754_finite sy my ey)
  = (cond_Zopp sx (Zpos mx) * 2 ^ (ex - lo) =? cond_Zopp sy (Zpos my) * 2 ^ (ey - lo)).
Proof.
  intros Hx Hy. unfold F64.same_number. cbn [F64.dyadic].
  set (ez := Z.min ex ey). set (a := cond_Zopp sx (Zpos mx)). set (b := cond_Zopp sy (Zpos my)).
  replace (ex - lo) with ((ex - ez) + (ez - lo)) by lia.
  replace (ey - lo) with ((ey - ez) + (ez - lo)) by lia.
  rewrite !pow2_split by (unfold ez; lia).
  pose proof (pow2_pos (ez - lo) ltac:(unfold ez; lia)) as Hp.
  destruct (Z.eqb_spec (a * 2 ^ (ex - ez)) (b * 2 ^ (ey - ez))) as [H|H];
    destruct (Z.eqb_spec (a * (2 ^ (ex - ez) * 2 ^ (ez - lo)))
                (b * (2 ^ (ey - ez) * 2 ^ (ez - lo)))) as [H'|H'];
    try reflexivity; nia.
Qed.

(** The same mantissa written at a lower exponent is the same number. *)
Lemma same_number_scaled v s m e m' e' :
  e' <= e -> Zpos m' = Zpos m * 2 ^ (e - e') ->
  F64.same_number v (S754_finite s m' e') = F64.same_number v (S754_finite s m e).
Proof.
  intros He Hm. destruct v as [sv| | |sv mv ev]; try reflexivity.
  - unfold F64.same_number. cbn [F64.dyadic].
    rewrite !Z.mul_0_l.
    assert (Hnz : forall p a, 0 <= a -> (0 =? cond_Zopp s (Zpos p) * 2 ^ a) = false).
    { intros p a Ha. apply Z.eqb_neq. pose proof (pow2_pos a Ha). destruct s; cbn; nia. }
    rewrite !Hnz by lia. reflexivity.
  - rewrite (same_number_finite sv mv ev s m' e' (Z.min ev e')) by lia.
    rewrite (same_number_finite sv mv ev s m e (Z.min ev e')) by lia.
    f_equal.
    assert (Hc : cond_Zopp s (Zpos m') = cond_Zopp s (Zpos m) * 2 ^ (e - e'))
      by (destruct s; cbn [cond_Zopp]; lia).
    rewrite Hc, <- Z.mul_assoc, <- pow2_split by lia.
    f_equal. f_equal. lia.
Qed.

Lemma same_number_refl s m e : F64.same_number (S754_finite s m e) (S754_finite s m e) = true.
Proof. unfold F64.same_number. cbn [F64.dyadic]. apply Z.eqb_refl. Qed.

(** [float32(v)] of a number that binary32 holds: the mantissa of [v]
    without the bits that binary32 has no room for, all of them zero. *)
Lemma to_float32_exact s m e mw ew :
  valid_binary F64.prec F64.emax (S754_finite s m e) = true ->
  Zpos mw < 2 ^ 24 -> -149 <= ew <= 104 ->
  Zpos m * 2 ^ (e - Z.min e ew) = Zpos mw * 2 ^ (ew - Z.min e ew) ->
  exists m' e',
    F64.to_float32 (S754_finite s m e) = S754_finite s m' e'
    /\ e <= e' /\ Zpos m = Zpos m' * 2 ^ (e' - e)
    /\ Zpos m' < 2 ^ 24 /\ -149 <= e' <= 104.
Proof.
  intros Hv Hmw Hew Heq.
  cbn [valid_binary] in Hv. unfold bounded, canonical_mantissa in Hv.
  apply andb_prop in Hv as [Hc _]. apply Z.eqb_eq in Hc.
  unfold fexp, emin, F64.prec, F64.emax in Hc.
  pose proof (digits2_pos_bounds m) as [Hlo Hhi].
  pose proof (digits2_pos_bounds mw) as [Hlow Hhiw].
  set (d := Zpos (digits2_pos m)) in *. set (dw := Zpos (digits2_pos mw)) in *.
  assert (Hdw : dw <= 24).
  { destruct (Z_le_gt_dec dw 24) as [H|H]; [exact H|].
    assert (2 ^ 24 <= 2 ^ (dw - 1)) by (apply Z.pow_le_mono_r; lia). lia. }
  assert (Hge : e <= ew).
  { destruct (Z_le_gt_dec e ew) as [H|H]; [exact H|exfalso].
    replace (Z.min e ew) with ew in Heq by lia.
    rewrite Z.sub_diag, Z.mul_1_r in Heq.
    pose proof (pow2_pos (e - ew) ltac:(lia)) as Hp.
    assert (Zpos m < 2 ^ 24) by nia.
    assert (d <= 24).
    { destruct (Z_le_gt_dec d 24) as [H'|H']; [exact H'|].
      assert (2 ^ 24 <= 2 ^ (d - 1)) by (apply Z.pow_le_mono_r; lia). lia. }
    lia. }
  replace (Z.min e ew) with e in Heq by lia.
  rewrite Z.sub_diag, Z.mul_1_r in Heq.
  assert (Hd : d = dw + (ew - e))
    by (apply (digits2_pos_scaled mw m (ew - e)); [lia|exact Heq]).
  set (f := fexp 24 128 (d + e)).
  assert (Hf : f = Z.max (d + e - 24) (-149)) by reflexivity.
  assert (Hfe : e < f) by lia.
  assert (Hfw : f <= ew) by lia.
  pose proof (pow2_pos (ew - f) ltac:(lia)) as Hp1.
  assert (Hm' : exists m', Zpos m' = Zpos mw * 2 ^ (ew - f)).
  { exists (Z.to_pos (Zpos mw * 2 ^ (ew - f))). rewrite Z2Pos.id by nia. reflexivity. }
  destruct Hm' as (m' & Hm').
  assert (Hmm : Zpos m = Zpos m' * 2 ^ (f - e)).
  { rewrite Heq, Hm', <- Z.mul_assoc, <- pow2_split by lia. f_equal. f_equal. lia. }
  pose proof (digits2_pos_scaled m' m (f - e) ltac:(lia) Hmm) as Hdm. fold d in Hdm.
  exists m', f. split; [|split; [lia|split; [exact Hmm|split; [|lia]]]].
  - cbn [F64.to_float32]. unfold binary_round. fold d. fold f.
    unfold shl_align. destruct (f - e) as [|q|q] eqn:Hq; try lia.
    replace f with (e + Zpos q) by lia.
    apply (binary_round_aux_shift 24 128 s m' (Zpos q) e); try lia.
    replace (Zpos (digits2_pos m') + Zpos q + e) with (d + e) by lia.
    fold f. lia.
  - pose proof (digits2_pos_bounds m') as [_ Hhi'].
    assert (2 ^ Zpos (digits2_pos m') <= 2 ^ 24) by (apply Z.pow_le_mono_r; lia).
    lia.
Qed.

(** [float64(w)] for a binary32 value [w]: the same mantissa, shifted. *)
Lemma of_float32_exact s m e :
  Zpos m < 2 ^ 24 -> -149 <= e <= 104 ->
  exists m' e',
    F64.of_float32 (S754_finite s m e) = S754_finite s m' e'
    /\ e' <= e /\ Zpos m' = Zpos m * 2 ^ (e - e').
Proof.
  intros Hm He.
  pose proof (digits2_pos_bounds m) as [Hlo Hhi].
  set (d := Zpos (digits2_pos m)) in *.
  assert (Hd : d <= 24).
  { destruct (Z_le_gt_dec d 24) as [H|H]; [exact H|].
    assert (2 ^ 24 <= 2 ^ (d - 1)) by (apply Z.pow_le_mono_r; lia). lia. }
  set (f := fexp F64.prec F64.emax (d + e)).
  assert (Hf : f = Z.max (d + e - 53) (-1074)) by reflexivity.
  exists (fst (shl_align m e f)), f.
  split; [|split; [lia|apply shl_align_value; lia]].
  cbn [F64.of_float32]. unfold binary_round. fold d. fold f.
  assert (Hal : snd (shl_align m e f) = f
                /\ Zpos (digits2_pos (fst (shl_align m e f))) + f = d + e).
  { unfold shl_align. destruct (f - e) as [|q|q] eqn:Hq; cbn [fst snd]; try lia.
    rewrite digits2_pos_iter. fold d. lia. }
  destruct (shl_align m e f) as [mz ez]. cbn [fst snd] in *.
  destruct Hal as [-> Hdig].
  apply binary_round_aux_exact.
  - unfold canonical_mantissa. apply Z.eqb_eq. rewrite Hdig. reflexivity.
  - unfold F64.prec, F64.emax. lia.
Qed.

Lemma same_number_zero_r s m e s' :
  F64.same_number (S754_finite s m e) (S754_zero s') = false.
Proof.
  unfold F64.same_number. cbn [F64.dyadic]. rewrite Z.mul_0_l.
  apply Z.eqb_neq. pose proof (pow2_pos (e - Z.min e 0) ltac:(lia)).
  destruct s; cbn [cond_Zopp]; nia.
Qed.

(** What [assign] stores in a [float32] is a binary32 number, and it
    is the number of the document. *)
Lemma float32_sound v :
  F64.finite v = true ->
  F64.same_number v (F64.of_float32 (F64.to_float32 v)) = true ->
  binary32 (F64.to_float32 v) = true /\ F64.same_number v (F64.to_float32 v) = true.
Proof.
  intros Hv. destruct v as [s| | |s m e]; try discriminate.
  - intros _. split; reflexivity.
  - cbn [F64.to_float32].
    pose proof (binary_round_format 24 128 ltac:(lia) s m e) as Hfmt.
    destruct (binary_round 24 128 s m e) as [s'|s'| |s' m' e'].
    + cbn [F64.of_float32]. rewrite same_number_zero_r. discriminate.
    + cbn [F64.of_float32]. unfold F64.same_number. cbn [F64.dyadic]. discriminate.
    + contradiction.
    + destruct Hfmt as [Hm' He']. unfold emin in He'.
      destruct (of_float32_exact s' m' e' Hm' ltac:(lia)) as (m2 & e2 & -> & He2 & Hm2).
      rewrite (same_number_scaled _ s' m' e' m2 e2 He2 Hm2).
      intros H. split; [|exact H].
      cbn [binary32]. apply andb_true_iff. split; [apply andb_true_iff; split|].
      * apply Z.ltb_lt. exact Hm'.
      * apply Z.leb_le. lia.
      * apply Z.leb_le. lia.
Qed.

(** A number of the document that binary32 holds passes the test. *)
Lemma float32_complete v w :
  F64.finite v = true ->
  binary32 w = true -> F64.same_number v w = true ->
  F64.same_number v (F64.of_float32 (F64.to_float32 v)) = true.
Proof.
  intros Hv Hw Hsame. destruct v as [s| | |s m e]; try discriminate.
  - reflexivity.
  - destruct w as [sw|sw| |sw mw ew]; try discriminate.
    + rewrite same_number_zero_r in Hsame. discriminate.
    + cbn [binary32] in Hw.
      apply andb_true_iff in Hw as [Hw Hw3]. apply andb_true_iff in Hw as [Hw1 Hw2].
      apply Z.ltb_lt in Hw1. apply Z.leb_le in Hw2, Hw3.
      rewrite (same_number_finite s m e sw mw ew (Z.min e ew)) in Hsame by lia.
      apply Z.eqb_eq in Hsame.
      assert (Heq : Zpos m * 2 ^ (e - Z.min e ew) = Zpos mw * 2 ^ (ew - Z.min e ew)).
      { pose proof (pow2_pos (e - Z.min e ew) ltac:(lia)).
        pose proof (pow2_pos (ew - Z.min e ew) ltac:(lia)).
        destruct s, sw; cbn [cond_Zopp] in Hsame; nia. }
      destruct (to_float32_exact s m e mw ew Hv Hw1 ltac:(lia) Heq)
        as (m1 & e1 & -> & He1 & Hm1 & Hb1 & Hb2).
      destruct (of_float32_exact s m1 e1 Hb1 Hb2) as (m2 & e2 & -> & He2 & Hm2).
      rewrite (same_number_scaled _ s m1 e1 m2 e2 He2 Hm2).
      rewrite <- (same_number_scaled _ s m1 e1 m e He1 Hm1).
      apply same_number_refl.
Qed.

(** ** The narrowing test *)

Lemma Set_basic_commits defined out x : commits defined out x (Set_basic defined out x).
Proof. destruct defined; cbn; [split; reflexivity|reflexivity]. Qed.

(** The cases of [assign] for the kinds narrower than [float64]. *)
Lemma assign_narrower unrepresentable k defined inv v out :
  narrower k = true ->
  as_float64 inv = Some v ->
  F64.finite v = true ->
  assign unrepresentable (TBasic k defined) inv out
  = if F64.same_number v (cast_back unrepresentable k v)
    then Set_basic defined out (cast unrepresentable k v)
    else (Failed ErrTruncate, out).
Proof.
  intros Hk Hin Hv.
  assert (Hvalid : IsValid inv = true).
  { destruct inv; try reflexivity. discriminate. }
  destruct k as [| | | |ik]; try discriminate; cbn [assign cast cast_back].
  - rewrite Hvalid, Hin. cbn [negb].
    rewrite (sub_ne0 v _ Hv (of_float32_grounded v (finite_grounded v Hv))).
    destruct (F64.same_number v _); reflexivity.
  - rewrite Hvalid, Hin. cbn [negb].
    rewrite (sub_ne0 v _ Hv (of_int_grounded _)).
    destruct (F64.same_number v _); reflexivity.
Qed.

Lemma to_int_fits unrepresentable ik v : int_fits ik (to_int unrepresentable ik v) = true.
Proof.
  unfold to_int. destruct (F64.trunc v) as [n|]; [|apply int_wrap_fits].
  destruct (int_fits ik n) eqn:Hf; [exact Hf|apply int_wrap_fits].
Qed.

(** C4.  For a destination of a kind narrower than [float64] and a
    number [v] of the document: when [v] cast to the type and back is a
    different number, [assign] returns ErrTruncate and the destination
    keeps its value; otherwise the cast is handed to [out.Set], which
    stores it when the type of the destination is the predeclared type
    of the kind and panics, leaving the destination, when it is a
    defined type ([type Age int8]).  The test is exact: a [float32]
    receives [v] exactly when [v] is a binary32 number; an integer that
    is received is in the range of its type and converts back to [v];
    an integer of magnitude below [2^53] in the range of the type is
    received as it is; and a type of at most 32 bits receives nothing
    else, whatever the conversion of an unrepresentable value yields.
    3.5 is refused by every integer kind, 3 is handed over as 3 by
    every one. *)
Theorem C4_narrowing_is_checked_and_defined_types_panic
  (unrepresentable : IntKind -> spec_float -> Z)
  (k : Kind) (defined : bool) (inv : RValue) (v : spec_float) (out : GoVal) :
  narrower k = true ->
  as_float64 inv = Some v ->
  F64.finite v = true ->
  (if F64.same_number v (cast_back unrepresentable k v)
   then commits defined out (cast unrepresentable k v)
          (assign unrepresentable (TBasic k defined) inv out)
   else assign unrepresentable (TBasic k defined) inv out = (Failed ErrTruncate, out))
  /\ (k = KFloat32 ->
      (exists w, binary32 w = true /\ F64.same_number v w = true
                 /\ commits defined out (VFloat32 w)
                      (assign unrepresentable (TBasic k defined) inv out))
      \/ ((forall w, binary32 w = true -> F64.same_number v w = false)
          /\ assign unrepresentable (TBasic k defined) inv out = (Failed ErrTruncate, out)))
  /\ (forall ik : IntKind, k = KInteger ik ->
        ((exists z, int_fits ik z = true /\ F64.same_number v (F64.of_int z) = true
                    /\ commits defined out (VInt z)
                         (assign unrepresentable (TBasic k defined) inv out))
         \/ assign unrepresentable (TBasic k defined) inv out = (Failed ErrTruncate, out))
        /\ (forall n : Z,
              whole v n = true -> int_fits ik n = true -> Z.abs n < 2 ^ 53 ->
              commits defined out (VInt n)
                (assign unrepresentable (TBasic k defined) inv out))
        /\ (int_bits ik <= 32 ->
            (forall n : Z, whole v n = true -> int_fits ik n = false) ->
            assign unrepresentable (TBasic k defined) inv out = (Failed ErrTruncate, out)))
  /\ (forall ik : IntKind,
        assign unrepresentable (TBasic (KInteger ik) defined)
          (RConcrete (Number three_and_a_half)) out
        = (Failed ErrTruncate, out)
        /\ commits defined out (VInt 3)
             (assign unrepresentable (TBasic (KInteger ik) defined)
                (RConcrete (Number three)) out))
  /\ assign unrepresentable (TBasic (KInteger Int8) true) (RConcrete (Number three)) (VInt 0)
     = (Panicked "reflect.Set: value is not assignable to the type of out", VInt 0).
Proof.
  intros Hk Hin Hv.
  pose proof (assign_narrower unrepresentable k defined inv v out Hk Hin Hv) as Hassign.
  split; [|split; [|split; [|split]]].
  - rewrite Hassign. destruct (F64.same_number v _); [apply Set_basic_commits|reflexivity].
  - intros ->. rewrite Hassign. cbn [cast cast_back].
    destruct (F64.same_number v (F64.of_float32 (F64.to_float32 v))) eqn:Hs.
    + left. exists (F64.to_float32 v).
      destruct (float32_sound v Hv Hs) as [Hb Hsame].
      split; [exact Hb|]. split; [exact Hsame|apply Set_basic_commits].
    + right. split; [|reflexivity].
      intros w Hw. destruct (F64.same_number v w) eqn:Hvw; [|reflexivity].
      rewrite (float32_complete v w Hv Hw Hvw) in Hs. discriminate.
  - intros ik ->. rewrite Hassign. cbn [cast cast_back].
    pose proof (to_int_fits unrepresentable ik v) as Hz.
    split; [|split].
    + destruct (F64.same_number v (F64.of_int (to_int unrepresentable ik v))) eqn:Hs.
      * left. exists (to_int unrepresentable ik v).
        split; [exact Hz|]. split; [exact Hs|apply Set_basic_commits].
      * right. reflexivity.
    + intros n Hw Hf Hb.
      assert (Hto : to_int unrepresentable ik v = n).
      { unfold to_int. rewrite (whole_trunc v n Hw), Hf. reflexivity. }
      rewrite Hto, (same_number_of_int v n Hb), Hw. apply Set_basic_commits.
    + intros Hbits Hnone.
      rewrite (same_number_of_int v _ (int_fits_narrow ik _ Hbits Hz)).
      destruct (whole v (to_int unrepresentable ik v)) eqn:Hw; [|reflexivity].
      rewrite (Hnone _ Hw) in Hz. discriminate.
  - intros ik. split.
    + destruct ik; vm_compute; reflexivity.
    + destruct ik, defined; cbn [commits]; first [split|idtac]; vm_compute; reflexivity.
  - vm_compute. reflexivity.
Qed.

(** An instance of C4: the number 3 read into a variable of the defined
    type [type Age int8]. *)
Lemma C4_witness :
  narrower (KInteger Int8) = true
  /\ as_float64 (RConcrete (Number three)) = Some three
  /\ F64.finite three = true
  /\ F64.same_number three (cast_back SampleCodec.unrepresentable (KInteger Int8) three) = true
  /\ is_panic (fst (assign SampleCodec.unrepresentable (TBasic (KInteger Int8) true)
                      (RConcrete (Number three)) (VInt 7))) = true
  /\ snd (assign SampleCodec.unrepresentable (TBasic (KInteger Int8) true)
            (RConcrete (Number three)) (VInt 7)) = VInt 7.
Proof.
  split; [reflexivity|]. split; [reflexivity|]. split; [reflexivity|].
  split; [vm_compute; reflexivity|].
  exact (proj1 (C4_narrowing_is_checked_and_defined_types_panic SampleCodec.unrepresentable
                  (KInteger Int8) true (RConcrete (Number three)) three (VInt 7)
                  eq_refl eq_refl eq_refl)).
Defined.

(** 0.5 and 16777216 are binary32 numbers; 0.1 (the float64 nearest to
    it) and 16777217 are not. *)
Example float32_samples unrepresentable out :
  fst (assign unrepresentable (TBasic KFloat32 false)
         (RConcrete (Number (binary_normalize F64.prec F64.emax 1 (-1) false))) out) = Ok
  /\ fst (assign unrepresentable (TBasic KFloat32 false)
            (RConcrete (Number (F64.of_int 16777216))) out) = Ok
  /\ assign unrepresentable (TBasic KFloat32 false)
       (RConcrete (Number (binary_normalize F64.prec F64.emax 7205759403792794 (-56) false)))
       out
     = (Failed ErrTruncate, out)
  /\ assign unrepresentable (TBasic KFloat32 false)
       (RConcrete (Number (F64.of_int 16777217))) out
     = (Failed ErrTruncate, out).
Proof. repeat split; vm_compute; reflexivity. Qed.

(** ** The locator of a write *)

(** In write mode [find] returns a container with a key of its kind: the
    last case of the switch in [Set] is not reached. *)
Lemma walk_key_locator cur keyv i key tgt :
  walk_key true true cur keyv i = inr (key, tgt) ->
  (exists mi k, result tgt = Object mi /\ key = KeyField k)
  \/ (exists si, result tgt = Array si /\ key = KeyIndex i
                 /\ 0 <= i < Z.of_nat (length si)).
Proof.
  unfold walk_key. cbn [andb]. intros H.
  destruct (String.eqb keyv "").
  - destruct (result cur) as [| | | |si|] eqn:Hres; try discriminate.
    destruct ((i <? 0) || (Z.of_nat (length si) <=? i)) eqn:Hi; [discriminate|].
    inversion H; subst. right. exists si.
    apply orb_false_iff in Hi as [H1 H2].
    apply Z.ltb_ge in H1. apply Z.leb_gt in H2. auto.
  - destruct (result cur) as [| | | | |mi] eqn:Hres; try discriminate.
    rewrite andb_true_r in H.
    destruct (i <? 0) eqn:Hneg.
    + inversion H; subst. left. exists mi, keyv. auto.
    + destruct (mi !! keyv) as [iv|]; [|discriminate].
      replace (-1 <? i) with true in H
        by (symmetry; apply Z.ltb_lt; apply Z.ltb_ge in Hneg; lia).
      destruct iv as [| | | |sv|]; try discriminate.
      destruct (Z.of_nat (length sv) <=? i) eqn:Hlen; [discriminate|].
      inversion H; subst. right. exists sv. cbn [result].
      apply Z.ltb_ge in Hneg. apply Z.leb_gt in Hlen. auto.
Qed.

Lemma find_locator j path key tgt :
  find j path true = inr (key, tgt) ->
  (exists mi k, result tgt = Object mi /\ key = KeyField k)
  \/ (exists si i, result tgt = Array si /\ key = KeyIndex i
                   /\ 0 <= i < Z.of_nat (length si)).
Proof.
  unfold find.
  destruct (length (GoStrings.Split path ".") =? 0)%nat; [discriminate|].
  destruct (existsb _ _); [discriminate|].
  pose proof (Split_nonempty path ".") as Hne.
  destruct (exists_last Hne) as (ks & k & ->).
  change (ks ++ [k])%list with (ks ++ k :: [])%list.
  rewrite find_loop_app.
  destruct (find_loop false ks _) as [e|[k0 cur0]]; [discriminate|].
  rewrite find_loop_single. unfold find_step.
  destruct (parse_key k) as [[f i]|]; [|discriminate].
  intros H. destruct (walk_key_locator _ _ _ _ _ H) as [Hm|(si & Hs)]; [left; exact Hm|].
  right. exists si, i. exact Hs.
Qed.

(** [Set] ends in one of four ways: an error, nil, or the panic of
    reflect on a value that decodes to null; never the panic of its own
    switch. *)
Lemma Set_never_reaches_default
  (CodecError : Type)
  (json_Unmarshal : string -> CodecError + Value)
  (json_Encode : GoType -> GoVal -> CodecError + string)
  (j : JSON) (path : string) (in_ : InArg) :
  fst (Set_ CodecError json_Unmarshal json_Encode j path in_)
  <> Panicked "this shouldn't happen: parent value not map or slice"
  /\ fst (Set_ CodecError json_Unmarshal json_Encode j path in_)
     <> Panicked "reflect: key of the wrong kind".
Proof.
  unfold Set_. destruct in_ as [|t x]; [split; discriminate|].
  destruct (find j path true) as [e|[key tgt]] eqn:Hfind; [split; discriminate|].
  destruct (json_Encode t x) as [e|buff]; [split; discriminate|].
  destruct (json_Unmarshal buff) as [e|ifc]; [split; discriminate|].
  destruct (find_locator j path key tgt Hfind)
    as [(mi & k & -> & ->)|(si & i & -> & -> & _)].
  - split; discriminate.
  - destruct (IsValid (ValueOf ifc)); split; discriminate.
Qed.

(** ** The scenario of the README *)

Example planets_moons :
  Get SampleCodec.unrepresentable planets "planets[1].moons"
    (OutPointer (TBasic (KInteger Int64) false) (VInt 0))
  = (Ok, OutPointer (TBasic (KInteger Int64) false) (VInt 27)).
Proof. vm_compute. reflexivity. Qed.

Example planets_len : Len planets "planets" = (2, None).
Proof. reflexivity. Qed.

Example planets_rename :
  Set_ string SampleCodec.Unmarshal SampleCodec.Encode planets "planets[0].name"
    (InValue (TBasic KString false) (VString "Jenifer Lawrence"))
  = (Ok, {| intf := Object (<["planets" :=
       Array [Object (<["name" := Str "Jenifer Lawrence"]>
                        (<["moons" := Number (F64.of_int 62)]> ∅));
              Object (<["name" := Str "Uranus"]>
                        (<["moons" := Number (F64.of_int 27)]> ∅))]]> ∅) |}).
Proof. vm_compute. reflexivity. Qed.

Example planets_overwrite :
  Set_ string SampleCodec.Unmarshal SampleCodec.Encode planets "planets[0]"
    (InValue (TBasic KBool false) (VBool true))
  = (Ok, {| intf := Object (<["planets" :=
       Array [Bool true;
              Object (<["name" := Str "Uranus"]>
                        (<["moons" := Number (F64.of_int 27)]> ∅))]]> ∅) |}).
Proof. vm_compute. reflexivity. Qed.

(** * Further properties *)

(** ** Paths compose *)

(** X1.  Paths compose: where a read of the prefix arrives at a value,
    resolving the whole path, in either mode, is resolving the rest of
    the path in the document made of that value. *)
Theorem X1_paths_compose
  (j : JSON) (parent : bool) (pre post : list string) (cur : Cursor) :
  reach j pre = Some cur ->
  post <> [] ->
  find j (join (pre ++ post)) parent
  = relocate (address cur) (find {| intf := result cur |} (join post) parent).
Proof.
  intros Hreach Hpost.
  destruct (reach_loop j pre cur Hreach) as (Hpre & k & Hloop).
  assert (Hkeys : GoStrings.Split (join (pre ++ post)) "."
                  = (keys_of pre ++ keys_of post)%list).
  { rewrite <- keys_of_app. destruct pre, post; try contradiction; reflexivity. }
  assert (Hpk : GoStrings.Split (join post) "." = keys_of post)
    by (destruct post; [contradiction|reflexivity]).
  pose proof (Split_nonempty (join post) ".") as Hne. rewrite Hpk in Hne.
  unfold find. rewrite Hkeys, Hpk. cbn [intf].
  replace (length (keys_of pre ++ keys_of post) =? 0)%nat with false
    by (symmetry; apply Nat.eqb_neq; rewrite List.length_app;
        destruct (keys_of post); [contradiction|simpl; lia]).
  replace (length (keys_of post) =? 0)%nat with false
    by (symmetry; apply Nat.eqb_neq; destruct (keys_of post); [contradiction|simpl; lia]).
  rewrite existsb_empty_app, Hpre. cbn [orb].
  destruct (existsb _ (keys_of post)); [reflexivity|].
  destruct (keys_of post) as [|p ps]; [contradiction|].
  rewrite find_loop_app, Hloop.
  destruct cur as [v a]. cbn [result address].
  apply find_loop_relocate.
Qed.

Lemma X1_witness :
  reach sample_nested ["p"]
    = Some {| result := Object sample_inner; address := [ByField "p"] |}
  /\ ["a[1]"] <> []
  /\ find sample_nested "p.a[1]" true
     = relocate [ByField "p"] (find {| intf := Object sample_inner |} "a[1]" true).
Proof.
  split; [reflexivity|].
  assert (H : ["a[1]"] <> []) by discriminate.
  split; [exact H|].
  exact (X1_paths_compose sample_nested true ["p"] ["a[1]"]
           {| result := Object sample_inner; address := [ByField "p"] |} eq_refl H).
Defined.

(** ** Steps that resolve *)

(** X2.  An index within the bounds of the array it is applied to
    resolves to the element at that index: a read returns the element,
    a write locates it in the array.  The same holds for the index of a
    step [f[n]], applied to the array under field [f]. *)
Theorem X2_index_within_bounds_resolves
  (j : JSON) (pre : list string) (cur : Cursor) (n : string) (i : Z)
  (l : list Value) (x : Value) :
  reach j pre = Some cur ->
  Strconv.Atoi n = Some i ->
  0 <= i -> l !! Z.to_nat i = Some x ->
  (result cur = Array l ->
     find j (join (pre ++ ["[" ++ n ++ "]"])) false
     = inr (KeyNone, {| result := x;
                        address := (address cur ++ [ByIndex (Z.to_nat i)])%list |})
     /\ find j (join (pre ++ ["[" ++ n ++ "]"])) true = inr (KeyIndex i, cur))
  /\ (forall (f : string) (mi : gmap string Value),
        f <> "" -> occurs "." f = false ->
        result cur = Object mi -> mi !! f = Some (Array l) ->
        find j (join (pre ++ [f ++ "[" ++ n ++ "]"])) false
        = inr (KeyNone, {| result := x;
                           address := (address cur ++ [ByField f; ByIndex (Z.to_nat i)])%list |})
        /\ find j (join (pre ++ [f ++ "[" ++ n ++ "]"])) true
           = inr (KeyIndex i, {| result := Array l;
                                 address := (address cur ++ [ByField f])%list |})).
Proof.
  intros Hreach Hn Hi Hx.
  destruct (Atoi_no_bracket n i Hn) as (_ & _ & Hdot).
  assert (Hlen : (i <? 0) = false /\ (Z.of_nat (length l) <=? i) = false /\ (-1 <? i) = true).
  { apply lookup_lt_Some in Hx. repeat split.
    - apply Z.ltb_ge. lia.
    - apply Z.leb_gt. lia.
    - apply Z.ltb_lt. lia. }
  destruct Hlen as (H1 & H2 & H3).
  split.
  - intros Hres.
    assert (Hstep : forall parent, find j (join (pre ++ ["[" ++ n ++ "]"])) parent
                                   = walk_key parent true cur "" i).
    { intros parent. rewrite (find_last j pre _ parent cur Hreach).
      - unfold find_step.
        rewrite (parse_key_index "" n i Hn : parse_key ("[" ++ n ++ "]") = _). reflexivity.
      - discriminate.
      - rewrite !occurs_app, Hdot. reflexivity. }
    rewrite !Hstep. unfold walk_key. cbn [String.eqb andb].
    rewrite Hres, H1, H2, Hx. split; reflexivity.
  - intros f mi Hf Hfdot Hres Hget.
    assert (Hstep : forall parent, find j (join (pre ++ [f ++ "[" ++ n ++ "]"])) parent
                                   = walk_key parent true cur f i).
    { intros parent. rewrite (find_last j pre _ parent cur Hreach).
      - unfold find_step. rewrite (parse_key_index f n i Hn). reflexivity.
      - destruct f; discriminate.
      - rewrite !occurs_app, Hfdot, Hdot. reflexivity. }
    rewrite !Hstep. unfold walk_key.
    rewrite (not_empty_eqb f Hf), Hres, Hget, H1, H2, H3, Hx. cbn [andb].
    rewrite <- app_assoc. split; reflexivity.
Qed.

Lemma X2_witness :
  reach sample_nested ["p"]
    = Some {| result := Object sample_inner; address := [ByField "p"] |}
  /\ Strconv.Atoi "1" = Some 1
  /\ 0 <= 1
  /\ [Null; Null] !! Z.to_nat 1 = Some Null
  /\ find sample_nested "p.a[1]" false
     = inr (KeyNone, {| result := Null;
                        address := [ByField "p"; ByField "a"; ByIndex 1] |})
  /\ find sample_nested "p.a[1]" true
     = inr (KeyIndex 1, {| result := Array [Null; Null];
                           address := [ByField "p"; ByField "a"] |}).
Proof.
  split; [reflexivity|]. split; [reflexivity|].
  assert (H : 0 <= 1) by lia.
  split; [exact H|]. split; [reflexivity|].
  refine (proj2 (X2_index_within_bounds_resolves sample_nested ["p"]
                   {| result := Object sample_inner; address := [ByField "p"] |}
                   "1" 1 [Null; Null] Null eq_refl eq_refl H eq_refl)
            "a" sample_inner _ eq_refl eq_refl eq_refl).
  discriminate.
Defined.

(** ** Empty segments *)

(** X3.  A path with an empty segment is rejected with ErrInvalidPath
    before the document is looked at: the empty path, a path that
    begins or ends with a dot, a path with two dots in a row. *)
Theorem X3_empty_segment_is_invalid
  (j : JSON) (parent : bool) (a b : string) :
  find j "" parent = inl ErrInvalidPath
  /\ find j ("." ++ a) parent = inl ErrInvalidPath
  /\ find j (a ++ ".") parent = inl ErrInvalidPath
  /\ find j (a ++ ".." ++ b) parent = inl ErrInvalidPath.
Proof.
  assert (H : forall l1 l2 : list string,
            (if (length (l1 ++ "" :: l2) =? 0)%nat then inl ErrInvalidPath
             else if existsb (fun v => String.eqb v "") (l1 ++ "" :: l2)
                  then inl ErrInvalidPath
                  else find_loop parent (l1 ++ "" :: l2) {| result := intf j; address := [] |})
            = (inl ErrInvalidPath : FindResult)).
  { intros l1 l2.
    destruct (length (l1 ++ "" :: l2) =? 0)%nat; [reflexivity|].
    rewrite existsb_empty_app. cbn [existsb String.eqb]. rewrite orb_true_r. reflexivity. }
  split; [reflexivity|]. split; [reflexivity|]. split.
  - unfold find. change (a ++ ".") with (a ++ String "." "").
    rewrite Split_app. exact (H _ []).
  - unfold find. change (a ++ ".." ++ b) with (a ++ String "." ("." ++ b)).
    rewrite Split_app.
    change (GoStrings.Split ("." ++ b) ".") with ("" :: GoStrings.Split b ".").
    exact (H _ _).
Qed.

(** ** Reading after a write *)

Lemma write_at_app a b new root :
  write_at (a ++ b) new root
  = match read_at a root with
    | Some sub => write_at a (write_at b new sub) root
    | None => root
    end.
Proof.
  revert root. induction a as [|h a IH]; intros root; [reflexivity|].
  destruct h as [k|i]; cbn [app write_at read_at];
    destruct root as [| | | |l|m]; try reflexivity.
  - destruct (m !! k) as [c|] eqn:E; [|reflexivity]. cbn. rewrite IH.
    destruct (read_at a c); [reflexivity|].
    f_equal. apply insert_id. exact E.
  - destruct (l !! i) as [c|] eqn:E; [|reflexivity]. cbn. rewrite IH.
    destruct (read_at a c); [reflexivity|].
    f_equal. apply list_insert_id. exact E.
Qed.

(** One step of a read, taken again after the value it arrived at has
    been replaced, arrives at the replacement. *)
Lemma walk_key_after_write last v keyv i key v1 d1 new :
  walk_key false last {| result := v; address := [] |} keyv i
    = inr (key, {| result := v1; address := d1 |}) ->
  walk_key false last {| result := write_at d1 new v; address := [] |} keyv i
    = inr (key, {| result := new; address := d1 |}).
Proof.
  unfold walk_key. cbn [result address andb app]. rewrite !andb_false_r.
  destruct (String.eqb keyv "").
  - destruct v as [| | | |si|]; try discriminate.
    destruct ((i <? 0) || (Z.of_nat (length si) <=? i)) eqn:Hi; [discriminate|].
    destruct (si !! Z.to_nat i) as [x|] eqn:Hx; [|discriminate].
    intros H. inversion H; subst. cbn [write_at]. rewrite Hx. cbn [write_at].
    rewrite length_insert, Hi.
    rewrite list_lookup_insert_eq by (apply lookup_lt_Some in Hx; exact Hx).
    reflexivity.
  - destruct v as [| | | | |mi]; try discriminate.
    destruct (mi !! keyv) as [iv|] eqn:Hiv; [|discriminate].
    destruct (-1 <? i).
    + destruct iv as [| | | |sv|]; try discriminate.
      destruct (Z.of_nat (length sv) <=? i) eqn:Hlen; [discriminate|].
      destruct (sv !! Z.to_nat i) as [x|] eqn:Hx; [|discriminate].
      intros H. inversion H; subst. cbn [write_at]. rewrite Hiv. cbn [write_at].
      rewrite Hx. cbn [write_at]. rewrite lookup_insert_eq.
      rewrite length_insert, Hlen.
      rewrite list_lookup_insert_eq by (apply lookup_lt_Some in Hx; exact Hx).
      reflexivity.
    + intros H. inversion H; subst. cbn [write_at]. rewrite Hiv. cbn [write_at].
      rewrite lookup_insert_eq. reflexivity.
Qed.

(** A read walk, taken again after the value it arrived at has been
    replaced, arrives at the replacement. *)
Lemma find_loop_after_write keys : forall v key v1 d1 new,
  find_loop false keys {| result := v; address := [] |}
    = inr (key, {| result := v1; address := d1 |}) ->
  find_loop false keys {| result := write_at d1 new v; address := [] |}
    = inr (key, {| result := new; address := d1 |}).
Proof.
  induction keys as [|k keys IH]; intros v key v1 d1 new H.
  - cbn in *. inversion H; subst. reflexivity.
  - cbn [find_loop] in *. unfold find_step in *.
    destruct (parse_key k) as [[f i]|]; [|discriminate].
    destruct (walk_key false _ {| result := v; address := [] |} f i)
      as [e|[k1 [v2 d2]]] eqn:Hstep; [discriminate|].
    destruct keys as [|k' keys].
    + inversion H; subst.
      rewrite (walk_key_after_write _ _ _ _ _ _ _ new Hstep). reflexivity.
    + rewrite find_loop_relocate in H.
      destruct (find_loop false (k' :: keys) {| result := v2; address := [] |})
        as [e|[k3 [v3 d3]]] eqn:Hrest; [discriminate|].
      cbn [relocate result address] in H. inversion H; subst.
      pose proof (walk_key_addressed v false false _ _ _ _ _ (eq_refl : well_addressed v
                    {| result := v; address := [] |}) Hstep) as Hread.
      unfold well_addressed in Hread. cbn [result address] in Hread.
      rewrite write_at_app, Hread.
      rewrite (walk_key_after_write _ _ _ _ _ _ _ (write_at d3 new v2) Hstep).
      rewrite find_loop_relocate, (IH _ _ _ _ new Hrest). reflexivity.
Qed.

(** After the container that a write located has been replaced by
    [new], a read of the same keys looks the key up in [new]. *)
Lemma read_after_write_loop ks k root key tgt new :
  find_loop true (ks ++ [k]) {| result := root; address := [] |} = inr (key, tgt) ->
  find_loop false (ks ++ [k])
    {| result := write_at (address tgt) new root; address := [] |}
  = peek new key (address tgt).
Proof.
  change (ks ++ [k])%list with (ks ++ k :: [])%list.
  rewrite !find_loop_app.
  destruct (find_loop false ks {| result := root; address := [] |})
    as [e|[k0 [v0 d0]]] eqn:Hpre; [discriminate|].
  pose proof (find_loop_addressed root false ks _ _ _
                (eq_refl : well_addressed root {| result := root; address := [] |}) Hpre)
    as Haddr.
  unfold well_addressed in Haddr. cbn [result address] in Haddr.
  rewrite find_loop_single. unfold find_step.
  destruct (parse_key k) as [[f i]|] eqn:Hparse; [|discriminate].
  unfold walk_key. cbn [result address andb].
  destruct (String.eqb f "") eqn:Hf.
  - destruct v0 as [| | | |si|]; try discriminate.
    destruct ((i <? 0) || (Z.of_nat (length si) <=? i)) eqn:Hi; [discriminate|].
    intros H. inversion H; subst. cbn [result address].
    rewrite (find_loop_after_write ks _ _ _ _ new Hpre).
    rewrite find_loop_single. unfold find_step. rewrite Hparse.
    unfold walk_key, peek. cbn [result address andb]. rewrite Hf.
    apply orb_false_iff in Hi as [H1 _]. apply Z.ltb_ge in H1.
    destruct new as [| | | |l'|]; try reflexivity.
    replace (i <? 0) with false by (symmetry; apply Z.ltb_ge; lia). cbn [orb].
    destruct (Z.of_nat (length l') <=? i) eqn:Hlen.
    + apply Z.leb_le in Hlen. rewrite lookup_ge_None_2 by lia. reflexivity.
    + destruct (l' !! Z.to_nat i); reflexivity.
  - destruct v0 as [| | | | |mi]; try discriminate.
    rewrite andb_true_r.
    destruct (i <? 0) eqn:Hneg.
    + intros H. inversion H; subst. cbn [result address].
      rewrite (find_loop_after_write ks _ _ _ _ new Hpre).
      rewrite find_loop_single. unfold find_step. rewrite Hparse.
      unfold walk_key, peek. cbn [result address andb]. rewrite Hf, andb_false_r.
      destruct new as [| | | | |m']; try reflexivity.
      destruct (m' !! f); [|reflexivity].
      replace (-1 <? i) with false
        by (symmetry; apply Z.ltb_ge; apply Z.ltb_lt in Hneg; lia).
      reflexivity.
    + destruct (mi !! f) as [iv|] eqn:Hiv; [|discriminate].
      replace (-1 <? i) with true
        by (symmetry; apply Z.ltb_lt; apply Z.ltb_ge in Hneg; lia).
      destruct iv as [| | | |sv|]; try discriminate.
      destruct (Z.of_nat (length sv) <=? i) eqn:Hlen; [discriminate|].
      intros H. inversion H; subst. cbn [result address].
      rewrite write_at_app, Haddr. cbn [write_at]. rewrite Hiv. cbn [write_at].
      rewrite (find_loop_after_write ks _ _ _ _ (Object (<[f := new]> mi)) Hpre).
      rewrite find_loop_single. unfold find_step. rewrite Hparse.
      unfold walk_key, peek. cbn [result address andb]. rewrite Hf, andb_false_r.
      rewrite lookup_insert_eq.
      replace (-1 <? i) with true
        by (symmetry; apply Z.ltb_lt; apply Z.ltb_ge in Hneg; lia).
      apply Z.ltb_ge in Hneg.
      destruct new as [| | | |l'|]; try reflexivity.
      destruct (Z.of_nat (length l') <=? i) eqn:Hlen'.
      * apply Z.leb_le in Hlen'. rewrite lookup_ge_None_2 by lia. reflexivity.
      * destruct (l' !! Z.to_nat i); [|reflexivity].
        rewrite <- app_assoc. reflexivity.
Qed.

(** What [Set] leaves in the document, read again at the same path. *)
Lemma Set_then_find
  (CodecError : Type)
  (json_Unmarshal : string -> CodecError + Value)
  (json_Encode : GoType -> GoVal -> CodecError + string)
  (j j' : JSON) (path : string) (t : GoType) (x : GoVal) :
  Set_ CodecError json_Unmarshal json_Encode j path (InValue t x) = (Ok, j') ->
  exists key tgt buff ifc,
    find j path true = inr (key, tgt)
    /\ json_Encode t x = inr buff /\ json_Unmarshal buff = inr ifc
    /\ find j' path false
       = peek (match result tgt with
               | Object m => Object (SetMapIndex m match key with KeyField k => k | _ => "" end
                                       (ValueOf ifc))
               | Array l => Array (<[Z.to_nat match key with KeyIndex i => i | _ => 0 end := ifc]> l)
               | c => c
               end) key (address tgt).
Proof.
  unfold Set_.
  destruct (find j path true) as [e|[key tgt]] eqn:Hfind; [discriminate|].
  destruct (json_Encode t x) as [e|buff] eqn:Henc; [discriminate|].
  destruct (json_Unmarshal buff) as [e|ifc] eqn:Hdec; [discriminate|].
  intros H. exists key, tgt, buff, ifc.
  split; [reflexivity|]. split; [reflexivity|]. split; [exact Hdec|].
  assert (Hloop : forall new,
            intf j' = write_at (address tgt) new (intf j) ->
            find j' path false = peek new key (address tgt)).
  { intros new Hj'. unfold find in *.
    destruct (length (GoStrings.Split path ".") =? 0)%nat; [discriminate|].
    destruct (existsb _ _); [discriminate|].
    pose proof (Split_nonempty path ".") as Hne.
    destruct (exists_last Hne) as (ks & k & Hks). rewrite Hks in *.
    rewrite Hj'. exact (read_after_write_loop ks k (intf j) key tgt new Hfind). }
  destruct (result tgt), key; try discriminate.
  - destruct (IsValid (ValueOf ifc)); [|discriminate].
    inversion H; subst. apply Hloop. reflexivity.
  - inversion H; subst. apply Hloop. reflexivity.
Qed.

(** What [Set] stored is what a read of the same path finds. *)
Lemma Set_then_reads
  (CodecError : Type)
  (json_Unmarshal : string -> CodecError + Value)
  (json_Encode : GoType -> GoVal -> CodecError + string)
  (j j' : JSON) (path : string) (t : GoType) (x : GoVal)
  (buff : string) (ifc : Value) :
  json_Encode t x = inr buff ->
  json_Unmarshal buff = inr ifc ->
  ifc <> Null ->
  Set_ CodecError json_Unmarshal json_Encode j path (InValue t x) = (Ok, j') ->
  exists cur, find j' path false = inr (KeyNone, cur) /\ result cur = ifc.
Proof.
  intros Henc Hdec Hnn H.
  destruct (Set_then_find _ _ _ _ _ _ _ _ H)
    as (key & tgt & buff' & ifc' & Hfind & Henc' & Hdec' & Hread).
  rewrite Henc in Henc'. inversion Henc'; subst buff'.
  rewrite Hdec in Hdec'. inversion Hdec'; subst ifc'.
  assert (Hv : ValueOf ifc = RConcrete ifc)
    by (destruct ifc; first [reflexivity | contradiction]).
  rewrite Hread.
  destruct (find_locator j path key tgt Hfind)
    as [(mi & k & Hres & ->)|(si & i & Hres & -> & Hi)]; rewrite Hres.
  - rewrite Hv. unfold SetMapIndex, peek. cbn [Interface].
    rewrite lookup_insert_eq. eexists. split; reflexivity.
  - unfold peek. rewrite list_lookup_insert_eq by lia.
    eexists. split; reflexivity.
Qed.

(** X4.  What [Set] stored is what a read of the same path finds: when
    [Set] returns nil for a value whose encoding decodes to [ifc], not
    null, resolving the path in the document afterwards yields [ifc],
    whatever was there before. *)
Theorem X4_set_then_read
  (CodecError : Type)
  (json_Unmarshal : string -> CodecError + Value)
  (json_Encode : GoType -> GoVal -> CodecError + string)
  (j j' : JSON) (path : string) (t : GoType) (x : GoVal)
  (buff : string) (ifc : Value) :
  json_Encode t x = inr buff ->
  json_Unmarshal buff = inr ifc ->
  ifc <> Null ->
  Set_ CodecError json_Unmarshal json_Encode j path (InValue t x) = (Ok, j') ->
  exists cur, find j' path false = inr (KeyNone, cur) /\ result cur = ifc.
Proof. apply Set_then_reads. Qed.

Lemma X4_witness :
  SampleCodec.Encode (TBasic KString false) (VString "moon")
    = inr (SampleCodec.quote ++ "moon" ++ SampleCodec.quote ++ SampleCodec.newline)
  /\ SampleCodec.Unmarshal
       (SampleCodec.quote ++ "moon" ++ SampleCodec.quote ++ SampleCodec.newline)
     = inr (Str "moon")
  /\ Str "moon" <> Null
  /\ exists cur,
       find (snd (Set_ string SampleCodec.Unmarshal SampleCodec.Encode sample_flag "k"
                    (InValue (TBasic KString false) (VString "moon"))))
            "k" false
       = inr (KeyNone, cur)
       /\ result cur = Str "moon".
Proof.
  split; [reflexivity|]. split; [reflexivity|].
  assert (H : Str "moon" <> Null) by discriminate.
  split; [exact H|].
  refine (X4_set_then_read string SampleCodec.Unmarshal SampleCodec.Encode
            sample_flag _ "k" (TBasic KString false) (VString "moon")
            (SampleCodec.quote ++ "moon" ++ SampleCodec.quote ++ SampleCodec.newline)
            (Str "moon") eq_refl eq_refl H _).
  vm_compute. reflexivity.
Defined.

(** X5.  A value whose encoding decodes to null, set at a field of an
    object, leaves the object without that field: [Set] returns nil
    and a read of the path afterwards is ErrNotFound, whether the
    object had the field or not. *)
Theorem X5_set_null_removes_field
  (CodecError : Type)
  (json_Unmarshal : string -> CodecError + Value)
  (json_Encode : GoType -> GoVal -> CodecError + string)
  (j : JSON) (path : string) (key : Key) (tgt : Cursor) (mi : gmap string Value)
  (t : GoType) (x : GoVal) (buff : string) :
  find j path true = inr (key, tgt) ->
  result tgt = Object mi ->
  json_Encode t x = inr buff ->
  json_Unmarshal buff = inr Null ->
  fst (Set_ CodecError json_Unmarshal json_Encode j path (InValue t x)) = Ok
  /\ find (snd (Set_ CodecError json_Unmarshal json_Encode j path (InValue t x)))
          path false
     = inl ErrNotFound.
Proof.
  intros Hfind Hres Henc Hdec.
  destruct (Set_ CodecError json_Unmarshal json_Encode j path (InValue t x))
    as [st j'] eqn:Hset.
  assert (Hst : st = Ok).
  { unfold Set_ in Hset. rewrite Hfind, Henc, Hdec, Hres in Hset.
    destruct (find_locator j path key tgt Hfind)
      as [(m0 & k & _ & ->)|(si & i & Hres' & _)]; [|congruence].
    inversion Hset. reflexivity. }
  subst st. split; [reflexivity|]. cbn [snd].
  destruct (Set_then_find _ _ _ _ _ _ _ _ Hset)
    as (key' & tgt' & buff' & ifc' & Hfind' & Henc' & Hdec' & Hread).
  rewrite Hfind in Hfind'. inversion Hfind'; subst key' tgt'.
  rewrite Henc in Henc'. inversion Henc'; subst buff'.
  rewrite Hdec in Hdec'. inversion Hdec'; subst ifc'.
  rewrite Hread, Hres.
  destruct (find_locator j path key tgt Hfind)
    as [(m0 & k & _ & ->)|(si & i & Hres' & _)]; [|congruence].
  unfold peek, SetMapIndex. cbn [ValueOf Interface]. rewrite lookup_delete_eq. reflexivity.
Qed.

Lemma X5_witness :
  find sample_nested "p.b" true
    = inr (KeyField "b", {| result := Object sample_inner; address := [ByField "p"] |})
  /\ SampleCodec.Encode (TSlice (TBasic KString false)) (VSlice None)
     = inr ("null" ++ SampleCodec.newline)
  /\ SampleCodec.Unmarshal ("null" ++ SampleCodec.newline) = inr Null
  /\ fst (Set_ string SampleCodec.Unmarshal SampleCodec.Encode sample_nested "p.b"
            (InValue (TSlice (TBasic KString false)) (VSlice None))) = Ok
  /\ find (snd (Set_ string SampleCodec.Unmarshal SampleCodec.Encode sample_nested "p.b"
                  (InValue (TSlice (TBasic KString false)) (VSlice None))))
          "p.b" false
     = inl ErrNotFound.
Proof.
  split; [reflexivity|]. split; [reflexivity|]. split; [reflexivity|].
  exact (X5_set_null_removes_field string SampleCodec.Unmarshal SampleCodec.Encode
           sample_nested "p.b" (KeyField "b")
           {| result := Object sample_inner; address := [ByField "p"] |} sample_inner
           (TSlice (TBasic KString false)) (VSlice None) ("null" ++ SampleCodec.newline)
           eq_refl eq_refl eq_refl eq_refl).
Defined.

(** ** What a write leaves alone *)

Lemma reach_after_write j pre cur new :
  reach j pre = Some cur ->
  reach {| intf := write_at (address cur) new (intf j) |} pre
  = Some {| result := new; address := address cur |}.
Proof.
  intros Hreach. destruct pre as [|p pre].
  - cbn in *. inversion Hreach. reflexivity.
  - cbn [reach] in *. unfold find in *. cbn [intf].
    destruct (length _ =? 0)%nat; [discriminate|].
    destruct (existsb _ _); [discriminate|].
    destruct (find_loop false _ _) as [e|[k [v d]]] eqn:Hloop; [discriminate|].
    inversion Hreach; subst cur. cbn [address].
    rewrite (find_loop_after_write _ _ _ _ _ new Hloop). reflexivity.
Qed.

(** A read through the field [s] of an object looks at that field of
    the object only. *)
Lemma find_through_field j j' pre s post a mi mi' :
  reach j pre = Some {| result := Object mi; address := a |} ->
  reach j' pre = Some {| result := Object mi'; address := a |} ->
  occurs "[" s = false -> occurs "." s = false ->
  mi' !! s = mi !! s ->
  find j' (join (pre ++ s :: post)) false = find j (join (pre ++ s :: post)) false.
Proof.
  intros Hr Hr' Hb Hd Hlook.
  destruct (reach_loop j pre _ Hr) as (Hpre & k & Hloop).
  destruct (reach_loop j' pre _ Hr') as (_ & k' & Hloop').
  assert (Hkeys : GoStrings.Split (join (pre ++ s :: post)) "."
                  = (keys_of pre ++ s :: keys_of post)%list).
  { transitivity (keys_of (pre ++ [s] ++ post)); [destruct pre; reflexivity|].
    rewrite !keys_of_app, (keys_of_single _ Hd). reflexivity. }
  unfold find. rewrite Hkeys.
  destruct (length _ =? 0)%nat; [reflexivity|].
  destruct (existsb (fun v => String.eqb v "") (keys_of pre ++ s :: keys_of post));
    [reflexivity|].
  rewrite !find_loop_app, Hloop, Hloop'.
  cbn [find_loop]. unfold find_step. rewrite (parse_key_plain s Hb).
  unfold walk_key. cbn [result address andb]. rewrite !andb_false_r, Hlook.
  reflexivity.
Qed.

(** The address that a walk arrives at extends the one it starts from. *)
Lemma find_loop_extends parent keys v a key tgt :
  find_loop parent keys {| result := v; address := a |} = inr (key, tgt) ->
  exists d, address tgt = (a ++ d)%list.
Proof.
  rewrite find_loop_relocate.
  destruct (find_loop parent keys {| result := v; address := [] |}) as [e|[k c]];
    [discriminate|].
  cbn [relocate]. intros H. inversion H; subst. exists (address c). reflexivity.
Qed.

(** A write walk whose first step goes through the field [k] of an
    object locates that field in the object, or something under it. *)
Lemma find_loop_through_field seg ks cur mi k i key tgt :
  result cur = Object mi ->
  parse_key seg = Some (k, i) -> k <> "" ->
  find_loop true (seg :: ks) cur = inr (key, tgt) ->
  (tgt = cur /\ key = KeyField k)
  \/ (exists iv d, mi !! k = Some iv
                   /\ address tgt = (address cur ++ ByField k :: d)%list).
Proof.
  intros Hres Hparse Hk. cbn [find_loop]. unfold find_step. rewrite Hparse.
  unfold walk_key. rewrite (not_empty_eqb k Hk), Hres.
  destruct ((i <? 0) && true && match ks with [] => true | _ => false end) eqn:Hlast.
  - destruct ks; [|rewrite andb_false_r in Hlast; discriminate].
    intros H. inversion H; subst. left. split; reflexivity.
  - destruct (mi !! k) as [iv|] eqn:Hiv; [|discriminate].
    assert (Hgo : forall key0 c,
              (exists d0, address c = (address cur ++ ByField k :: d0)%list) ->
              (if match ks with [] => true | _ => false end
               then inr (key0, c) else find_loop true ks c) = inr (key, tgt) ->
              exists d, address tgt = (address cur ++ ByField k :: d)%list).
    { intros key0 c (d0 & Hc) H. destruct ks as [|k1 ks].
      - inversion H; subst. exists d0. exact Hc.
      - destruct c as [v a]. cbn [address] in Hc. subst a.
        destruct (find_loop_extends _ _ _ _ _ _ H) as (d & Hd).
        exists (d0 ++ d)%list. rewrite Hd, <- app_assoc. reflexivity. }
    intros H. right. exists iv.
    assert (Hd : exists d, address tgt = (address cur ++ ByField k :: d)%list);
      [|destruct Hd as (d & Hd); exists d; split; [reflexivity|exact Hd]].
    destruct (-1 <? i).
    + destruct iv as [| | | |sv|]; try discriminate.
      destruct (Z.of_nat (length sv) <=? i); [discriminate|].
      rewrite andb_true_l in H.
      destruct (match ks with [] => true | _ => false end) eqn:Hl.
      * inversion H; subst. exists []. reflexivity.
      * destruct (sv !! Z.to_nat i) as [x|]; [|discriminate].
        apply (Hgo KeyNone
                 {| result := x;
                    address := ((address cur ++ [ByField k]) ++ [ByIndex (Z.to_nat i)])%list |}).
        -- exists [ByIndex (Z.to_nat i)]. cbn [address]. rewrite <- app_assoc. reflexivity.
        -- exact H.
    + apply (Hgo KeyNone {| result := iv; address := (address cur ++ [ByField k])%list |}).
      * exists []. reflexivity.
      * exact H.
Qed.

(** X6.  [Set] at a field of an object, or anywhere under that field,
    leaves the other fields of the object as they were: a read of any
    path through another field returns after the [Set] what it
    returned before. *)
Theorem X6_set_leaves_sibling_fields
  (CodecError : Type)
  (json_Unmarshal : string -> CodecError + Value)
  (json_Encode : GoType -> GoVal -> CodecError + string)
  (j j' : JSON) (pre rest post : list string) (cur : Cursor) (mi : gmap string Value)
  (seg k s : string) (i : Z) (t : GoType) (x : GoVal) :
  reach j pre = Some cur ->
  result cur = Object mi ->
  occurs "." seg = false -> parse_key seg = Some (k, i) -> k <> "" ->
  occurs "." s = false -> occurs "[" s = false ->
  s <> k ->
  Set_ CodecError json_Unmarshal json_Encode j (join (pre ++ seg :: rest)) (InValue t x)
  = (Ok, j') ->
  find j' (join (pre ++ s :: post)) false = find j (join (pre ++ s :: post)) false.
Proof.
  intros Hreach Hres Hsd Hparse Hk Hd Hb Hne Hset.
  pose proof (reach_addressed j pre cur Hreach) as Haddr. unfold well_addressed in Haddr.
  assert (Hj' : exists mi', intf j' = write_at (address cur) (Object mi') (intf j)
                            /\ mi' !! s = mi !! s).
  { unfold Set_ in Hset.
    destruct (find j (join (pre ++ seg :: rest)) true) as [e|[key tgt]] eqn:Hfind;
      [discriminate|].
    assert (Hloop : find_loop true (seg :: keys_of rest) cur = inr (key, tgt)).
    { destruct (reach_loop j pre cur Hreach) as (_ & k0 & Hpre).
      unfold find in Hfind. rewrite (Split_join_at pre seg rest Hsd) in Hfind.
      destruct (length _ =? 0)%nat; [discriminate|].
      destruct (existsb _ _); [discriminate|].
      rewrite find_loop_app, Hpre in Hfind. exact Hfind. }
    destruct (json_Encode t x) as [e|buff]; [discriminate|].
    destruct (json_Unmarshal buff) as [e|ifc]; [discriminate|].
    assert (Hw : exists new, intf j' = write_at (address tgt) new (intf j)
                             /\ (tgt = cur -> key = KeyField k ->
                                 new = Object (SetMapIndex mi k (ValueOf ifc)))).
    { destruct (result tgt) eqn:Hrt, key; try discriminate.
      - destruct (IsValid (ValueOf ifc)); [|discriminate].
        inversion Hset; subst j'. eexists. split; [reflexivity|]. discriminate.
      - inversion Hset; subst j'. eexists. split; [reflexivity|].
        intros -> Hkey. inversion Hkey; subst. rewrite Hres in Hrt.
        inversion Hrt; subst. reflexivity. }
    destruct Hw as (new & Hw & Hnew).
    destruct (find_loop_through_field seg (keys_of rest) cur mi k i key tgt
                Hres Hparse Hk Hloop) as [(-> & ->)|(iv & d & Hiv & Hd')].
    - rewrite (Hnew eq_refl eq_refl) in Hw. eexists. split; [exact Hw|].
      unfold SetMapIndex. destruct (Interface (ValueOf ifc)).
      + apply lookup_insert_ne. congruence.
      + apply lookup_delete_ne. congruence.
    - rewrite Hd', write_at_app, Haddr, Hres in Hw. cbn [write_at] in Hw.
      rewrite Hiv in Hw. eexists. split; [exact Hw|].
      apply lookup_insert_ne. congruence. }
  destruct Hj' as (mi' & Hj' & Hlook).
  destruct cur as [v a]. cbn [result address] in *. subst v.
  apply (find_through_field j j' pre s post a mi mi' Hreach); try assumption.
  destruct j' as [root']. cbn [intf] in Hj'. subst root'.
  exact (reach_after_write j pre _ (Object mi') Hreach).
Qed.

Lemma X6_witness :
  reach sample_nested ["p"]
    = Some {| result := Object sample_inner; address := [ByField "p"] |}
  /\ parse_key "a[0]" = Some ("a", 0)
  /\ "b" <> "a"
  /\ find (snd (Set_ string SampleCodec.Unmarshal SampleCodec.Encode sample_nested "p.a[0]"
                  (InValue (TBasic KBool false) (VBool false))))
          "p.b" false
     = find sample_nested "p.b" false.
Proof.
  split; [reflexivity|]. split; [reflexivity|].
  assert (H : "b" <> "a") by discriminate.
  split; [exact H|].
  refine (X6_set_leaves_sibling_fields string SampleCodec.Unmarshal SampleCodec.Encode
            sample_nested _ ["p"] [] []
            {| result := Object sample_inner; address := [ByField "p"] |} sample_inner
            "a[0]" "a" "b" 0 (TBasic KBool false) (VBool false)
            eq_refl eq_refl eq_refl eq_refl _ eq_refl eq_refl H _).
  - discriminate.
  - vm_compute. reflexivity.
Defined.

(** ** Paths that a write does not complete *)

(** X7.  [Set] creates no container on the way: when a segment other
    than the last names a field that the object does not have, [Set]
    returns ErrNotFound and the document is unchanged. *)
Theorem X7_set_creates_no_intermediate
  (CodecError : Type)
  (json_Unmarshal : string -> CodecError + Value)
  (json_Encode : GoType -> GoVal -> CodecError + string)
  (j : JSON) (pre post : list string) (cur : Cursor) (mi : gmap string Value)
  (f : string) (t : GoType) (x : GoVal) :
  reach j pre = Some cur ->
  result cur = Object mi -> mi !! f = None ->
  f <> "" -> occurs "." f = false -> occurs "[" f = false ->
  post <> [] ->
  existsb (fun v => String.eqb v "") (keys_of post) = false ->
  Set_ CodecError json_Unmarshal json_Encode j (join (pre ++ f :: post)) (InValue t x)
  = (Failed (OfPackage ErrNotFound), j).
Proof.
  intros Hreach Hres Hnone Hf Hfd Hfb Hpost Hne.
  unfold Set_.
  rewrite (find_at j pre f post true cur Hreach Hf Hfd Hne).
  cbn [find_loop].
  pose proof (Split_nonempty (join post) ".") as Hsplit.
  destruct post as [|p post]; [contradiction|].
  cbn [keys_of] in *.
  destruct (GoStrings.Split (join (p :: post)) ".") as [|q qs]; [contradiction|].
  unfold find_step. rewrite (parse_key_plain f Hfb).
  unfold walk_key. rewrite (not_empty_eqb f Hf), Hres, andb_false_r, Hnone.
  reflexivity.
Qed.

Lemma X7_witness :
  reach sample_nested ["p"]
    = Some {| result := Object sample_inner; address := [ByField "p"] |}
  /\ sample_inner !! "c" = None
  /\ Set_ string SampleCodec.Unmarshal SampleCodec.Encode sample_nested "p.c.d"
       (InValue (TBasic KBool false) (VBool true))
     = (Failed (OfPackage ErrNotFound), sample_nested).
Proof.
  split; [reflexivity|]. split; [reflexivity|].
  refine (X7_set_creates_no_intermediate string SampleCodec.Unmarshal SampleCodec.Encode
            sample_nested ["p"] ["d"]
            {| result := Object sample_inner; address := [ByField "p"] |} sample_inner
            "c" (TBasic KBool false) (VBool true)
            eq_refl eq_refl eq_refl _ eq_refl eq_refl _ eq_refl);
    discriminate.
Defined.

(** ** The loops of [assign] *)

Section AssignFacts.

Variable unrepresentable : IntKind -> spec_float -> Z.

(** The Slice case of [assign], by its loop. *)
Lemma assign_slice elem inv out :
  assign unrepresentable (TSlice elem) inv out
  = if negb (IsValid inv) then (Ok, out)
    else
      match Len_of inv with
      | None => (Panicked "reflect: call of reflect.Value.Len", out)
      | Some n =>
          match elems_loop (fun x => assign unrepresentable elem x (zero elem))
                  inv O n [] with
          | (Ok, sl) => (Ok, VSlice (Some sl))
          | (bad, _) => (bad, out)
          end
      end.
Proof. reflexivity. Qed.

(** The Struct case of [assign], by its loop. *)
Lemma assign_struct fields inv out :
  assign unrepresentable (TStruct fields) inv out
  = if negb (IsValid inv) then (Ok, out)
    else
      match MapKeys inv with
      | None => (Panicked "reflect: call of reflect.Value.MapKeys", out)
      | Some keys =>
          match out with
          | VStruct vals =>
              let '(st, vals') :=
                fields_loop (assign unrepresentable) keys inv fields vals in
              (st, VStruct vals')
          | _ => (Ok, out)
          end
      end.
Proof. reflexivity. Qed.

(** Induction on types, with the property for the types of the fields
    of a struct. *)
Lemma GoType_induction (P : GoType -> Prop) :
  (forall k defined, P (TBasic k defined)) ->
  (forall elem, P elem -> P (TSlice elem)) ->
  (forall fields, Forall (fun f => P (snd f)) fields -> P (TStruct fields)) ->
  P TInterface -> P TOther ->
  forall t, P t.
Proof.
  intros Hbasic Hslice Hstruct Hiface Hother.
  fix IH 1. intros [k d|elem|fields| |].
  - apply Hbasic.
  - apply Hslice, IH.
  - apply Hstruct. induction fields as [|[fld ft] fields IHf]; constructor.
    + apply IH.
    + exact IHf.
  - exact Hiface.
  - exact Hother.
Qed.

Lemma elems_loop_length rec inv : forall todo i sl ys,
  elems_loop rec inv i todo sl = (Ok, ys) ->
  length ys = (length sl + todo)%nat.
Proof.
  induction todo as [|todo IH]; intros i sl ys H; cbn [elems_loop] in H.
  - inversion H. lia.
  - destruct (Index inv i) as [x|]; [|discriminate].
    destruct (rec x) as [[| |] y]; try discriminate.
    apply IH in H. rewrite List.length_app in H. cbn in H. lia.
Qed.

Lemma elems_loop_errors rec inv (allowed : ErrJSON -> Prop) :
  (forall x e y, rec x = (Failed e, y) -> allowed e) ->
  forall todo i sl e ys,
    elems_loop rec inv i todo sl = (Failed e, ys) -> allowed e.
Proof.
  intros Hrec. induction todo as [|todo IH]; intros i sl e ys H; cbn [elems_loop] in H.
  - discriminate.
  - destruct (Index inv i) as [x|]; [|discriminate].
    destruct (rec x) as [[|e'|] y] eqn:Hx; try discriminate.
    + exact (IH _ _ _ _ H).
    + inversion H; subst. exact (Hrec _ _ _ Hx).
Qed.

Lemma fields_loop_errors rec keys inv (allowed : ErrJSON -> Prop) fs :
  Forall (fun f => forall x out e out', rec (snd f) x out = (Failed e, out') -> allowed e) fs ->
  forall vals e vals',
    fields_loop rec keys inv fs vals = (Failed e, vals') -> allowed e.
Proof.
  induction 1 as [|[fld ft] fs Hhd Htl IH]; intros vals e vals' H.
  - cbn in H. discriminate.
  - cbn [fields_loop] in H. destruct vals as [|val vals]; [discriminate|].
    destruct (negb (Exported fld)).
    + destruct (fields_loop rec keys inv fs vals) as [st rest] eqn:Hrest.
      inversion H; subst. exact (IH _ _ _ Hrest).
    + destruct (match_key keys _ (Name fld)) as [key|].
      * destruct (rec ft (MapIndex inv key) val) as [[|e'|] val'] eqn:Hx.
        -- destruct (fields_loop rec keys inv fs vals) as [st rest] eqn:Hrest.
           inversion H; subst. exact (IH _ _ _ Hrest).
        -- inversion H; subst. exact (Hhd _ _ _ _ Hx).
        -- discriminate.
      * destruct (fields_loop rec keys inv fs vals) as [st rest] eqn:Hrest.
        inversion H; subst. exact (IH _ _ _ Hrest).
Qed.

(** The errors of [assign]. *)
Lemma assign_errors t : forall inv out e out',
  assign unrepresentable t inv out = (Failed e, out') -> e = ErrInvalidOut \/ e = ErrTruncate.
Proof.
  induction t as [k d|elem IH|fields IH| |] using GoType_induction; intros inv out e out' H.
  - unfold assign in H. destruct (negb (IsValid inv)); [discriminate|].
    unfold Set_basic in H.
    destruct k as [| | | |ik].
    + destruct (as_bool inv); [destruct d; discriminate|]. inversion H. auto.
    + destruct (as_string inv); [destruct d; discriminate|]. inversion H. auto.
    + destruct (as_float64 inv); [destruct d; discriminate|]. inversion H. auto.
    + destruct (as_float64 inv); [|inversion H; auto].
      destruct (F64.ne0 _); [inversion H; auto|destruct d; discriminate].
    + destruct (as_float64 inv); [|inversion H; auto].
      destruct (F64.ne0 _); [inversion H; auto|destruct d; discriminate].
  - rewrite assign_slice in H. destruct (negb (IsValid inv)); [discriminate|].
    destruct (Len_of inv) as [n|]; [|discriminate].
    destruct (elems_loop _ inv 0 n []) as [[|e'|] sl] eqn:Hloop; try discriminate.
    inversion H; subst.
    apply (elems_loop_errors _ inv (fun e => e = ErrInvalidOut \/ e = ErrTruncate)
             (fun x e y => IH x (zero elem) e y) _ _ _ _ _ Hloop).
  - rewrite assign_struct in H. destruct (negb (IsValid inv)); [discriminate|].
    destruct (MapKeys inv) as [keys|]; [|discriminate].
    destruct out as [| | | | | |vals| |]; try discriminate.
    destruct (fields_loop (assign unrepresentable) keys inv fields vals) as [st vals'] eqn:Hloop.
    inversion H; subst.
    exact (fields_loop_errors (assign unrepresentable) keys inv _ fields IH _ _ _ Hloop).
  - cbn in H. destruct (negb (IsValid inv)); discriminate.
  - cbn in H. destruct (negb (IsValid inv)); discriminate.
Qed.

End AssignFacts.

Lemma walk_key_errors parent last cur keyv i e :
  walk_key parent last cur keyv i = inl e ->
  existsb (ErrJSON_eqb e) errors_of_find = true.
Proof.
  unfold walk_key. intros H.
  repeat match type of H with
         | inl _ = inl _ => inversion H; subst; reflexivity
         | inr _ = inl _ => discriminate H
         | context [if ?b then _ else _] => destruct b
         | context [match ?x with _ => _ end] => destruct x
         end.
Qed.

Lemma find_loop_errors parent keys : forall cur e,
  find_loop parent keys cur = inl e ->
  existsb (ErrJSON_eqb e) errors_of_find = true.
Proof.
  induction keys as [|keyv rest IH]; intros cur e H; cbn [find_loop] in H.
  - discriminate.
  - destruct (find_step parent _ cur keyv) as [e'|[key cur']] eqn:Hstep.
    + inversion H; subst. unfold find_step in Hstep.
      destruct (parse_key keyv) as [[f i]|].
      * exact (walk_key_errors _ _ _ _ _ _ Hstep).
      * inversion Hstep. reflexivity.
    + destruct rest; [discriminate|]. exact (IH _ _ H).
Qed.

Lemma find_errors j path parent e :
  find j path parent = inl e -> existsb (ErrJSON_eqb e) errors_of_find = true.
Proof.
  unfold find. intros H.
  destruct (length _ =? 0)%nat; [inversion H; reflexivity|].
  destruct (existsb _ _); [inversion H; reflexivity|].
  exact (find_loop_errors _ _ _ _ H).
Qed.

(** X8.  The errors of the package that the methods return: [Get] only
    ErrInvalidOut, ErrInvalidPath, ErrNotFound, ErrOutOfRange and
    ErrTruncate; [Set] only ErrInvalidIn, ErrInvalidPath, ErrNotFound and
    ErrOutOfRange; [Len] only ErrInvalidPath, ErrNotFound and
    ErrOutOfRange; and each of these is returned by some call.
    ErrTypeMissmatch is returned by none of them. *)
Theorem X8_errors_of_the_methods
  (unrepresentable : IntKind -> spec_float -> Z)
  (CodecError : Type)
  (json_Unmarshal : string -> CodecError + Value)
  (json_Encode : GoType -> GoVal -> CodecError + string)
  (j : JSON) (path : string) :
  (forall out, fails_within errors_of_Get (fst (Get unrepresentable j path out)) = true)
  /\ (forall in_,
        match fst (Set_ CodecError json_Unmarshal json_Encode j path in_) with
        | Failed (OfPackage e) => existsb (ErrJSON_eqb e) errors_of_Set
        | _ => true
        end = true)
  /\ match snd (Len j path) with
     | Some e => existsb (ErrJSON_eqb e) errors_of_find
     | None => true
     end = true
  /\ Forall (fun e => exists j' path' out,
               fst (Get unrepresentable j' path' out) = Failed e) errors_of_Get
  /\ Forall (fun e => exists j' path' in_,
               fst (Set_ string SampleCodec.Unmarshal SampleCodec.Encode j' path' in_)
               = Failed (OfPackage e)) errors_of_Set
  /\ Forall (fun e => exists j' path', snd (Len j' path') = Some e) errors_of_find.
Proof.
  assert (Hsub : forall e, existsb (ErrJSON_eqb e) errors_of_find = true ->
                           existsb (ErrJSON_eqb e) errors_of_Get = true
                           /\ existsb (ErrJSON_eqb e) errors_of_Set = true)
    by (intros []; cbn; intros; first [discriminate | split; reflexivity]).
  split; [|split; [|split; [|split; [|split]]]].
  - intros [|t x|t|t x]; unfold Get; try reflexivity.
    + destruct (find j path false) as [e|[key cur]] eqn:Hfind; [|reflexivity].
      exact (proj1 (Hsub _ (find_errors _ _ _ _ Hfind))).
    + destruct (find j path false) as [e|[key cur]] eqn:Hfind.
      * exact (proj1 (Hsub _ (find_errors _ _ _ _ Hfind))).
      * destruct (assign unrepresentable t (ValueOf (result cur)) x)
          as [[|e|] x'] eqn:Hassign; try reflexivity.
        cbn. destruct (assign_errors _ _ _ _ _ _ Hassign) as [-> | ->]; reflexivity.
  - intros [|t x]; unfold Set_; [reflexivity|].
    destruct (find j path true) as [e|[key tgt]] eqn:Hfind.
    + exact (proj2 (Hsub _ (find_errors _ _ _ _ Hfind))).
    + destruct (json_Encode t x); [reflexivity|].
      destruct (json_Unmarshal _); [reflexivity|].
      destruct (result tgt), key; try reflexivity.
      destruct (IsValid _); reflexivity.
  - unfold Len. destruct (find j path false) as [e|[key cur]] eqn:Hfind.
    + exact (find_errors _ _ _ _ Hfind).
    + destruct (result cur); reflexivity.
  - repeat constructor.
    + exists sample_flag, "a", OutNil. reflexivity.
    + exists sample_flag, "", (OutNilPointer TInterface). reflexivity.
    + exists sample_flag, "b", (OutNilPointer TInterface). vm_compute. reflexivity.
    + exists sample_nested, "p.a[2]", (OutNilPointer TInterface). vm_compute. reflexivity.
    + exists {| intf := Object (<["a" := Number three_and_a_half]> ∅) |}, "a",
        (OutPointer (TBasic (KInteger Int) false) (VInt 0)).
      vm_compute. reflexivity.
  - repeat constructor.
    + exists sample_flag, "a", InNil. reflexivity.
    + exists sample_flag, "", (InValue (TBasic KBool false) (VBool true)). reflexivity.
    + exists sample_flag, "b.c", (InValue (TBasic KBool false) (VBool true)).
      vm_compute. reflexivity.
    + exists sample_nested, "p.a[2]", (InValue (TBasic KBool false) (VBool true)).
      vm_compute. reflexivity.
  - repeat constructor.
    + exists sample_flag, "a". vm_compute. reflexivity.
    + exists sample_flag, "b". vm_compute. reflexivity.
    + exists sample_nested, "p.a[2]". vm_compute. reflexivity.
Qed.

(** ** Slices *)

Lemma elems_loop_ok rec pre : forall l ys sl,
  Forall2 (fun v y => rec (RIface v) = (Ok, y)) l ys ->
  elems_loop rec (RConcrete (Array (pre ++ l))) (length pre) (length l) sl
  = (Ok, (sl ++ ys)%list).
Proof.
  intros l. revert pre.
  induction l as [|v l IH]; intros pre ys sl H; inversion H as [|? y ? ys' Hv Hl]; subst.
  - cbn. rewrite app_nil_r. reflexivity.
  - cbn [length elems_loop Index].
    rewrite lookup_app_r by lia. rewrite Nat.sub_diag. cbn [lookup list_lookup fmap option_fmap option_map].
    rewrite Hv.
    replace (pre ++ v :: l)%list with ((pre ++ [v]) ++ l)%list by (rewrite <- app_assoc; reflexivity).
    replace (S (length pre)) with (length (pre ++ [v])%list)
      by (rewrite List.length_app; cbn; lia).
    rewrite (IH _ ys' _ Hl). rewrite <- app_assoc. reflexivity.
Qed.

Lemma elems_loop_inv rec pre : forall l sl out,
  elems_loop rec (RConcrete (Array (pre ++ l))) (length pre) (length l) sl = (Ok, out) ->
  exists ys, out = (sl ++ ys)%list
             /\ Forall2 (fun v y => rec (RIface v) = (Ok, y)) l ys.
Proof.
  intros l. revert pre.
  induction l as [|v l IH]; intros pre sl out H.
  - cbn in H. inversion H; subst. exists []. rewrite app_nil_r. split; constructor.
  - cbn [length elems_loop Index] in H.
    rewrite lookup_app_r in H by lia. rewrite Nat.sub_diag in H.
    cbn [lookup list_lookup fmap option_fmap option_map] in H.
    destruct (rec (RIface v)) as [[| |] y] eqn:Hv; try discriminate.
    replace (pre ++ v :: l)%list with ((pre ++ [v]) ++ l)%list in H
      by (rewrite <- app_assoc; reflexivity).
    replace (S (length pre)) with (length (pre ++ [v])%list) in H
      by (rewrite List.length_app; cbn; lia).
    destruct (IH _ _ _ H) as (ys & -> & Hys).
    exists (y :: ys). rewrite <- app_assoc. split; [reflexivity|].
    constructor; assumption.
Qed.

(** The first element that is not assigned ends the loop. *)
Lemma elems_loop_stops rec pre : forall l sl i v bad y,
  l !! i = Some v ->
  rec (RIface v) = (bad, y) -> bad <> Ok ->
  (forall k w, (k < i)%nat -> l !! k = Some w -> exists z, rec (RIface w) = (Ok, z)) ->
  fst (elems_loop rec (RConcrete (Array (pre ++ l))) (length pre) (length l) sl) = bad.
Proof.
  intros l. revert pre.
  induction l as [|w l IH]; intros pre sl i v bad y Hi Hv Hbad Hbefore.
  - discriminate.
  - cbn [length elems_loop Index].
    rewrite lookup_app_r by lia. rewrite Nat.sub_diag.
    cbn [lookup list_lookup fmap option_fmap option_map].
    destruct i as [|i].
    + cbn in Hi. inversion Hi; subst w. rewrite Hv.
      destruct bad; [contradiction| |]; reflexivity.
    + destruct (Hbefore 0%nat w) as [z Hz]; [lia|reflexivity|]. rewrite Hz.
      replace (pre ++ w :: l)%list with ((pre ++ [w]) ++ l)%list
        by (rewrite <- app_assoc; reflexivity).
      replace (S (length pre)) with (length (pre ++ [w])%list)
        by (rewrite List.length_app; cbn; lia).
      apply (IH _ _ i v bad y); try assumption.
      intros k w' Hk Hw'. apply (Hbefore (S k) w'); [lia|exact Hw'].
Qed.

(** A status of the loop other than [Ok] is that of an element. *)
Lemma elems_loop_bad rec pre : forall l sl bad out,
  elems_loop rec (RConcrete (Array (pre ++ l))) (length pre) (length l) sl = (bad, out) ->
  bad <> Ok ->
  exists v y, In v l /\ rec (RIface v) = (bad, y).
Proof.
  intros l. revert pre.
  induction l as [|w l IH]; intros pre sl bad out H Hbad.
  - cbn in H. inversion H; subst. contradiction.
  - cbn [length elems_loop Index] in H.
    rewrite lookup_app_r in H by lia. rewrite Nat.sub_diag in H.
    cbn [lookup list_lookup fmap option_fmap option_map] in H.
    destruct (rec (RIface w)) as [[|e|r] y] eqn:Hw.
    + replace (pre ++ w :: l)%list with ((pre ++ [w]) ++ l)%list in H
        by (rewrite <- app_assoc; reflexivity).
      replace (S (length pre)) with (length (pre ++ [w])%list) in H
        by (rewrite List.length_app; cbn; lia).
      destruct (IH _ _ _ _ H Hbad) as (v & y' & Hin & Hv).
      exists v, y'. split; [right; exact Hin|exact Hv].
    + inversion H; subst. exists w, y. split; [left; reflexivity|exact Hw].
    + inversion H; subst. exists w, y. split; [left; reflexivity|exact Hw].
Qed.

Section SliceFacts.

Variable unrepresentable : IntKind -> spec_float -> Z.

#[local] Abbreviation assign := (assign unrepresentable).

Lemma assign_array elem l out :
  assign (TSlice elem) (RConcrete (Array l)) out
  = match elems_loop (fun x => assign elem x (zero elem)) (RConcrete (Array l))
            O (length l) [] with
    | (Ok, sl) => (Ok, VSlice (Some sl))
    | (bad, _) => (bad, out)
    end.
Proof. rewrite assign_slice. reflexivity. Qed.

Lemma assign_direct k v out :
  direct k = true ->
  assign (TBasic k false) (RIface v) out
  = match element k v with
    | Some y => (Ok, y)
    | None => (Failed ErrInvalidOut, out)
    end.
Proof.
  destruct k; try discriminate; intros _; destruct v; reflexivity.
Qed.

Lemma assign_direct_elements k : direct k = true -> forall l ys,
  Forall2 (fun v y => assign (TBasic k false) (RIface v) (zero (TBasic k false)) = (Ok, y)) l ys
  <-> mapM (element k) l = Some ys.
Proof.
  intros Hk l ys. rewrite mapM_Some. split; intros H.
  - induction H as [|v y l ys Hv Hl IH]; constructor; [|exact IH].
    rewrite assign_direct in Hv by exact Hk.
    destruct (element k v); inversion Hv; reflexivity.
  - induction H as [|v y l ys Hv Hl IH]; constructor; [|exact IH].
    rewrite assign_direct by exact Hk. rewrite Hv. reflexivity.
Qed.

Lemma Get_array_direct j path key cur l k x :
  find j path false = inr (key, cur) ->
  result cur = Array l ->
  direct k = true ->
  Get unrepresentable j path (OutPointer (TSlice (TBasic k false)) x)
  = match mapM (element k) l with
    | Some ys => (Ok, OutPointer (TSlice (TBasic k false)) (VSlice (Some ys)))
    | None => (Failed ErrInvalidOut, OutPointer (TSlice (TBasic k false)) x)
    end.
Proof.
  intros Hfind Hres Hk. unfold Get. rewrite Hfind, Hres. cbn [ValueOf].
  rewrite assign_array.
  destruct (mapM (element k) l) as [ys|] eqn:Hm.
  - apply (assign_direct_elements k Hk) in Hm.
    rewrite (elems_loop_ok _ [] l ys [] Hm). reflexivity.
  - destruct (elems_loop _ _ 0 (length l) []) as [st sl] eqn:Hloop.
    destruct st as [|e|r].
    + destruct (elems_loop_inv _ [] l [] sl Hloop) as (ys & _ & Hys).
      apply (assign_direct_elements k Hk) in Hys. congruence.
    + destruct (elems_loop_bad _ [] l [] _ sl Hloop) as (v & y & _ & Hv); [discriminate|].
      rewrite assign_direct in Hv by exact Hk.
      destruct (element k v); inversion Hv; subst. reflexivity.
    + destruct (elems_loop_bad _ [] l [] _ sl Hloop) as (v & y & _ & Hv); [discriminate|].
      rewrite assign_direct in Hv by exact Hk.
      destruct (element k v); inversion Hv.
Qed.

End SliceFacts.

(** X9.  A slice is assigned element by element, each element into a
    new zero value of the element type: [assign] of a JSON array to a
    slice returns nil exactly when every element is assigned without
    error, and the slice then holds one result for each element of the
    array, in order, whatever it held before. *)
Theorem X9_slice_is_assigned_elementwise
  (unrepresentable : IntKind -> spec_float -> Z)
  (elem : GoType) (l : list Value) (out out' : GoVal) :
  assign unrepresentable (TSlice elem) (RConcrete (Array l)) out = (Ok, out')
  <-> exists ys,
        out' = VSlice (Some ys)
        /\ Forall2 (fun v y => assign unrepresentable elem (RIface v) (zero elem) = (Ok, y))
             l ys.
Proof.
  rewrite assign_array. split.
  - destruct (elems_loop _ _ 0 (length l) []) as [[|e|r] sl] eqn:Hloop; try discriminate.
    intros H. inversion H; subst.
    destruct (elems_loop_inv _ [] l [] sl Hloop) as (ys & -> & Hys).
    exists ys. split; [reflexivity|exact Hys].
  - intros (ys & -> & Hys).
    rewrite (elems_loop_ok _ [] l ys [] Hys). reflexivity.
Qed.

(** X10.  [Get] of an array into a slice of bool, string or float64:
    when every element of the array is of the JSON type of the element
    kind the slice receives the elements, in order; when any element is
    not, null included, [Get] returns ErrInvalidOut and the slice is
    left as it was. *)
Theorem X10_get_array_into_slice
  (unrepresentable : IntKind -> spec_float -> Z)
  (j : JSON) (path : string) (key : Key) (cur : Cursor) (l : list Value)
  (k : Kind) (x : GoVal) :
  find j path false = inr (key, cur) ->
  result cur = Array l ->
  direct k = true ->
  Get unrepresentable j path (OutPointer (TSlice (TBasic k false)) x)
  = match mapM (element k) l with
    | Some ys => (Ok, OutPointer (TSlice (TBasic k false)) (VSlice (Some ys)))
    | None => (Failed ErrInvalidOut, OutPointer (TSlice (TBasic k false)) x)
    end.
Proof. apply Get_array_direct. Qed.

Lemma X10_witness :
  find {| intf := Object (<["a" := Array [Str "x"; Str "y"]]> ∅) |} "a" false
    = inr (KeyNone, {| result := Array [Str "x"; Str "y"]; address := [ByField "a"] |})
  /\ direct KString = true
  /\ Get SampleCodec.unrepresentable
       {| intf := Object (<["a" := Array [Str "x"; Str "y"]]> ∅) |} "a"
       (OutPointer (TSlice (TBasic KString false)) (VSlice None))
     = (Ok, OutPointer (TSlice (TBasic KString false))
              (VSlice (Some [VString "x"; VString "y"]))).
Proof.
  split; [reflexivity|]. split; [reflexivity|].
  exact (X10_get_array_into_slice SampleCodec.unrepresentable
           {| intf := Object (<["a" := Array [Str "x"; Str "y"]]> ∅) |} "a"
           KeyNone {| result := Array [Str "x"; Str "y"]; address := [ByField "a"] |}
           [Str "x"; Str "y"] KString (VSlice None)
           eq_refl eq_refl eq_refl).
Defined.

(** ** What a failed [Get] leaves in [out] *)




(** A struct is written field by field: the fields assigned before an
    error keep their new values. *)
Example struct_is_written_before_the_error unrepresentable :
  Get unrepresentable
    {| intf := Object (<["p" := Object (<["a" := Str "X"]> (<["b" := Null]> ∅))]> ∅) |} "p"
    (OutPointer
       (TStruct [({| Name := "A"; Tag := "a"; Exported := true |}, TBasic KString false);
                 ({| Name := "B"; Tag := "b"; Exported := true |}, TBasic KString false)])
       (VStruct [VString ""; VString ""]))
  = (Failed ErrInvalidOut,
     OutPointer
       (TStruct [({| Name := "A"; Tag := "a"; Exported := true |}, TBasic KString false);
                 ({| Name := "B"; Tag := "b"; Exported := true |}, TBasic KString false)])
       (VStruct [VString "X"; VString ""])).
Proof. vm_compute. reflexivity. Qed.

(** ** Len *)

(** X12.  [Len] returns -1 with every error and the number of elements
    of the array otherwise, and this number is the length of the slice
    that a [Get] of the same path into a slice stores when it returns
    nil. *)
Theorem X12_len_is_the_length_of_the_slice
  (unrepresentable : IntKind -> spec_float -> Z)
  (j : JSON) (path : string) :
  match Len j path with
  | (n, Some _) => n = -1
  | (n, None) =>
      0 <= n
      /\ forall elem x out',
           Get unrepresentable j path (OutPointer (TSlice elem) x) = (Ok, out') ->
           exists sl, out' = OutPointer (TSlice elem) (VSlice (Some sl))
                      /\ Z.of_nat (length sl) = n
  end.
Proof.
  unfold Len, Get.
  destruct (find j path false) as [e|[key cur]]; [reflexivity|].
  destruct (result cur) as [| | | |l|m]; try reflexivity.
  split; [lia|]. intros elem x out'. cbn [ValueOf]. rewrite assign_array.
  destruct (elems_loop _ _ 0 (length l) []) as [[|e|r] sl] eqn:Hloop; try discriminate.
  intros H. inversion H; subst. exists sl. split; [reflexivity|].
  apply elems_loop_length in Hloop. cbn in Hloop. lia.
Qed.

(** ** Structs *)

Lemma has_key (m : gmap string Value) k :
  existsb (String.eqb k) (map_to_list m).*1 = true <-> is_Some (m !! k).
Proof.
  rewrite existsb_exists. split.
  - intros (k' & Hin & Heq). apply String.eqb_eq in Heq. subst k'.
    apply list_elem_of_In, list_elem_of_fmap in Hin.
    destruct Hin as ([k' v] & -> & Hin). apply elem_of_map_to_list in Hin.
    exists v. exact Hin.
  - intros [v Hv]. exists k. split; [|apply String.eqb_refl].
    apply list_elem_of_In, list_elem_of_fmap. exists (k, v).
    split; [reflexivity|]. apply elem_of_map_to_list. exact Hv.
Qed.

Lemma match_key_member (m : gmap string Value) fld :
  match_key (map_to_list m).*1 (GoStrings.Split (Tag fld) ",") (Name fld)
  = match m !! key_of_field fld with
    | Some _ => Some (key_of_field fld)
    | None => None
    end.
Proof.
  rewrite match_key_found. fold (key_of_field fld).
  pose proof (has_key m (key_of_field fld)) as H.
  destruct (existsb _ _).
  - destruct (proj1 H eq_refl) as [v ->]. reflexivity.
  - destruct (m !! key_of_field fld) as [v|]; [|reflexivity].
    assert (false = true) by (apply H; eexists; reflexivity). discriminate.
Qed.

Lemma fields_loop_length rec keys inv : forall fs vals st vals',
  fields_loop rec keys inv fs vals = (st, vals') -> length vals' = length vals.
Proof.
  induction fs as [|[fld ft] fs IH]; intros vals st vals' H.
  - cbn in H. inversion H. reflexivity.
  - cbn [fields_loop] in H. destruct vals as [|val vals]; [inversion H; reflexivity|].
    destruct (negb (Exported fld)).
    + destruct (fields_loop rec keys inv fs vals) as [st' rest] eqn:Hrest.
      inversion H; subst. cbn. f_equal. exact (IH _ _ _ Hrest).
    + destruct (match_key keys _ (Name fld)) as [key|].
      * destruct (rec ft (MapIndex inv key) val) as [[|e|r] val'].
        -- destruct (fields_loop rec keys inv fs vals) as [st' rest] eqn:Hrest.
           inversion H; subst. cbn. f_equal. exact (IH _ _ _ Hrest).
        -- inversion H; subst. reflexivity.
        -- inversion H; subst. reflexivity.
      * destruct (fields_loop rec keys inv fs vals) as [st' rest] eqn:Hrest.
        inversion H; subst. cbn. f_equal. exact (IH _ _ _ Hrest).
Qed.

(** A field that is not exported, or that no key matches, keeps its
    value, whatever the loop returns. *)
Lemma fields_loop_kept rec keys inv : forall fs vals st vals' i fld ft v,
  fields_loop rec keys inv fs vals = (st, vals') ->
  fs !! i = Some (fld, ft) -> vals !! i = Some v ->
  Exported fld = false
  \/ match_key keys (GoStrings.Split (Tag fld) ",") (Name fld) = None ->
  vals' !! i = Some v.
Proof.
  induction fs as [|[fld0 ft0] fs IH]; intros vals st vals' i fld ft v H Hf Hv Hun.
  - discriminate.
  - cbn [fields_loop] in H. destruct vals as [|val vals]; [discriminate|].
    destruct i as [|i].
    + cbn in Hf, Hv. inversion Hf; subst fld0 ft0. inversion Hv; subst val.
      destruct Hun as [Hun|Hun]; rewrite Hun in H; cbn [negb] in H.
      * destruct (fields_loop rec keys inv fs vals) as [st' rest].
        inversion H; subst. reflexivity.
      * destruct (negb (Exported fld));
          destruct (fields_loop rec keys inv fs vals) as [st' rest];
          inversion H; subst; reflexivity.
    + cbn in Hf, Hv.
      assert (Hrest : forall st' rest,
                fields_loop rec keys inv fs vals = (st', rest) -> rest !! i = Some v)
        by (intros st' rest Hr; exact (IH _ _ _ _ _ _ _ Hr Hf Hv Hun)).
      destruct (negb (Exported fld0)).
      * destruct (fields_loop rec keys inv fs vals) as [st' rest] eqn:Hr.
        inversion H; subst. exact (Hrest _ _ eq_refl).
      * destruct (match_key keys _ (Name fld0)) as [key|].
        -- destruct (rec ft0 (MapIndex inv key) val) as [[|e|r] val'].
           ++ destruct (fields_loop rec keys inv fs vals) as [st' rest] eqn:Hr.
              inversion H; subst. exact (Hrest _ _ eq_refl).
           ++ inversion H; subst. exact Hv.
           ++ inversion H; subst. exact Hv.
        -- destruct (fields_loop rec keys inv fs vals) as [st' rest] eqn:Hr.
           inversion H; subst. exact (Hrest _ _ eq_refl).
Qed.

(** When the loop returns nil, a field that a key matches holds what
    the assignment of the member left in it. *)
Lemma fields_loop_assigned rec keys inv : forall fs vals vals' i fld ft v key,
  fields_loop rec keys inv fs vals = (Ok, vals') ->
  fs !! i = Some (fld, ft) -> vals !! i = Some v ->
  Exported fld = true ->
  match_key keys (GoStrings.Split (Tag fld) ",") (Name fld) = Some key ->
  exists y, rec ft (MapIndex inv key) v = (Ok, y) /\ vals' !! i = Some y.
Proof.
  induction fs as [|[fld0 ft0] fs IH]; intros vals vals' i fld ft v key H Hf Hv Hex Hkey.
  - discriminate.
  - cbn [fields_loop] in H. destruct vals as [|val vals]; [discriminate|].
    destruct i as [|i].
    + cbn in Hf, Hv. inversion Hf; subst fld0 ft0. inversion Hv; subst val.
      rewrite Hex, Hkey in H. cbn [negb] in H.
      destruct (rec ft (MapIndex inv key) v) as [[|e|r] y]; try discriminate.
      destruct (fields_loop rec keys inv fs vals) as [st' rest].
      inversion H; subst. exists y. split; reflexivity.
    + cbn in Hf, Hv.
      assert (Hrest : forall rest,
                fields_loop rec keys inv fs vals = (Ok, rest) ->
                exists y, rec ft (MapIndex inv key) v = (Ok, y) /\ rest !! i = Some y)
        by (intros rest Hr; exact (IH _ _ _ _ _ _ _ Hr Hf Hv Hex Hkey)).
      destruct (negb (Exported fld0)).
      * destruct (fields_loop rec keys inv fs vals) as [st' rest] eqn:Hr.
        inversion H; subst. exact (Hrest _ eq_refl).
      * destruct (match_key keys _ (Name fld0)) as [key0|].
        -- destruct (rec ft0 (MapIndex inv key0) val) as [[|e|r] val']; try discriminate.
           destruct (fields_loop rec keys inv fs vals) as [st' rest] eqn:Hr.
           inversion H; subst. exact (Hrest _ eq_refl).
        -- destruct (fields_loop rec keys inv fs vals) as [st' rest] eqn:Hr.
           inversion H; subst. exact (Hrest _ eq_refl).
Qed.

(** X13.  [assign] of a JSON object to a struct keeps the number of
    fields and, whatever it returns, the value of every field that is
    not exported or whose tag names no key of the object: a key that is
    missing in the document is no error. *)
Theorem X13_unmatched_fields_are_kept
  (unrepresentable : IntKind -> spec_float -> Z)
  (fields : list (FieldInfo * GoType)) (m : gmap string Value)
  (vals : list GoVal) (st : Status ErrJSON) (out' : GoVal)
  (i : nat) (fld : FieldInfo) (ft : GoType) (v : GoVal) :
  assign unrepresentable (TStruct fields) (RConcrete (Object m)) (VStruct vals)
  = (st, out') ->
  fields !! i = Some (fld, ft) ->
  vals !! i = Some v ->
  Exported fld = false \/ m !! key_of_field fld = None ->
  exists vals',
    out' = VStruct vals' /\ length vals' = length vals /\ vals' !! i = Some v.
Proof.
  rewrite assign_struct. cbn [IsValid negb MapKeys].
  destruct (fields_loop _ _ _ fields vals) as [st' vals'] eqn:Hloop.
  intros H Hf Hv Hun. inversion H; subst. exists vals'.
  split; [reflexivity|]. split; [exact (fields_loop_length _ _ _ _ _ _ _ Hloop)|].
  apply (fields_loop_kept _ _ _ _ _ _ _ _ _ _ _ Hloop Hf Hv).
  destruct Hun as [Hun|Hun]; [left; exact Hun|right].
  rewrite match_key_member, Hun. reflexivity.
Qed.

Lemma X13_witness :
  assign SampleCodec.unrepresentable named_person
    (RConcrete (Object (<["name" := Str "X"]> ∅))) (VStruct [VString ""; VInt 7])
  = (Ok, VStruct [VString "X"; VInt 7])
  /\ (<["name" := Str "X"]> ∅ : gmap string Value) !! "age" = None
  /\ exists vals',
       VStruct [VString "X"; VInt 7] = VStruct vals'
       /\ length vals' = length [VString ""; VInt 7]
       /\ vals' !! 1%nat = Some (VInt 7).
Proof.
  split; [reflexivity|]. split; [reflexivity|].
  exact (X13_unmatched_fields_are_kept SampleCodec.unrepresentable
           [({| Name := "Name"; Tag := "name"; Exported := true |}, TBasic KString false);
            ({| Name := "Age"; Tag := "age"; Exported := true |},
             TBasic (KInteger Int) false)]
           (<["name" := Str "X"]> ∅) [VString ""; VInt 7] Ok
           (VStruct [VString "X"; VInt 7]) 1%nat
           {| Name := "Age"; Tag := "age"; Exported := true |}
           (TBasic (KInteger Int) false) (VInt 7)
           eq_refl eq_refl eq_refl (or_intror eq_refl)).
Defined.

(** X14.  When [assign] of a JSON object to a struct returns nil, every
    exported field whose tag names a key of the object holds what the
    assignment of that member to the field gives, and that assignment
    returned nil. *)
Theorem X14_matched_fields_are_assigned
  (unrepresentable : IntKind -> spec_float -> Z)
  (fields : list (FieldInfo * GoType)) (m : gmap string Value)
  (vals vals' : list GoVal)
  (i : nat) (fld : FieldInfo) (ft : GoType) (v : GoVal) (x : Value) :
  assign unrepresentable (TStruct fields) (RConcrete (Object m)) (VStruct vals)
  = (Ok, VStruct vals') ->
  fields !! i = Some (fld, ft) ->
  vals !! i = Some v ->
  Exported fld = true ->
  m !! key_of_field fld = Some x ->
  exists y,
    assign unrepresentable ft (RIface x) v = (Ok, y) /\ vals' !! i = Some y.
Proof.
  rewrite assign_struct. cbn [IsValid negb MapKeys].
  destruct (fields_loop _ _ _ fields vals) as [st' vals''] eqn:Hloop.
  intros H Hf Hv Hex Hx. inversion H; subst.
  destruct (fields_loop_assigned _ _ _ _ _ _ _ _ _ _ _ Hloop Hf Hv Hex
              (eq_trans (match_key_member m fld)
                 ltac:(rewrite Hx; reflexivity)))
    as (y & Hy & Hi).
  exists y. split; [|exact Hi].
  cbn [MapIndex] in Hy. rewrite Hx in Hy. exact Hy.
Qed.

Lemma X14_witness :
  assign SampleCodec.unrepresentable named_person
    (RConcrete (Object (<["name" := Str "X"]> ∅))) (VStruct [VString ""; VInt 7])
  = (Ok, VStruct [VString "X"; VInt 7])
  /\ (<["name" := Str "X"]> ∅ : gmap string Value) !! "name" = Some (Str "X")
  /\ exists y,
       assign SampleCodec.unrepresentable (TBasic KString false) (RIface (Str "X"))
         (VString "") = (Ok, y)
       /\ [VString "X"; VInt 7] !! 0%nat = Some y.
Proof.
  split; [reflexivity|]. split; [reflexivity|].
  exact (X14_matched_fields_are_assigned SampleCodec.unrepresentable
           [({| Name := "Name"; Tag := "name"; Exported := true |}, TBasic KString false);
            ({| Name := "Age"; Tag := "age"; Exported := true |},
             TBasic (KInteger Int) false)]
           (<["name" := Str "X"]> ∅) [VString ""; VInt 7] [VString "X"; VInt 7] 0%nat
           {| Name := "Name"; Tag := "name"; Exported := true |}
           (TBasic KString false) (VString "") (Str "X")
           eq_refl eq_refl eq_refl eq_refl eq_refl).
Defined.

(** ** Negative indexes *)

Lemma find_loop_step parent ks s s' rest cur :
  (forall last c, find_step parent last c s = find_step parent last c s') ->
  find_loop parent (ks ++ s :: rest) cur = find_loop parent (ks ++ s' :: rest) cur.
Proof.
  intros H. rewrite !find_loop_app.
  destruct (find_loop false ks cur) as [e|[k cur']]; [reflexivity|].
  cbn [find_loop]. rewrite H. reflexivity.
Qed.

Lemma walk_key_negative parent last cur f i :
  f <> "" -> i < 0 ->
  walk_key parent last cur f i = walk_key parent last cur f (-1).
Proof.
  intros Hf Hi. unfold walk_key. rewrite (not_empty_eqb f Hf).
  replace (i <? 0) with true by (symmetry; apply Z.ltb_lt; lia).
  replace (-1 <? i) with false by (symmetry; apply Z.ltb_ge; lia).
  reflexivity.
Qed.

(** X15.  A negative index after a field name is ignored: in either
    mode and for every document, a path with the segment [f[n]], [n] a
    negative number, resolves as the path with the segment [f] does. *)
Theorem X15_negative_index_after_a_name_is_ignored
  (j : JSON) (parent : bool) (pre post : list string) (f n : string) (i : Z) :
  Strconv.Atoi n = Some i -> i < 0 ->
  f <> "" -> occurs "[" f = false -> occurs "." f = false ->
  find j (join (pre ++ (f ++ "[" ++ n ++ "]") :: post)) parent
  = find j (join (pre ++ f :: post)) parent.
Proof.
  intros Hn Hi Hf Hfb Hfd.
  destruct (Atoi_no_bracket n i Hn) as (_ & _ & Hnd).
  assert (Hd : occurs "." (f ++ "[" ++ n ++ "]") = false).
  { rewrite !occurs_app, Hfd, Hnd. reflexivity. }
  assert (He : String.eqb (f ++ "[" ++ n ++ "]") "" = false).
  { destruct f; reflexivity. }
  unfold find. rewrite (Split_join_at pre _ post Hd), (Split_join_at pre f post Hfd).
  rewrite !List.length_app. cbn [length].
  rewrite !existsb_empty_app. cbn [existsb].
  rewrite He, (not_empty_eqb f Hf).
  rewrite (find_loop_step parent (keys_of pre) (f ++ "[" ++ n ++ "]") f (keys_of post)).
  - reflexivity.
  - intros last c. unfold find_step.
    rewrite (parse_key_index f n i Hn), (parse_key_plain f Hfb).
    apply walk_key_negative; assumption.
Qed.

Lemma X15_witness :
  Strconv.Atoi "-1" = Some (-1) /\ -1 < 0
  /\ find sample_nested "p.b[-1]" false = find sample_nested "p.b" false.
Proof.
  split; [reflexivity|]. split; [lia|].
  refine (X15_negative_index_after_a_name_is_ignored sample_nested false
            ["p"] [] "b" "-1" (-1) eq_refl _ _ eq_refl eq_refl).
  - lia.
  - discriminate.
Defined.

(** ** A write through an index *)

(** What [Set] at [f[n]], or under it, leaves in the document. *)
Lemma Set_under_index
  (CodecError : Type)
  (json_Unmarshal : string -> CodecError + Value)
  (json_Encode : GoType -> GoVal -> CodecError + string)
  j j' pre rest cur mi f l n i t x :
  reach j pre = Some cur ->
  result cur = Object mi -> mi !! f = Some (Array l) ->
  f <> "" -> occurs "." f = false ->
  Strconv.Atoi n = Some i -> 0 <= i ->
  Set_ CodecError json_Unmarshal json_Encode j
    (join (pre ++ (f ++ "[" ++ n ++ "]") :: rest)) (InValue t x) = (Ok, j') ->
  exists y,
    i < Z.of_nat (length l)
    /\ reach j' pre
       = Some {| result := Object (<[f := Array (<[Z.to_nat i := y]> l)]> mi);
                 address := address cur |}.
Proof.
  intros Hreach Hres Hf Hne Hfd Hn Hi Hset.
  destruct (Atoi_no_bracket n i Hn) as (_ & _ & Hnd).
  assert (Hd : occurs "." (f ++ "[" ++ n ++ "]") = false).
  { rewrite !occurs_app, Hfd, Hnd. reflexivity. }
  pose proof (reach_addressed j pre cur Hreach) as Hread. unfold well_addressed in Hread.
  assert (Hw : exists y, i < Z.of_nat (length l)
                 /\ intf j' = write_at (address cur ++ [ByField f])
                                (Array (<[Z.to_nat i := y]> l)) (intf j)).
  { unfold Set_ in Hset.
    destruct (find j (join (pre ++ (f ++ "[" ++ n ++ "]") :: rest)) true)
      as [e|[key tgt]] eqn:Hfind; [discriminate|].
    assert (Hloop : find_loop true ((f ++ "[" ++ n ++ "]") :: keys_of rest) cur
                    = inr (key, tgt)).
    { destruct (reach_loop j pre cur Hreach) as (_ & k0 & Hpre).
      unfold find in Hfind. rewrite (Split_join_at pre _ rest Hd) in Hfind.
      destruct (length _ =? 0)%nat; [discriminate|].
      destruct (existsb _ _); [discriminate|].
      rewrite find_loop_app, Hpre in Hfind. exact Hfind. }
    clear Hfind. cbn [find_loop] in Hloop. unfold find_step in Hloop.
    rewrite (parse_key_index f n i Hn) in Hloop.
    unfold walk_key in Hloop. rewrite (not_empty_eqb f Hne), Hres, Hf in Hloop.
    replace (i <? 0) with false in Hloop by (symmetry; apply Z.ltb_ge; lia).
    replace (-1 <? i) with true in Hloop by (symmetry; apply Z.ltb_lt; lia).
    cbn [andb] in Hloop.
    destruct (Z.of_nat (length l) <=? i) eqn:Hlen; [discriminate|].
    apply Z.leb_gt in Hlen.
    destruct (json_Encode t x) as [e|buff]; [discriminate|].
    destruct (json_Unmarshal buff) as [e|ifc]; [discriminate|].
    destruct (keys_of rest) as [|k1 ks].
    - inversion Hloop; subst key tgt. cbn [result address] in Hset.
      destruct (IsValid (ValueOf ifc)); [|discriminate].
      inversion Hset; subst j'. exists ifc. split; [exact Hlen|reflexivity].
    - destruct (l !! Z.to_nat i) as [x0|] eqn:Hx; [|discriminate].
      destruct (find_loop_extends _ _ _ _ _ _ Hloop) as (d & Hd').
      assert (Hany : exists new, intf j' = write_at (address tgt) new (intf j)).
      { destruct (result tgt), key; try discriminate.
        - destruct (IsValid (ValueOf ifc)); [|discriminate].
          inversion Hset; subst j'. eexists. reflexivity.
        - inversion Hset; subst j'. eexists. reflexivity. }
      destruct Hany as (new & Hnew).
      exists (write_at d new x0). split; [exact Hlen|].
      rewrite Hnew, Hd', <- app_assoc.
      rewrite (write_at_app (address cur ++ [ByField f])).
      rewrite read_at_app, Hread, Hres. cbn [mbind option_bind read_at]. rewrite Hf.
      cbn [mbind option_bind read_at app write_at]. rewrite Hx. reflexivity. }
  destruct Hw as (y & Hlen & Hw). exists y. split; [exact Hlen|].
  destruct j' as [root']. cbn [intf] in Hw. subst root'.
  rewrite write_at_app, Hread, Hres. cbn [write_at]. rewrite Hf.
  exact (reach_after_write j pre cur _ Hreach).
Qed.

(** X16.  [Set] at the element [f[n]] of an array, or anywhere under
    it, changes that element only: the array keeps its length, which
    [Len] returns before and after, and a read of any path through
    another element of the array returns after the [Set] what it
    returned before. *)
Theorem X16_set_at_index_replaces_one_element
  (CodecError : Type)
  (json_Unmarshal : string -> CodecError + Value)
  (json_Encode : GoType -> GoVal -> CodecError + string)
  (j j' : JSON) (pre rest : list string) (cur : Cursor) (mi : gmap string Value)
  (f : string) (l : list Value) (n : string) (i : Z) (t : GoType) (x : GoVal) :
  reach j pre = Some cur ->
  result cur = Object mi -> mi !! f = Some (Array l) ->
  f <> "" -> occurs "." f = false -> occurs "[" f = false ->
  Strconv.Atoi n = Some i -> 0 <= i ->
  Set_ CodecError json_Unmarshal json_Encode j
    (join (pre ++ (f ++ "[" ++ n ++ "]") :: rest)) (InValue t x) = (Ok, j') ->
  Len j (join (pre ++ [f])) = (Z.of_nat (length l), None)
  /\ Len j' (join (pre ++ [f])) = (Z.of_nat (length l), None)
  /\ forall (m : string) (k : Z) (post : list string),
       Strconv.Atoi m = Some k -> 0 <= k -> k <> i ->
       find j' (join (pre ++ (f ++ "[" ++ m ++ "]") :: post)) false
       = find j (join (pre ++ (f ++ "[" ++ m ++ "]") :: post)) false.
Proof.
  intros Hreach Hres Hf Hne Hfd Hfb Hn Hi Hset.
  destruct (Set_under_index _ _ _ _ _ _ _ _ _ _ _ _ _ _ _ Hreach Hres Hf Hne Hfd Hn Hi Hset)
    as (ifc & Hlen & Hreach').
  assert (HLen : forall j0 c m0 l0,
            reach j0 pre = Some c -> result c = Object m0 -> m0 !! f = Some (Array l0) ->
            Len j0 (join (pre ++ [f])) = (Z.of_nat (length l0), None)).
  { intros j0 c m0 l0 Hr Hc Hm. unfold Len.
    rewrite (find_last j0 pre f false c Hr Hne Hfd).
    unfold find_step. rewrite (parse_key_plain f Hfb).
    unfold walk_key. rewrite (not_empty_eqb f Hne), Hc, Hm. reflexivity. }
  split; [exact (HLen j cur mi l Hreach Hres Hf)|]. split.
  - rewrite (HLen j' _ _ _ Hreach' eq_refl (lookup_insert_eq _ _ _)).
    rewrite length_insert. reflexivity.
  - intros m k post Hm Hk Hki.
    destruct (Atoi_no_bracket m k Hm) as (_ & _ & Hmd).
    assert (Hd : occurs "." (f ++ "[" ++ m ++ "]") = false).
    { rewrite !occurs_app, Hfd, Hmd. reflexivity. }
    destruct (reach_loop j pre _ Hreach) as (Hpre & k1 & Hloop).
    destruct (reach_loop j' pre _ Hreach') as (_ & k2 & Hloop').
    unfold find. rewrite (Split_join_at pre _ post Hd).
    destruct (length (keys_of pre ++ (f ++ "[" ++ m ++ "]") :: keys_of post) =? 0)%nat;
      [reflexivity|].
    destruct (existsb (fun v => String.eqb v "")
                (keys_of pre ++ (f ++ "[" ++ m ++ "]") :: keys_of post));
      [reflexivity|].
    rewrite !find_loop_app, Hloop, Hloop'.
    cbn [find_loop]. unfold find_step. rewrite (parse_key_index f m k Hm).
    unfold walk_key. rewrite (not_empty_eqb f Hne). cbn [result address andb].
    rewrite Hres, Hf, lookup_insert_eq, !andb_false_r.
    replace (-1 <? k) with true by (symmetry; apply Z.ltb_lt; lia).
    rewrite length_insert.
    rewrite list_lookup_insert_ne by lia.
    reflexivity.
Qed.

Lemma X16_witness :
  reach planets [] = Some {| result := intf planets; address := [] |}
  /\ Strconv.Atoi "0" = Some 0
  /\ Len planets "planets" = (2, None)
  /\ Len (snd (Set_ string SampleCodec.Unmarshal SampleCodec.Encode planets
                 "planets[0].name"
                 (InValue (TBasic KString false) (VString "Jenifer Lawrence"))))
         "planets"
     = (2, None)
  /\ forall (m : string) (k : Z) (post : list string),
       Strconv.Atoi m = Some k -> 0 <= k -> k <> 0 ->
       find (snd (Set_ string SampleCodec.Unmarshal SampleCodec.Encode planets
                    "planets[0].name"
                    (InValue (TBasic KString false) (VString "Jenifer Lawrence"))))
            (join ([] ++ ("planets" ++ "[" ++ m ++ "]") :: post)) false
       = find planets (join ([] ++ ("planets" ++ "[" ++ m ++ "]") :: post)) false.
Proof.
  split; [reflexivity|]. split; [reflexivity|].
  refine (X16_set_at_index_replaces_one_element
            string SampleCodec.Unmarshal SampleCodec.Encode
            planets _ [] ["name"]
            {| result := intf planets; address := [] |} _
            "planets" _ "0" 0 (TBasic KString false) (VString "Jenifer Lawrence")
            eq_refl eq_refl eq_refl _ eq_refl eq_refl eq_refl _ _).
  - discriminate.
  - lia.
  - vm_compute. reflexivity.
Defined.

(** ** Reading back what was set *)

(** X17.  What is set is what is got: after [Set] has stored a bool, a
    string or a float64 whose encoding decodes to the JSON value [v],
    [Get] of the same path into a variable of that type returns nil and
    stores the value that was set, whatever the variable held. *)
Theorem X17_set_then_get
  (unrepresentable : IntKind -> spec_float -> Z)
  (CodecError : Type)
  (json_Unmarshal : string -> CodecError + Value)
  (json_Encode : GoType -> GoVal -> CodecError + string)
  (j j' : JSON) (path : string) (v : Value) (out : GoVal) :
  scalar v = true -> v <> Null ->
  round_trips CodecError json_Unmarshal json_Encode v ->
  Set_ CodecError json_Unmarshal json_Encode j path
    (InValue (natural_type v) (natural_value v)) = (Ok, j') ->
  Get unrepresentable j' path (OutPointer (natural_type v) out)
  = (Ok, OutPointer (natural_type v) (natural_value v)).
Proof.
  intros Hs Hnn (buff & Henc & Hdec) Hset.
  destruct (Set_then_reads _ _ _ _ _ _ _ _ _ _ Henc Hdec Hnn Hset) as (cur & Hfind & Hcur).
  unfold Get. rewrite Hfind, Hcur.
  destruct v; first [contradiction | discriminate | reflexivity].
Qed.

Lemma X17_witness :
  scalar (Str "moon") = true /\ Str "moon" <> Null
  /\ round_trips string SampleCodec.Unmarshal SampleCodec.Encode (Str "moon")
  /\ Get SampleCodec.unrepresentable
       (snd (Set_ string SampleCodec.Unmarshal SampleCodec.Encode sample_nested "p.a[1]"
               (InValue (TBasic KString false) (VString "moon"))))
       "p.a[1]" (OutPointer (TBasic KString false) (VString ""))
     = (Ok, OutPointer (TBasic KString false) (VString "moon")).
Proof.
  assert (Hrt : round_trips string SampleCodec.Unmarshal SampleCodec.Encode (Str "moon")).
  { exists (SampleCodec.quote ++ "moon" ++ SampleCodec.quote ++ SampleCodec.newline).
    split; reflexivity. }
  split; [reflexivity|]. split; [discriminate|]. split; [exact Hrt|].
  refine (X17_set_then_get SampleCodec.unrepresentable
            string SampleCodec.Unmarshal SampleCodec.Encode
            sample_nested _ "p.a[1]" (Str "moon") (VString "") eq_refl _ Hrt _).
  - discriminate.
  - vm_compute. reflexivity.
Defined.

(** ** A struct and the paths of its fields *)

(** A path extended by the field [s]. *)
Lemma find_field_of j path key cur m s x :
  find j path false = inr (key, cur) ->
  result cur = Object m -> m !! s = Some x ->
  s <> "" -> occurs "." s = false -> occurs "[" s = false ->
  find j (path ++ "." ++ s) false
  = inr (KeyNone, {| result := x; address := (address cur ++ [ByField s])%list |}).
Proof.
  intros Hfind Hres Hx Hne Hd Hb. unfold find in *.
  change (path ++ "." ++ s) with (path ++ String "." s).
  rewrite Split_app, (Split_absent s "." Hd).
  destruct (length (GoStrings.Split path ".") =? 0)%nat; [discriminate|].
  destruct (existsb (fun v => String.eqb v "") (GoStrings.Split path ".")) eqn:Hex;
    [discriminate|].
  rewrite List.length_app. cbn [length].
  replace (length (GoStrings.Split path ".") + 1 =? 0)%nat with false
    by (symmetry; apply Nat.eqb_neq; lia).
  rewrite existsb_empty_app, Hex. cbn [existsb orb].
  rewrite (not_empty_eqb s Hne). cbn [orb].
  rewrite find_loop_app, Hfind.
  cbn [find_loop]. unfold find_step. rewrite (parse_key_plain s Hb).
  unfold walk_key. rewrite (not_empty_eqb s Hne), Hres, Hx. reflexivity.
Qed.

(** A member that is not null is assigned as the value at its path is. *)
Lemma assign_member unrepresentable k d x v :
  x <> Null ->
  assign unrepresentable (TBasic k d) (RIface x) v
  = assign unrepresentable (TBasic k d) (ValueOf x) v.
Proof. intros Hx. destruct x; first [contradiction | reflexivity]. Qed.

(** X18.  A struct is the sum of its fields: when [Get] of an object
    into a struct returns nil, every exported field of a scalar type
    whose tag names a member that is not null holds what [Get] of the
    path of that member into a variable of the field's type stores,
    and that [Get] returns nil as well. *)
Theorem X18_struct_field_is_get_of_its_path
  (unrepresentable : IntKind -> spec_float -> Z)
  (j : JSON) (path : string) (key : Key) (cur : Cursor) (m : gmap string Value)
  (fields : list (FieldInfo * GoType)) (vals vals' : list GoVal)
  (i : nat) (fld : FieldInfo) (k : Kind) (d : bool) (v : GoVal) (x : Value) :
  find j path false = inr (key, cur) ->
  result cur = Object m ->
  Get unrepresentable j path (OutPointer (TStruct fields) (VStruct vals))
  = (Ok, OutPointer (TStruct fields) (VStruct vals')) ->
  fields !! i = Some (fld, TBasic k d) ->
  vals !! i = Some v ->
  Exported fld = true ->
  m !! key_of_field fld = Some x -> x <> Null ->
  key_of_field fld <> "" ->
  occurs "." (key_of_field fld) = false -> occurs "[" (key_of_field fld) = false ->
  exists v',
    vals' !! i = Some v'
    /\ Get unrepresentable j (path ++ "." ++ key_of_field fld) (OutPointer (TBasic k d) v)
       = (Ok, OutPointer (TBasic k d) v').
Proof.
  intros Hfind Hres Hget Hf Hv Hex Hx Hnn Hne Hd Hb.
  unfold Get in Hget. rewrite Hfind, Hres in Hget. cbn [ValueOf] in Hget.
  rewrite assign_struct in Hget. cbn [IsValid negb MapKeys] in Hget.
  destruct (fields_loop _ _ _ fields vals) as [st vals''] eqn:Hloop.
  inversion Hget; subst st vals''.
  destruct (fields_loop_assigned _ _ _ _ _ _ _ _ _ _ _ Hloop Hf Hv Hex
              (eq_trans (match_key_member m fld)
                 ltac:(rewrite Hx; reflexivity)))
    as (y & Hy & Hi).
  cbn [MapIndex] in Hy. rewrite Hx in Hy.
  exists y. split; [exact Hi|].
  unfold Get. rewrite (find_field_of j path key cur m _ x Hfind Hres Hx Hne Hd Hb).
  cbn [result]. rewrite <- (assign_member unrepresentable k d x v Hnn), Hy.
  reflexivity.
Qed.

Lemma X18_witness :
  find sample_person "p" false
    = inr (KeyNone,
           {| result := Object (<["name" := Str "X"]> (<["extra" := Str "Y"]> ∅));
              address := [ByField "p"] |})
  /\ Get SampleCodec.unrepresentable sample_person "p"
       (OutPointer tagged_person (VStruct [VString ""]))
     = (Ok, OutPointer tagged_person (VStruct [VString "X"]))
  /\ exists v',
       [VString "X"] !! 0%nat = Some v'
       /\ Get SampleCodec.unrepresentable sample_person "p.name"
            (OutPointer (TBasic KString false) (VString ""))
          = (Ok, OutPointer (TBasic KString false) v').
Proof.
  split; [reflexivity|]. split; [vm_compute; reflexivity|].
  refine (X18_struct_field_is_get_of_its_path SampleCodec.unrepresentable
            sample_person "p" KeyNone
            {| result := Object (<["name" := Str "X"]> (<["extra" := Str "Y"]> ∅));
               address := [ByField "p"] |}
            (<["name" := Str "X"]> (<["extra" := Str "Y"]> ∅))
            [({| Name := "Name"; Tag := "name"; Exported := true |}, TBasic KString false)]
            [VString ""] [VString "X"] 0%nat
            {| Name := "Name"; Tag := "name"; Exported := true |}
            KString false (VString "") (Str "X")
            eq_refl eq_refl _ eq_refl eq_refl eq_refl eq_refl _ _ eq_refl eq_refl).
  - vm_compute. reflexivity.
  - discriminate.
  - discriminate.
Defined.

(** ** The messages of the errors *)

(** X19.  Errors of the package that differ have messages that
    differ. *)
Theorem X19_error_messages_are_distinct (e1 e2 : ErrJSON) :
  e1 <> e2 -> ErrorString e1 <> ErrorString e2.
Proof. destruct e1, e2; intros H; first [contradiction | discriminate]. Qed.

Lemma X19_witness :
  ErrNotFound <> ErrOutOfRange
  /\ ErrorString ErrNotFound <> ErrorString ErrOutOfRange.
Proof.
  assert (H : ErrNotFound <> ErrOutOfRange) by discriminate.
  split; [exact H|].
  exact (X19_error_messages_are_distinct ErrNotFound ErrOutOfRange H).
Defined.

(** ** Integer destinations *)

(** X20.  The integers that [Get] accepts.  A number of the document
    that is an integer [n] of magnitude below [2^53] within the range
    of the integer kind of [out] passes the test and is handed to
    [out.Set], which stores [n] when the type of [out] is the
    predeclared type and panics, leaving [out], when it is a defined
    type.  For the kinds of at most 32 bits nothing else passes: any
    other number, a fraction or an integer out of range, gives
    ErrTruncate and leaves [out], whatever the conversion of an
    unrepresentable value yields. *)
Theorem X20_integers_in_range_are_accepted
  (unrepresentable : IntKind -> spec_float -> Z)
  (k : IntKind) (defined : bool) (inv : RValue) (v : spec_float) (n : Z) (out : GoVal) :
  as_float64 inv = Some v ->
  F64.finite v = true ->
  F64.trunc v = Some n ->
  (whole v n = true -> int_fits k n = true -> Z.abs n < 2 ^ 53 ->
   commits defined out (VInt n)
     (assign unrepresentable (TBasic (KInteger k) defined) inv out))
  /\ (int_bits k <= 32 ->
      if whole v n && int_fits k n
      then commits defined out (VInt n)
             (assign unrepresentable (TBasic (KInteger k) defined) inv out)
      else assign unrepresentable (TBasic (KInteger k) defined) inv out
           = (Failed ErrTruncate, out)).
Proof.
  intros Hin Hv Hn.
  pose proof (assign_narrower unrepresentable (KInteger k) defined inv v out eq_refl Hin Hv)
    as Hassign.
  cbn [cast cast_back] in Hassign.
  assert (Hyes : whole v n = true -> int_fits k n = true -> Z.abs n < 2 ^ 53 ->
                 commits defined out (VInt n)
                   (assign unrepresentable (TBasic (KInteger k) defined) inv out)).
  { intros Hw Hf Hb. rewrite Hassign. unfold to_int. rewrite Hn, Hf.
    rewrite (same_number_of_int v n Hb), Hw. apply Set_basic_commits. }
  split; [exact Hyes|].
  intros Hk. destruct (whole v n && int_fits k n) eqn:Hc.
  - apply andb_true_iff in Hc as [Hw Hf].
    exact (Hyes Hw Hf (int_fits_narrow k n Hk Hf)).
  - rewrite Hassign.
    pose proof (to_int_fits unrepresentable k v) as Hz.
    rewrite (same_number_of_int v _ (int_fits_narrow k _ Hk Hz)).
    destruct (whole v (to_int unrepresentable k v)) eqn:Hw; [|reflexivity].
    apply whole_trunc in Hw as Ht. rewrite Hn in Ht. inversion Ht as [Heq].
    rewrite <- Heq in Hw, Hz. rewrite Hw, Hz in Hc. discriminate.
Qed.

Lemma X20_witness :
  as_float64 (RConcrete (Number (F64.of_int 200))) = Some (F64.of_int 200)
  /\ F64.finite (F64.of_int 200) = true
  /\ F64.trunc (F64.of_int 200) = Some 200
  /\ int_bits Int8 <= 32
  /\ assign SampleCodec.unrepresentable (TBasic (KInteger Int8) true)
       (RConcrete (Number (F64.of_int 200))) (VInt 7)
     = (Failed ErrTruncate, VInt 7).
Proof.
  split; [reflexivity|]. split; [reflexivity|]. split; [reflexivity|].
  assert (H : int_bits Int8 <= 32) by (cbn; lia).
  split; [exact H|].
  exact (proj2 (X20_integers_in_range_are_accepted SampleCodec.unrepresentable
                  Int8 true (RConcrete (Number (F64.of_int 200))) (F64.of_int 200) 200 (VInt 7)
                  eq_refl eq_refl eq_refl) H).
Defined.

(** ** Writing twice *)

Lemma write_at_twice a x y : forall root,
  write_at a x (write_at a y root) = write_at a x root.
Proof.
  induction a as [|h a IH]; intros root; [reflexivity|].
  destruct h as [k|i]; cbn [write_at]; destruct root as [| | | |l|m]; try reflexivity.
  - destruct (m !! k) as [c|] eqn:E; cbn [write_at]; [|rewrite E; reflexivity].
    rewrite lookup_insert_eq, IH, insert_insert_eq. reflexivity.
  - destruct (l !! i) as [c|] eqn:E; cbn [write_at]; [|rewrite E; reflexivity].
    rewrite list_lookup_insert_eq by (apply lookup_lt_Some in E; exact E).
    rewrite IH, list_insert_insert_eq. reflexivity.
Qed.

(** After the container that a write located has been replaced by one
    alike, a write of the same keys locates the replacement. *)
Lemma locate_after_write_loop ks k root key tgt new :
  find_loop true (ks ++ [k]) {| result := root; address := [] |} = inr (key, tgt) ->
  alike (result tgt) new ->
  find_loop true (ks ++ [k])
    {| result := write_at (address tgt) new root; address := [] |}
  = inr (key, {| result := new; address := address tgt |}).
Proof.
  change (ks ++ [k])%list with (ks ++ k :: [])%list.
  rewrite !find_loop_app.
  destruct (find_loop false ks {| result := root; address := [] |})
    as [e|[k0 [v0 d0]]] eqn:Hpre; [discriminate|].
  pose proof (find_loop_addressed root false ks _ _ _
                (eq_refl : well_addressed root {| result := root; address := [] |}) Hpre)
    as Haddr.
  unfold well_addressed in Haddr. cbn [result address] in Haddr.
  rewrite find_loop_single. unfold find_step.
  destruct (parse_key k) as [[f i]|] eqn:Hparse; [|discriminate].
  unfold walk_key. cbn [result address andb].
  destruct (String.eqb f "") eqn:Hf.
  - destruct v0 as [| | | |si|]; try discriminate.
    destruct ((i <? 0) || (Z.of_nat (length si) <=? i)) eqn:Hi; [discriminate|].
    intros H. inversion H; subst. cbn [result address]. intros Hal.
    rewrite (find_loop_after_write ks _ _ _ _ new Hpre).
    rewrite find_loop_single. unfold find_step. rewrite Hparse.
    unfold walk_key. cbn [result address andb]. rewrite Hf.
    destruct new as [| | | |l'|]; try contradiction.
    cbn [alike] in Hal. rewrite Hal, Hi. reflexivity.
  - destruct v0 as [| | | | |mi]; try discriminate.
    rewrite andb_true_r.
    destruct (i <? 0) eqn:Hneg.
    + intros H. inversion H; subst. cbn [result address]. intros Hal.
      rewrite (find_loop_after_write ks _ _ _ _ new Hpre).
      rewrite find_loop_single. unfold find_step. rewrite Hparse.
      unfold walk_key. cbn [result address andb]. rewrite Hf, Hneg.
      destruct new as [| | | | |m']; try contradiction. reflexivity.
    + destruct (mi !! f) as [iv|] eqn:Hiv; [|discriminate].
      replace (-1 <? i) with true
        by (symmetry; apply Z.ltb_lt; apply Z.ltb_ge in Hneg; lia).
      destruct iv as [| | | |sv|]; try discriminate.
      destruct (Z.of_nat (length sv) <=? i) eqn:Hlen; [discriminate|].
      intros H. inversion H; subst. cbn [result address]. intros Hal.
      rewrite write_at_app, Haddr. cbn [write_at]. rewrite Hiv. cbn [write_at].
      rewrite (find_loop_after_write ks _ _ _ _ (Object (<[f := new]> mi)) Hpre).
      rewrite find_loop_single. unfold find_step. rewrite Hparse.
      unfold walk_key. cbn [result address andb]. rewrite Hf, Hneg.
      rewrite lookup_insert_eq.
      replace (-1 <? i) with true
        by (symmetry; apply Z.ltb_lt; apply Z.ltb_ge in Hneg; lia).
      destruct new as [| | | |l'|]; try contradiction.
      cbn [alike] in Hal. rewrite Hal, Hlen. reflexivity.
Qed.

Lemma find_after_Set j path key tgt new :
  find j path true = inr (key, tgt) ->
  alike (result tgt) new ->
  find {| intf := write_at (address tgt) new (intf j) |} path true
  = inr (key, {| result := new; address := address tgt |}).
Proof.
  intros Hfind Hal. unfold find in *. cbn [intf].
  destruct (length (GoStrings.Split path ".") =? 0)%nat; [discriminate|].
  destruct (existsb _ _); [discriminate|].
  pose proof (Split_nonempty path ".") as Hne.
  destruct (exists_last Hne) as (ks & k & Hks). rewrite Hks in *.
  exact (locate_after_write_loop ks k (intf j) key tgt new Hfind Hal).
Qed.

Lemma SetMapIndex_twice m k v w :
  SetMapIndex (SetMapIndex m k v) k w = SetMapIndex m k w.
Proof.
  unfold SetMapIndex. destruct (Interface v), (Interface w).
  - apply insert_insert_eq.
  - apply delete_insert_eq.
  - apply insert_delete_eq.
  - apply delete_delete_eq.
Qed.

(** X21.  The last write wins: when [Set] of a path returns nil for a
    first value and, on the same document, for a second one, setting
    the second after the first leaves the document that setting the
    second alone leaves.  With the same value twice: [Set] is
    idempotent. *)
Theorem X21_last_write_wins
  (CodecError : Type)
  (json_Unmarshal : string -> CodecError + Value)
  (json_Encode : GoType -> GoVal -> CodecError + string)
  (j j1 j2 : JSON) (path : string) (in1 in2 : InArg) :
  Set_ CodecError json_Unmarshal json_Encode j path in1 = (Ok, j1) ->
  Set_ CodecError json_Unmarshal json_Encode j path in2 = (Ok, j2) ->
  Set_ CodecError json_Unmarshal json_Encode j1 path in2 = (Ok, j2).
Proof.
  unfold Set_. destruct in1 as [|t1 x1]; [discriminate|].
  destruct in2 as [|t2 x2]; [discriminate|].
  destruct (find j path true) as [e|[key tgt]] eqn:Hfind; [discriminate|].
  destruct (json_Encode t1 x1) as [e|b1]; [discriminate|].
  destruct (json_Unmarshal b1) as [e|v1]; [discriminate|].
  destruct (json_Encode t2 x2) as [e|b2]; [discriminate|].
  destruct (json_Unmarshal b2) as [e|v2]; [discriminate|].
  destruct (find_locator j path key tgt Hfind)
    as [(mi & k & Hres & ->)|(si & i & Hres & -> & Hi)]; rewrite Hres.
  - intros H1 H2. inversion H1; subst j1. inversion H2; subst j2.
    rewrite (find_after_Set j path _ tgt (Object (SetMapIndex mi k (ValueOf v1))) Hfind)
      by (rewrite Hres; exact I).
    cbn [result address intf]. rewrite write_at_twice, SetMapIndex_twice. reflexivity.
  - destruct (IsValid (ValueOf v1)); [|discriminate].
    destruct (IsValid (ValueOf v2)); [|discriminate].
    intros H1 H2. inversion H1; subst j1. inversion H2; subst j2.
    rewrite (find_after_Set j path _ tgt (Array (<[Z.to_nat i := v1]> si)) Hfind)
      by (rewrite Hres; cbn; apply length_insert).
    cbn [result address intf]. rewrite write_at_twice, list_insert_insert_eq. reflexivity.
Qed.

Lemma X21_witness :
  Set_ string SampleCodec.Unmarshal SampleCodec.Encode sample_nested "p.a[0]"
    (InValue (TBasic KString false) (VString "x"))
  = (Ok, {| intf := Object (<["p" := Object (<["a" := Array [Str "x"; Null]]>
                                               (<["b" := Bool true]> ∅))]> ∅) |})
  /\ Set_ string SampleCodec.Unmarshal SampleCodec.Encode
       (snd (Set_ string SampleCodec.Unmarshal SampleCodec.Encode sample_nested "p.a[0]"
               (InValue (TBasic KBool false) (VBool false))))
       "p.a[0]" (InValue (TBasic KString false) (VString "x"))
     = (Ok, {| intf := Object (<["p" := Object (<["a" := Array [Str "x"; Null]]>
                                                  (<["b" := Bool true]> ∅))]> ∅) |}).
Proof.
  assert (H2 : Set_ string SampleCodec.Unmarshal SampleCodec.Encode sample_nested "p.a[0]"
                 (InValue (TBasic KString false) (VString "x"))
               = (Ok, {| intf := Object (<["p" := Object (<["a" := Array [Str "x"; Null]]>
                                                            (<["b" := Bool true]> ∅))]> ∅) |}))
    by (vm_compute; reflexivity).
  split; [exact H2|].
  refine (X21_last_write_wins string SampleCodec.Unmarshal SampleCodec.Encode
            sample_nested _ _ "p.a[0]"
            (InValue (TBasic KBool false) (VBool false))
            (InValue (TBasic KString false) (VString "x")) _ H2).
  vm_compute. reflexivity.
Defined.

(** ** Reading and writing the same path *)

(** X22.  What can be read can be overwritten: when a read of a path
    resolves, [Set] of that path with a value that the codec takes and
    that is not null returns nil, and a read of the path afterwards
    resolves to the decoded value. *)
Theorem X22_readable_paths_are_writable
  (CodecError : Type)
  (json_Unmarshal : string -> CodecError + Value)
  (json_Encode : GoType -> GoVal -> CodecError + string)
  (j : JSON) (path : string) (key : Key) (cur : Cursor)
  (t : GoType) (x : GoVal) (buff : string) (ifc : Value) :
  find j path false = inr (key, cur) ->
  json_Encode t x = inr buff ->
  json_Unmarshal buff = inr ifc ->
  ifc <> Null ->
  exists j' cur',
    Set_ CodecError json_Unmarshal json_Encode j path (InValue t x) = (Ok, j')
    /\ find j' path false = inr (KeyNone, cur') /\ result cur' = ifc.
Proof.
  intros Hread Henc Hdec Hnn.
  destruct (find_locates j path key cur Hread) as (key' & tgt & Hfind & Hloc & _).
  assert (Hv : IsValid (ValueOf ifc) = true)
    by (destruct ifc; first [reflexivity | contradiction]).
  assert (Hset : exists j', Set_ CodecError json_Unmarshal json_Encode j path (InValue t x)
                            = (Ok, j')).
  { unfold Set_. rewrite Hfind, Henc, Hdec. unfold locates in Hloc.
    destruct (result tgt), key'; try contradiction.
    - rewrite Hv. eexists. reflexivity.
    - eexists. reflexivity. }
  destruct Hset as (j' & Hset). exists j'.
  destruct (Set_then_reads _ _ _ _ _ _ _ _ _ _ Henc Hdec Hnn Hset) as (cur' & Hfind' & Hcur').
  exists cur'. split; [exact Hset|]. split; assumption.
Qed.

Lemma X22_witness :
  find sample_nested "p.a[1]" false
    = inr (KeyNone, {| result := Null;
                       address := [ByField "p"; ByField "a"; ByIndex 1] |})
  /\ exists j' cur',
       Set_ string SampleCodec.Unmarshal SampleCodec.Encode sample_nested "p.a[1]"
         (InValue (TBasic KBool false) (VBool true)) = (Ok, j')
       /\ find j' "p.a[1]" false = inr (KeyNone, cur') /\ result cur' = Bool true.
Proof.
  split; [reflexivity|].
  refine (X22_readable_paths_are_writable string SampleCodec.Unmarshal SampleCodec.Encode
            sample_nested "p.a[1]" KeyNone
            {| result := Null; address := [ByField "p"; ByField "a"; ByIndex 1] |}
            (TBasic KBool false) (VBool true) ("true" ++ SampleCodec.newline) (Bool true)
            eq_refl eq_refl eq_refl _).
  discriminate.
Defined.

(** ** Destinations that receive nothing *)

Lemma assign_unassigned unrepresentable t inv out :
  unassigned t = true -> assign unrepresentable t inv out = (Ok, out).
Proof.
  destruct t; try discriminate; intros _; cbn; destruct (negb (IsValid inv)); reflexivity.
Qed.

(** X23.  [Get] returns nil and stores nothing when the element is
    null, whatever the type of [out], and when [out] is of a kind that
    [assign] has no case for, [interface{}] among them, whatever the
    element.  Into a slice of such a type an array gives a slice of its
    length that holds zero values only. *)
Theorem X23_get_stores_nothing
  (unrepresentable : IntKind -> spec_float -> Z)
  (j : JSON) (path : string) (key : Key) (cur : Cursor) (t : GoType) (x : GoVal) :
  find j path false = inr (key, cur) ->
  (result cur = Null \/ unassigned t = true ->
   Get unrepresentable j path (OutPointer t x) = (Ok, OutPointer t x))
  /\ (forall l : list Value,
        result cur = Array l -> unassigned t = true ->
        Get unrepresentable j path (OutPointer (TSlice t) x)
        = (Ok, OutPointer (TSlice t) (VSlice (Some (replicate (length l) (zero t)))))).
Proof.
  intros Hfind. unfold Get. rewrite Hfind. split.
  - intros [Hnull|Ht].
    + rewrite Hnull. cbn [ValueOf]. destruct t; reflexivity.
    + rewrite (assign_unassigned _ _ _ _ Ht). reflexivity.
  - intros l Hres Ht. rewrite Hres. cbn [ValueOf]. rewrite assign_array.
    rewrite (elems_loop_ok _ [] l (replicate (length l) (zero t)) []); [reflexivity|].
    clear Hres. induction l as [|v l IH]; constructor; [|exact IH].
    apply assign_unassigned. exact Ht.
Qed.

Lemma X23_witness :
  find {| intf := Object (<["a" := Array [Str "x"; Str "y"]]> ∅) |} "a" false
    = inr (KeyNone, {| result := Array [Str "x"; Str "y"]; address := [ByField "a"] |})
  /\ unassigned TInterface = true
  /\ Get SampleCodec.unrepresentable
       {| intf := Object (<["a" := Array [Str "x"; Str "y"]]> ∅) |} "a"
       (OutPointer (TSlice TInterface) (VSlice None))
     = (Ok, OutPointer (TSlice TInterface) (VSlice (Some [VNil; VNil]))).
Proof.
  split; [reflexivity|]. split; [reflexivity|].
  exact (proj2 (X23_get_stores_nothing SampleCodec.unrepresentable
                  {| intf := Object (<["a" := Array [Str "x"; Str "y"]]> ∅) |} "a"
                  KeyNone {| result := Array [Str "x"; Str "y"]; address := [ByField "a"] |}
                  TInterface (VSlice None) eq_refl)
           [Str "x"; Str "y"] eq_refl eq_refl).
Defined.
